(** * javsp.web.translate: provider chain, entity protection, fallback back-off

    A shallow embedding of [src/javsp/web/translate.py] (with the parts of
    [src/javsp/config.py] it reads) and the properties of its specification.

    Python values are embedded as follows.
    - [str] is a list of Unicode code points ([pystr]); literals are written
      as UTF-8 and decoded by [str].
    - exceptions are explicit: every effectful function runs in the monad
      [M], whose outcomes are a value, a raised exception, or divergence of
      the unbounded throttling loop of [google_trans].
    - the outside world (the OpenAI client, the HTTP endpoint, the random
      generator, the clock) is an interface [Env]; every theorem holds for
      every implementation of it.
    - the module is embedded twice.  The functions of the first embedding
      leave out the console output and take the import of the client
      library to end normally or with [ImportError]; they carry the
      properties of the chain, of the fallback and of the wait.  The
      functions of [Io] have every [print] and the import as they are
      written, with the console and the import machinery as a second
      interface, [Platform], and [info] as an object of the caller; they
      carry the properties that depend on whether an exception leaves a
      function.  On a console that takes every text and leaves the world
      alone both embeddings compute the same. *)

From Stdlib Require Import String Ascii.
From Stdlib Require Import List ZArith NArith Bool Lia.
From Stdlib Require Import DecimalString.
Import ListNotations.

Set Implicit Arguments.
Set Warnings "-register-all".

(* ================================================================== *)
(** ** Python strings *)

Definition char := N.
Definition pystr := list char.

(** UTF-8 decoding of the bytes of a literal: [need] continuation bytes are
    still expected and [acc] holds the bits read so far. *)
Fixpoint utf8_decode (need : nat) (acc : N) (bs : list N) : pystr :=
  match bs with
  | [] => []
  | b :: r =>
      match need with
      | O =>
          if (b <? 128)%N then b :: utf8_decode 0 0 r
          else if (b <? 224)%N then utf8_decode 1 (b - 192) r
          else if (b <? 240)%N then utf8_decode 2 (b - 224) r
          else utf8_decode 3 (b - 240) r
      | S k =>
          let acc' := (acc * 64 + (b - 128))%N in
          match k with
          | O => acc' :: utf8_decode 0 0 r
          | S _ => utf8_decode k acc' r
          end
      end
  end.

Definition str (s : string) : pystr :=
  utf8_decode 0 0 (map N_of_ascii (list_ascii_of_string s)).

(** [p] is a prefix of [s]: [s.startswith(p)]. *)
Fixpoint startswith (s p : pystr) {struct p} : bool :=
  match p, s with
  | [], _ => true
  | a :: p', b :: s' => (a =? b)%N && startswith s' p'
  | _ :: _, [] => false
  end.

(** [old in s] for strings. *)
Fixpoint occurs (old s : pystr) : bool :=
  startswith s old || match s with [] => false | _ :: s' => occurs old s' end.

(** The left-to-right scan of [str.replace] for a non-empty [old]: [skip]
    counts the characters of a match that are still to be consumed. *)
Fixpoint replace_scan (old new : pystr) (skip : nat) (s : pystr) : pystr :=
  match s with
  | [] => []
  | c :: s' =>
      match skip with
      | S k => replace_scan old new k s'
      | O =>
          if startswith s old
          then new ++ replace_scan old new (length old - 1) s'
          else c :: replace_scan old new 0 s'
      end
  end.

(** [s.replace(old, new)]: every non-overlapping occurrence, leftmost first;
    an empty [old] matches before every character and at the end. *)
Definition replace (s old new : pystr) : pystr :=
  match old with
  | [] => new ++ flat_map (fun c => c :: new) s
  | _ :: _ => replace_scan old new 0 s
  end.

(** [str.isspace] for one character. *)
Definition isspace (c : char) : bool :=
  ((9 <=? c) && (c <=? 13) || (28 <=? c) && (c <=? 32) || (c =? 133)
   || (c =? 160) || (c =? 5760) || (8192 <=? c) && (c <=? 8202)
   || (c =? 8232) || (c =? 8233) || (c =? 8239) || (c =? 8287)
   || (c =? 12288))%N.

Fixpoint lstrip (s : pystr) : pystr :=
  match s with
  | [] => []
  | c :: s' => if isspace c then lstrip s' else s
  end.

Definition strip (s : pystr) : pystr := rev (lstrip (rev (lstrip s))).

(** [sep.join(l)]. *)
Fixpoint join (sep : pystr) (l : list pystr) : pystr :=
  match l with
  | [] => []
  | [x] => x
  | x :: l' => x ++ sep ++ join sep l'
  end.

(** [str(n)] for an integer. *)
Definition str_of_int (z : Z) : pystr :=
  str (NilZero.string_of_int (Z.to_int z)).

(* ================================================================== *)
(** ** Python values decoded from JSON, and exceptions *)

Inductive Val : Type :=
| VNone
| VBool (b : bool)
| VInt (z : Z)
| VFloat (shown : pystr)
| VStr (s : pystr)
| VList (l : list Val)
| VDict (kvs : list (pystr * Val)).

Definition pystr_eqb (a b : pystr) : bool :=
  (length a =? length b)%nat && startswith a b.

(** [d.get(k)] on the items of a dict. *)
Fixpoint dict_get (k : pystr) (kvs : list (pystr * Val)) : option Val :=
  match kvs with
  | [] => None
  | (k', v) :: r => if pystr_eqb k k' then Some v else dict_get k r
  end.

(** The exceptions the module can meet.  [TransportError] and [OtherError]
    come from the outside world (the OpenAI client, [requests], the console)
    and carry what [repr] prints for them.  All are instances of
    [Exception]: [KeyboardInterrupt] and [SystemExit], which
    [except Exception] does not catch, are not represented. *)
Inductive exn : Type :=
| KeyError (key : pystr)
| TypeError
| AttributeError
| TransportError (cause : pystr)
| OtherError (cause : pystr).

(* ================================================================== *)
(** ** Configuration (src/javsp/config.py) *)

Record OpenAICompatibleProvider : Type := {
  base_url : pystr;
  api_key : pystr;
  model : pystr;
  name : pystr
}.

Record TranslateField : Type := {
  field_title : bool;
  field_plot : bool
}.

Record Translator : Type := {
  providers : list OpenAICompatibleProvider;
  fields : TranslateField;
  target_language : pystr;
  title_mandatory : bool;
  auto_detect_language : bool
}.

(** Modelled from the spec: [MovieInfo] (javsp.datatype) is not among the
    sources; the record holds the attributes [translate_movie_info] reads and
    writes, the dynamically attached ones included ([None] when unset). *)
Record MovieInfo : Type := {
  title : option pystr;
  plot : option pystr;
  actress : option (list pystr);
  ori_title : option pystr;
  ori_title_break : option (list Val);
  title_break : option (list Val);
  ori_plot : option pystr
}.

(** The result dicts built by this module have a fixed set of keys; a key is
    in the dict exactly when its field is [Some]. *)
Record Result : Type := {
  k_trans : option pystr;
  k_provider : option pystr;
  k_orig_break : option (list Val);
  k_trans_break : option (list Val);
  k_error : option pystr;
  k_error_code : option Z;
  k_error_msg : option pystr
}.

(** [{"trans": t}] *)
Definition dict_trans (t : pystr) : Result :=
  {| k_trans := Some t; k_provider := None; k_orig_break := None;
     k_trans_break := None; k_error := None; k_error_code := None;
     k_error_msg := None |}.

(** [{"error_code": c, "error_msg": m}] *)
Definition dict_error_code (c : Z) (m : pystr) : Result :=
  {| k_trans := None; k_provider := None; k_orig_break := None;
     k_trans_break := None; k_error := None; k_error_code := Some c;
     k_error_msg := Some m |}.

(** [{'error': m}] *)
Definition dict_error (m : pystr) : Result :=
  {| k_trans := None; k_provider := None; k_orig_break := None;
     k_trans_break := None; k_error := Some m; k_error_code := None;
     k_error_msg := None |}.

(** [{'trans': t, 'orig_break': o, 'trans_break': b, 'provider': p}] *)
Definition dict_google (t : pystr) (o b : list Val) (p : pystr) : Result :=
  {| k_trans := Some t; k_provider := Some p; k_orig_break := Some o;
     k_trans_break := Some b; k_error := None; k_error_code := None;
     k_error_msg := None |}.

(** [result['provider'] = p] *)
Definition set_provider (r : Result) (p : pystr) : Result :=
  {| k_trans := k_trans r; k_provider := Some p;
     k_orig_break := k_orig_break r; k_trans_break := k_trans_break r;
     k_error := k_error r; k_error_code := k_error_code r;
     k_error_msg := k_error_msg r |}.

Definition is_some {A} (o : option A) : bool :=
  match o with Some _ => true | None => false end.

Definition get_default {A} (o : option A) (d : A) : A :=
  match o with Some a => a | None => d end.

(* ================================================================== *)
(** ** The outside world *)

(** What [requests.get] returns: [r.status_code], [r.reason] and the outcome
    of [r.json()]. *)
Record Response : Type := {
  status_code : Z;
  reason : pystr;
  json : exn + Val
}.

(** The collaborators of the module.  [World] is the state of everything
    outside it; each call may observe and change it. *)
Class Env : Type := {
  World : Type;
  (** [from openai import OpenAI]: [false] when it raises [ImportError];
      an import that raises anything else is in [Platform] *)
  import_openai : World -> bool;
  (** [OpenAI(api_key=..., base_url=...)]: [Some e] when it raises *)
  OpenAI : OpenAICompatibleProvider -> World -> option exn;
  (** [client.chat.completions.create(model, messages=[system, user], ...)]:
      raises, or answers with the message content of each choice; the
      retries of the client library happen within the call *)
  chat_completions_create :
    OpenAICompatibleProvider -> pystr -> pystr -> World ->
    (exn + list (option pystr)) * World;
  (** [requests.get(url, proxies=read_proxy())]: the call is given no
      timeout, and a call that never comes back is not represented; the
      properties are about what happens once it has answered or raised *)
  requests_get : pystr -> World -> (exn + Response) * World;
  (** [random.randint(a, b)] *)
  random_randint : Z -> Z -> World -> Z * World;
  (** [time.sleep(secs)] *)
  time_sleep : Z -> World -> World;
  (** [repr(e)] of an exception *)
  repr : exn -> pystr;
  (** [repr(v)] of a list or a dict *)
  repr_container : Val -> pystr
}.

(** [random.randint(a, b)] answers within its bounds. *)
Definition randint_in_range (E : Env) : Prop :=
  forall a b w, (a <= b)%Z ->
    (a <= fst (random_randint a b w) <= b)%Z.

(** [javsp.func.is_chinese] and [javsp.func.is_japanese] are not among the
    sources: the script classifiers are an interface. *)
Class LangDetect : Type := {
  is_chinese : pystr -> bool;
  is_japanese : pystr -> bool
}.

(* ================================================================== *)
(** ** Pure parts *)

Section Detector.
Context {L : LangDetect}.

Definition should_skip_translation (text target_lang : pystr) : bool :=
  if match text with [] => true | _ :: _ => false end
     || (length (strip text) =? 0)%nat
  then true
  else if startswith target_lang (str "zh")
  then if is_chinese text && negb (is_japanese text) then true else false
  else false.

End Detector.

(** The token put in place of a protected name: [f"[ACTRESS:{name}]"]. *)
Definition token (name : pystr) : pystr :=
  str "[ACTRESS:" ++ name ++ str "]".

(** The protection loop of [translate_with_openai_compatible]. *)
Definition protect (actress : list pystr) (texts : pystr) : pystr :=
  fold_left (fun protected_text name =>
               replace protected_text name (token name)) actress texts.

(** The restoration loop of [translate_with_openai_compatible]. *)
Definition restore (actress : list pystr) (translated : pystr) : pystr :=
  fold_left (fun translated name =>
               replace translated (token name) name) actress translated.

Definition lang_map : list (pystr * pystr) :=
  [ (str "zh_CN", str "simplified Chinese");
    (str "zh_TW", str "traditional Chinese");
    (str "zh-Hans", str "simplified Chinese");
    (str "zh-Hant", str "traditional Chinese");
    (str "en", str "English");
    (str "ja", str "Japanese");
    (str "ko", str "Korean") ].

Fixpoint lang_map_get (k : pystr) (m : list (pystr * pystr)) (d : pystr)
  : pystr :=
  match m with
  | [] => d
  | (k', v) :: r => if pystr_eqb k k' then v else lang_map_get k r d
  end.

Definition system_content (target_lang : pystr) : pystr :=
  let target_lang_name := lang_map_get target_lang lang_map target_lang in
  str "Translate the following Japanese paragraph into "
  ++ target_lang_name ++ str " (" ++ target_lang
  ++ str "), while leaving non-Japanese text, names, or text that does not look like Japanese untranslated. Reply with the translated text only, do not add any text that is not in the original content.".

(** [provider.name or f"{provider.model}"] *)
Definition provider_name (provider : OpenAICompatibleProvider) : pystr :=
  match name provider with
  | [] => model provider
  | _ :: _ => name provider
  end.

(** [k in v] *)
Definition py_contains (v : Val) (k : pystr) : exn + bool :=
  match v with
  | VDict kvs => inr (is_some (dict_get k kvs))
  | VList l =>
      inr (existsb (fun x => match x with
                             | VStr s => pystr_eqb s k
                             | _ => false
                             end) l)
  | VStr s => inr (occurs k s)
  | _ => inl TypeError
  end.

(** [v[k]] for a string key *)
Definition py_getitem (v : Val) (k : pystr) : exn + Val :=
  match v with
  | VDict kvs =>
      match dict_get k kvs with
      | Some x => inr x
      | None => inl (KeyError k)
      end
  | _ => inl TypeError
  end.

(** [v.get(k, d)] *)
Definition py_get (v : Val) (k : pystr) (d : Val) : exn + Val :=
  match v with
  | VDict kvs => inr (get_default (dict_get k kvs) d)
  | _ => inl AttributeError
  end.

(** The elements [for i in v] runs over. *)
Definition py_iter (v : Val) : exn + list Val :=
  match v with
  | VList l => inr l
  | VDict kvs => inr (map (fun kv => VStr (fst kv)) kvs)
  | VStr s => inr (map (fun c => VStr [c]) s)
  | _ => inl TypeError
  end.

(** [[i[k] for i in items]] *)
Fixpoint getitem_each (items : list Val) (k : pystr) : exn + list Val :=
  match items with
  | [] => inr []
  | i :: r =>
      match py_getitem i k with
      | inl e => inl e
      | inr x =>
          match getitem_each r k with
          | inl e => inl e
          | inr xs => inr (x :: xs)
          end
      end
  end.

(** Sequencing of steps that may raise. *)
Definition and_then {A B} (r : exn + A) (k : A -> exn + B) : exn + B :=
  match r with
  | inl e => inl e
  | inr a => k a
  end.

(** [''.join(l)]: every element must be a [str]. *)
Fixpoint py_join_empty (l : list Val) : exn + pystr :=
  match l with
  | [] => inr []
  | VStr s :: r =>
      match py_join_empty r with
      | inl e => inl e
      | inr t => inr (s ++ t)
      end
  | _ :: _ => inl TypeError
  end.

(* ================================================================== *)
(** ** Effects *)

(** What the module does to the outside world, in order: a call of
    [client.chat.completions.create], a request to the fallback endpoint
    (the call of [read_proxy] and [requests.get]), a [time.sleep], a
    [logger.warning].  [EvChat] stands for one call of [create]: the client
    is built without [max_retries], so that how many HTTP requests the
    library sends within the call is up to the library.  Console output
    ([print]) is not an event; what it does to the control flow is in
    [Io]. *)
Inductive Event : Type :=
| EvChat (provider : OpenAICompatibleProvider) (system user : pystr)
| EvGet (url : pystr)
| EvSleep (secs : Z)
| EvWarning (msg : pystr).

Section Effects.
Context {E : Env}.

(** The world, the module-level [_google_trans_wait], and the events so
    far. *)
Record State : Type := {
  world : World;
  _google_trans_wait : Z;
  events : list Event
}.

(** The state when the module is loaded: [_google_trans_wait = 60]. *)
Definition initial_state (w : World) : State :=
  {| world := w; _google_trans_wait := 60; events := [] |}.

Inductive Outcome (A : Type) : Type :=
| Ret (a : A) (st : State)
| Raise (e : exn) (st : State)
| Diverge.
Arguments Ret {A} a st.
Arguments Raise {A} e st.
Arguments Diverge {A}.

Definition M (A : Type) : Type := State -> Outcome A.

Definition ret {A} (a : A) : M A := fun st => Ret a st.

Definition raise {A} (e : exn) : M A := fun st => Raise e st.

Definition bind {A B} (c : M A) (k : A -> M B) : M B :=
  fun st =>
    match c st with
    | Ret a st' => k a st'
    | Raise e st' => Raise e st'
    | Diverge => Diverge
    end.

(** [try: c  except Exception as e: h e] *)
Definition try_except {A} (c : M A) (h : exn -> M A) : M A :=
  fun st =>
    match c st with
    | Raise e st' => h e st'
    | o => o
    end.

Definition lift {A} (r : exn + A) : M A :=
  match r with
  | inl e => raise e
  | inr a => ret a
  end.

Definition emit (w : World) (ev : Event) (st : State) : State :=
  {| world := w; _google_trans_wait := _google_trans_wait st;
     events := events st ++ [ev] |}.

Definition new_client (provider : OpenAICompatibleProvider) : M unit :=
  fun st =>
    match OpenAI provider (world st) with
    | Some e => Raise e st
    | None => Ret tt st
    end.

Definition create (provider : OpenAICompatibleProvider)
    (system user : pystr) : M (list (option pystr)) :=
  fun st =>
    let (r, w) := chat_completions_create provider system user (world st) in
    lift r (emit w (EvChat provider system user) st).

Definition get (url : pystr) : M Response :=
  fun st =>
    let (r, w) := requests_get url (world st) in
    lift r (emit w (EvGet url) st).

Definition sleep (secs : Z) : M unit :=
  fun st => Ret tt (emit (time_sleep secs (world st)) (EvSleep secs) st).

Definition warning (msg : pystr) : M unit :=
  fun st => Ret tt (emit (world st) (EvWarning msg) st).

Definition randint (a b : Z) : M Z :=
  fun st =>
    let (n, w) := random_randint a b (world st) in
    Ret n {| world := w; _google_trans_wait := _google_trans_wait st;
             events := events st |}.

Definition read_wait : M Z := fun st => Ret (_google_trans_wait st) st.

Definition write_wait (z : Z) : M unit :=
  fun st => Ret tt {| world := world st; _google_trans_wait := z;
                      events := events st |}.

End Effects.

Arguments Ret {E A} a st.
Arguments Raise {E A} e st.
Arguments Diverge {E A}.

Declare Scope py_scope.
Delimit Scope py_scope with py.
Notation "x <- c ;; k" := (bind c (fun x => k))
  (at level 61, c at next level, right associativity) : py_scope.
Notation "c ;; k" := (bind c (fun _ => k))
  (at level 61, right associativity) : py_scope.
Local Open Scope py_scope.

(* ================================================================== *)
(** ** translate.py

    The functions without their console output; [Io] below has it. *)

Section Translate.
Context {E : Env}.

(** [f"{v}"] for a decoded value. *)
Definition format_val (v : Val) : pystr :=
  match v with
  | VNone => str "None"
  | VBool true => str "True"
  | VBool false => str "False"
  | VInt z => str_of_int z
  | VFloat shown => shown
  | VStr s => s
  | VList _ | VDict _ => repr_container v
  end.

Definition translate_with_openai_compatible (texts : pystr)
    (provider : OpenAICompatibleProvider) (actress : option (list pystr))
    (target_lang : pystr) : M Result :=
  fun st =>
    if negb (import_openai (world st))
    then Ret (dict_error_code (-10) (str "openai package not installed")) st
    else
      let actress := get_default actress [] in
      try_except
        (new_client provider ;;
         let protected_text := protect actress texts in
         response <- create provider (system_content target_lang)
                            protected_text ;;
         match response with
         | [] | None :: _ | Some [] :: _ =>
             ret (dict_error_code (-12) (str "Empty response from API"))
         | Some content :: _ =>
             let translated := strip content in
             let translated := restore actress translated in
             ret (dict_trans translated)
         end)
        (fun e => ret (dict_error_code (-11) (repr e)))
        st.

(** The [while r.status_code == 429] loop of [google_trans]; [fuel] bounds
    the number of retries, and the loop diverges when it runs out. *)
Fixpoint throttled (fuel : nat) (url : pystr) (r : Response) : M Response :=
  if (status_code r =? 429)%Z then
    match fuel with
    | O => fun _ => Diverge
    | S fuel' =>
        wait <- read_wait ;;
        warning (str "HTTP " ++ str_of_int (status_code r) ++ str ": "
                 ++ reason r ++ str ": Google翻译请求超限，将等待"
                 ++ str_of_int wait ++ str "秒后重试") ;;
        sleep wait ;;
        r' <- get url ;;
        (if (status_code r' =? 429)%Z
         then wait' <- read_wait ;;
              n <- randint 60 90 ;;
              write_wait (wait' + n)
         else ret tt) ;;
        throttled fuel' url r'
    end
  else ret r.

Definition google_trans_url (texts to : pystr) : pystr :=
  str "https://translate.google.com.hk/translate_a/single?client=gtx&dt=t&dj=1&ie=UTF-8&sl=auto&tl="
  ++ to ++ str "&q=" ++ texts.

Definition google_trans (fuel : nat) (texts to : pystr) : M Val :=
  let url := google_trans_url texts to in
  r <- get url ;;
  r <- throttled fuel url r ;;
  result <- (if (status_code r =? 200)%Z
             then lift (json r)
             else ret (VDict [(str "error_code", VInt (status_code r));
                              (str "error_msg", VStr (reason r))])) ;;
  sleep 4 ;;
  ret result.

(** The [for idx, provider in enumerate(providers)] loop: [inl result] when
    it returns from the function, [inr errors] when it runs to its end. *)
Fixpoint providers_loop (texts : pystr) (actress : list pystr)
    (target_lang : pystr) (providers : list OpenAICompatibleProvider)
    (errors : list pystr) : M (Result + list pystr) :=
  match providers with
  | [] => ret (inr errors)
  | provider :: rest =>
      result <- translate_with_openai_compatible texts provider
                  (Some actress) target_lang ;;
      if is_some (k_trans result)
      then ret (inl (set_provider result (provider_name provider)))
      else
        let error_msg := get_default (k_error_msg result)
                                     (str "Unknown error") in
        providers_loop texts actress target_lang rest
          (errors ++ [provider_name provider ++ str ": " ++ error_msg])
  end.

(** What the fallback block of [translate_with_providers] makes of the value
    [result] returned by [google_trans], up to the exceptions it can meet. *)
Definition sentences_block (result : Val) : exn + Result :=
  and_then (py_contains result (str "sentences")) (fun has_sentences =>
  if (has_sentences : bool) then
    and_then (py_getitem result (str "sentences")) (fun sentences =>
    and_then (py_iter sentences) (fun items =>
    and_then (getitem_each items (str "orig")) (fun orig_break =>
    and_then (getitem_each items (str "trans")) (fun trans_break =>
    and_then (py_join_empty trans_break) (fun trans =>
    inr (dict_google trans orig_break trans_break (str "Google")))))))
  else
    and_then (py_get result (str "error_code") (VStr (str "unknown")))
      (fun code =>
    and_then (py_get result (str "error_msg") (VStr (str "unknown error")))
      (fun msg =>
    inr (dict_error (format_val code ++ str ": " ++ format_val msg))))).

(** The fallback block of [translate_with_providers]. *)
Definition google_fallback (fuel : nat) (texts target_lang : pystr)
  : M Result :=
  try_except
    (result <- google_trans fuel texts target_lang ;;
     lift (sentences_block result))
    (fun e => ret (dict_error (str "Google: " ++ repr e))).

(** [translate_with_providers(texts, actress, field_name, target_lang)], with
    [cfg] for [Cfg().translator]; [field_name] is not used by the body and is
    left out. *)
Definition translate_with_providers (fuel : nat) (cfg : Translator)
    (texts : pystr) (actress : option (list pystr)) (target_lang : pystr)
  : M Result :=
  let actress := get_default actress [] in
  returned <-
    match providers cfg with
    | [] => ret None
    | _ :: _ =>
        r <- providers_loop texts actress target_lang (providers cfg) [] ;;
        match r with
        | inl result => ret (Some result)
        | inr errors =>
            warning (str "所有 OpenAI 兼容服务均失败: "
                     ++ join (str "; ") errors) ;;
            ret None
        end
    end ;;
  match returned with
  | Some result => ret result
  | None => google_fallback fuel texts target_lang
  end.

(** A [str] attribute that is neither [None] nor empty. *)
Definition truthy (s : option pystr) : bool :=
  match s with
  | Some (_ :: _) => true
  | _ => false
  end.

Context {L : LangDetect}.

(** The title block of [translate_movie_info]. *)
Definition translate_title (fuel : nat) (cfg : Translator)
    (info : MovieInfo) : M MovieInfo :=
  let target_lang := target_language cfg in
  let auto_detect := auto_detect_language cfg in
  if truthy (title info) && field_title (fields cfg)
     && negb (is_some (ori_title info))
  then
    let info_title := get_default (title info) [] in
    if auto_detect && should_skip_translation info_title target_lang
    then ret info
    else
      result <- translate_with_providers fuel cfg info_title
                  (actress info) target_lang ;;
      match k_trans result with
      | Some trans =>
          ret {| title := Some trans;
                 plot := plot info;
                 actress := actress info;
                 ori_title := title info;
                 ori_title_break :=
                   match k_orig_break result with
                   | Some b => Some b
                   | None => ori_title_break info
                   end;
                 title_break :=
                   match k_trans_break result with
                   | Some b => Some b
                   | None => title_break info
                   end;
                 ori_plot := ori_plot info |}
      | None =>
          let error_msg := get_default (k_error result)
                                       (str "Unknown error") in
          (if title_mandatory cfg
           then warning (str "标题翻译失败但继续处理: " ++ error_msg)
           else ret tt) ;;
          ret info
      end
  else ret info.

(** The plot block of [translate_movie_info]. *)
Definition translate_plot (fuel : nat) (cfg : Translator)
    (info : MovieInfo) : M MovieInfo :=
  let target_lang := target_language cfg in
  let auto_detect := auto_detect_language cfg in
  if truthy (plot info) && field_plot (fields cfg)
  then
    let info_plot := get_default (plot info) [] in
    if auto_detect && should_skip_translation info_plot target_lang
    then ret info
    else
      result <- translate_with_providers fuel cfg info_plot
                  (actress info) target_lang ;;
      match k_trans result with
      | Some trans =>
          ret {| title := title info;
                 plot := Some trans;
                 actress := actress info;
                 ori_title := ori_title info;
                 ori_title_break := ori_title_break info;
                 title_break := title_break info;
                 ori_plot := plot info |}
      | None => ret info
      end
  else ret info.

(** [translate_movie_info(info)]: the updated [info] and the value
    returned. *)
Definition translate_movie_info (fuel : nat) (cfg : Translator)
    (info : MovieInfo) : M (bool * MovieInfo) :=
  info <- translate_title fuel cfg info ;;
  info <- translate_plot fuel cfg info ;;
  ret (true, info).

End Translate.

(* ================================================================== *)
(** ** translate.py: the self-test *)

(** An entry of the list returned by [test_translation_providers]:
    [{'provider': .., 'status': .., 'translation': ..}] or
    [{'provider': .., 'status': .., 'error': ..}]. *)
Record TestResult : Type := {
  t_provider : pystr;
  t_status : pystr;
  t_translation : option pystr;
  t_error : option pystr
}.

Definition test_success (provider translation : pystr) : TestResult :=
  {| t_provider := provider; t_status := str "success";
     t_translation := Some translation; t_error := None |}.

Definition test_failed (provider error : pystr) : TestResult :=
  {| t_provider := provider; t_status := str "failed";
     t_translation := None; t_error := Some error |}.

Definition test_text : pystr := str "こんにちは".

(** [f"{result.get('error_code')}"] *)
Definition format_code (code : option Z) : pystr :=
  match code with
  | Some z => str_of_int z
  | None => str "None"
  end.

(** [f"{result.get('error_msg')}"] *)
Definition format_msg (msg : option pystr) : pystr :=
  get_default msg (str "None").

(** [provider.name or f"{provider.model}@{provider.base_url}"] *)
Definition test_provider_name (provider : OpenAICompatibleProvider)
  : pystr :=
  match name provider with
  | [] => model provider ++ str "@" ++ base_url provider
  | _ :: _ => name provider
  end.

(** [''.join([i['trans'] for i in result['sentences']])] *)
Definition join_trans (result : Val) : exn + pystr :=
  and_then (py_getitem result (str "sentences")) (fun sentences =>
  and_then (py_iter sentences) (fun items =>
  and_then (getitem_each items (str "trans")) (fun trans_break =>
  py_join_empty trans_break))).

Section SelfTest.
Context {E : Env}.

(** The provider loop of [test_translation_providers]; [logger.info], like
    [print], is not recorded. *)
Fixpoint test_providers_loop (target_lang : pystr)
    (providers : list OpenAICompatibleProvider) (results : list TestResult)
  : M (list TestResult) :=
  match providers with
  | [] => ret results
  | provider :: rest =>
      let provider_name := test_provider_name provider in
      result <- translate_with_openai_compatible test_text provider
                  (Some []) target_lang ;;
      match k_trans result with
      | Some trans =>
          test_providers_loop target_lang rest
            (results ++ [test_success provider_name trans])
      | None =>
          let results :=
            results
            ++ [test_failed provider_name
                  (format_code (k_error_code result) ++ str ": "
                   ++ format_msg (k_error_msg result))] in
          warning (str "✗ " ++ provider_name ++ str " 测试失败: "
                   ++ format_msg (k_error_msg result)) ;;
          test_providers_loop target_lang rest results
      end
  end.

(** The Google block of [test_translation_providers]. *)
Definition test_google (fuel : nat) (target_lang : pystr)
    (results : list TestResult) : M (list TestResult) :=
  try_except
    (result <- google_trans fuel test_text target_lang ;;
     has_sentences <- lift (py_contains result (str "sentences")) ;;
     if (has_sentences : bool) then
       trans <- lift (join_trans result) ;;
       ret (results ++ [test_success (str "Google") trans])
     else
       let results :=
         results
         ++ [test_failed (str "Google") (str "No sentences in response")] in
       warning (str "✗ Google 测试失败") ;;
       ret results)
    (fun e =>
       let results := results ++ [test_failed (str "Google") (repr e)] in
       warning (str "✗ Google 测试失败: " ++ repr e) ;;
       ret results).

(** [test_translation_providers()], with [cfg] for [Cfg().translator]. *)
Definition test_translation_providers (fuel : nat) (cfg : Translator)
  : M (list TestResult) :=
  let target_lang := target_language cfg in
  results <-
    match providers cfg with
    | [] => ret []
    | _ :: _ => test_providers_loop target_lang (providers cfg) []
    end ;;
  test_google fuel target_lang results.

End SelfTest.

(* ================================================================== *)
(** ** config.py: environment variables and crawler selection *)

(** [[A-Z_]] *)
Definition is_var_start (c : char) : bool :=
  ((65 <=? c) && (c <=? 90) || (c =? 95))%N.

(** [[A-Z0-9_]] *)
Definition is_var_char (c : char) : bool :=
  is_var_start c || ((48 <=? c) && (c <=? 57))%N.

(** The longest run of [[A-Z0-9_]] at the head of [s], and what follows. *)
Fixpoint var_run (s : pystr) : pystr * pystr :=
  match s with
  | [] => ([], [])
  | c :: s' =>
      if is_var_char c
      then let (run, rest) := var_run s' in (c :: run, rest)
      else ([], s)
  end.

(** A match of the pattern of [substitute_env_vars] at the head of [s]: a
    dollar sign, an opening brace, the group 1 made of one character of
    [[A-Z_]] and the longest run of [[A-Z0-9_]], and a closing brace; the
    result is group 1.  The greedy run cannot be shortened, since what
    follows a shorter run is a character of the run and not the brace. *)
Definition match_var (s : pystr) : option pystr :=
  match s with
  | c0 :: c1 :: c :: s' =>
      if ((c0 =? 36) && (c1 =? 123))%N && is_var_start c
      then
        let (run, rest) := var_run s' in
        match rest with
        | d :: _ => if (d =? 125)%N then Some (c :: run) else None
        | [] => None
        end
      else None
  | _ => None
  end.

(** [match.group(0)] for the variable [var_name]. *)
Definition group0 (var_name : pystr) : pystr :=
  str "${" ++ var_name ++ str "}".

(** [replace_var(match)], with [environ_get] for [os.environ.get]. *)
Definition replace_var (environ_get : pystr -> option pystr)
    (var_name : pystr) : pystr :=
  get_default (environ_get var_name) (group0 var_name).

(** The scan of [re.sub(pattern, replace_var, content)]: matches are taken
    leftmost first and do not overlap; [skip] counts the characters of a
    match that are still to be consumed. *)
Fixpoint sub_scan (environ_get : pystr -> option pystr) (skip : nat)
    (s : pystr) : pystr :=
  match s with
  | [] => []
  | c :: s' =>
      match skip with
      | S k => sub_scan environ_get k s'
      | O =>
          match match_var s with
          | Some var_name =>
              replace_var environ_get var_name
              ++ sub_scan environ_get (length var_name + 2) s'
          | None => c :: sub_scan environ_get 0 s'
          end
      end
  end.

Definition substitute_env_vars (environ_get : pystr -> option pystr)
    (content : pystr) : pystr :=
  sub_scan environ_get 0 content.

Module CrawlerID.
Inductive t : Type :=
| airav | avsox | avwiki | dl_getchu | fanza | fc2 | fc2fan | fc2ppvdb
| gyutto | jav321 | javbus | javdb | javlib | javmenu | mgstage | njav
| prestige | arzon | arzon_iv.
End CrawlerID.

Record CrawlerSelect : Type := {
  normal : list CrawlerID.t;
  fc2 : list CrawlerID.t;
  cid : list CrawlerID.t;
  getchu : list CrawlerID.t;
  gyutto : list CrawlerID.t
}.

(** [CrawlerSelect.items(self)] *)
Definition CrawlerSelect_items (self : CrawlerSelect)
  : list (pystr * list CrawlerID.t) :=
  [ (str "normal", normal self);
    (str "fc2", fc2 self);
    (str "cid", cid self);
    (str "getchu", getchu self);
    (str "gyutto", gyutto self) ].

(** [CrawlerSelect.__getitem__(self, index)] for a [str] index. *)
Definition CrawlerSelect_getitem (self : CrawlerSelect) (index : pystr)
  : exn + list CrawlerID.t :=
  if pystr_eqb index (str "normal") then inr (normal self)
  else if pystr_eqb index (str "fc2") then inr (fc2 self)
  else if pystr_eqb index (str "cid") then inr (cid self)
  else if pystr_eqb index (str "getchu") then inr (getchu self)
  else if pystr_eqb index (str "gyutto") then inr (gyutto self)
  else inl (OtherError (str "Unknown crawler type")).

(* ================================================================== *)
(** ** A scripted world, to run the model on concrete inputs *)

(** The answers the outside world will give, in order. *)
Record Script : Type := {
  openai_installed : bool;
  chat_answers : list (exn + list (option pystr));
  http_answers : list (exn + Response)
}.

Definition script_repr (e : exn) : pystr :=
  match e with
  | KeyError k => str "KeyError('" ++ k ++ str "')"
  | TypeError => str "TypeError()"
  | AttributeError => str "AttributeError()"
  | TransportError cause => cause
  | OtherError cause => cause
  end.

#[export] Instance script_env : Env := {|
  World := Script;
  import_openai := openai_installed;
  OpenAI := fun _ _ => None;
  chat_completions_create := fun _ _ _ w =>
    match chat_answers w with
    | [] => (inl (TransportError (str "ConnectionError()")), w)
    | a :: rest =>
        (a, {| openai_installed := openai_installed w;
               chat_answers := rest;
               http_answers := http_answers w |})
    end;
  requests_get := fun _ w =>
    match http_answers w with
    | [] => (inl (TransportError (str "ConnectionError()")), w)
    | a :: rest =>
        (a, {| openai_installed := openai_installed w;
               chat_answers := chat_answers w;
               http_answers := rest |})
    end;
  random_randint := fun a _ w => (a, w);
  time_sleep := fun _ w => w;
  repr := script_repr;
  repr_container := fun _ => str "{...}"
|}.

(** Modelled from the spec: the classifiers of javsp.func are not among the
    sources.  "Classified as Japanese script" is read as containing kana,
    "classified as Chinese script" as containing a CJK ideograph. *)
Definition has_kana (text : pystr) : bool :=
  existsb (fun c => (12352 <=? c) && (c <=? 12543))%N text.

Definition has_ideograph (text : pystr) : bool :=
  existsb (fun c => (19968 <=? c) && (c <=? 40959))%N text.

#[export] Instance script_detect : LangDetect := {|
  is_chinese := has_ideograph;
  is_japanese := has_kana
|}.

(** A provider, a response, and worlds used in the examples below. *)
Definition provider_a : OpenAICompatibleProvider :=
  {| base_url := str "https://a.example/v1"; api_key := str "ka";
     model := str "model-a"; name := str "A" |}.

Definition provider_b : OpenAICompatibleProvider :=
  {| base_url := str "https://b.example/v1"; api_key := str "kb";
     model := str "model-b"; name := [] |}.

Definition response_429 : Response :=
  {| status_code := 429; reason := str "Too Many Requests";
     json := inl (OtherError (str "JSONDecodeError()")) |}.

Definition response_500 : Response :=
  {| status_code := 500; reason := str "Internal Server Error";
     json := inl (OtherError (str "JSONDecodeError()")) |}.

Definition sentence (orig trans : pystr) : Val :=
  VDict [(str "trans", VStr trans); (str "orig", VStr orig)].

Definition response_ok (v : Val) : Response :=
  {| status_code := 200; reason := str "OK"; json := inr v |}.

Definition script (installed : bool)
    (chat : list (exn + list (option pystr)))
    (http : list (exn + Response)) : State :=
  initial_state (E := script_env)
    {| openai_installed := installed; chat_answers := chat;
       http_answers := http |}.

(** What the endpoint answers for "こんにちは". *)
Definition greeting : Val :=
  VDict [(str "sentences", VList [sentence (str "こんにちは") (str "你好")]);
         (str "src", VStr (str "ja"))].

(** No OpenAI package; the endpoint throttles three times, then answers. *)
Definition three_throttles : State :=
  script false []
    [inr response_429; inr response_429; inr response_429;
     inr (response_ok greeting)].



(** No OpenAI package and a fallback endpoint that answers 500. *)
Definition all_fail : State := script false [] [inr response_500].

(** A response with a sentence that has no ['trans'] entry. *)
Definition malformed : Val :=
  VDict [(str "sentences", VList [VDict [(str "orig", VStr (str "a"))]])].

(** One provider with an empty answer, then a fallback that answers. *)
Definition provider_then_fallback : State :=
  script true [inr []] [inr (response_ok greeting)].

(** The metadata after "こんにちは" was translated to "你好". *)
Definition translated_movie : MovieInfo :=
  {| title := Some (str "你好"); plot := None; actress := Some [];
     ori_title := Some (str "こんにちは");
     ori_title_break := Some [VStr (str "こんにちは")];
     title_break := Some [VStr (str "你好")];
     ori_plot := None |}.

(** Two performers and a title that names both. *)
Definition two_names : list pystr := [str "波多野結衣"; str "三上"].

Definition title_with_names : pystr := str "波多野結衣と三上の新作".

Definition config (ps : list OpenAICompatibleProvider) (mandatory : bool)
  : Translator :=
  {| providers := ps;
     fields := {| field_title := true; field_plot := true |};
     target_language := str "zh_CN";
     title_mandatory := mandatory;
     auto_detect_language := true |}.

Definition movie (t : pystr) (names : list pystr) : MovieInfo :=
  {| title := Some t; plot := None; actress := Some names;
     ori_title := None; ori_title_break := None; title_break := None;
     ori_plot := None |}.

(* ================================================================== *)
(** ** Vocabulary of the properties *)

Arguments str : simpl never.
Arguments str_of_int : simpl never.
#[local] Arguments Z.add : simpl never.
#[local] Arguments Z.sub : simpl never.
#[local] Arguments Z.mul : simpl never.
#[local] Arguments Z.max : simpl never.
#[local] Arguments Z.of_nat : simpl never.

Section Vocabulary.
Context {E : Env}.

(** The state an outcome ends in, unless the run diverges. *)
Definition final {A} (o : Outcome A) : option State :=
  match o with
  | Ret _ st => Some st
  | Raise _ st => Some st
  | Diverge => None
  end.

(** Number of HTTP requests among the events. *)
Fixpoint count_gets (evs : list Event) : nat :=
  match evs with
  | [] => O
  | EvGet _ :: r => S (count_gets r)
  | _ :: r => count_gets r
  end.

(** Number of HTTP requests sent between two states. *)
Definition gets_between (st st' : State) : Z :=
  Z.of_nat (count_gets (events st')) - Z.of_nat (count_gets (events st)).

(** The requests sent to the compatible providers, in order. *)
Fixpoint chats (evs : list Event) : list OpenAICompatibleProvider :=
  match evs with
  | [] => []
  | EvChat p _ _ :: r => p :: chats r
  | _ :: r => chats r
  end.

(** Every event a computation adds satisfies [Q] (and it removes none). *)
Definition only (Q : Event -> Prop) {A} (c : M A) : Prop :=
  forall st st',
    final (c st) = Some st' ->
    exists evs, events st' = events st ++ evs /\ Forall Q evs.

Definition is_chat (ev : Event) : Prop :=
  match ev with
  | EvChat _ _ _ => True
  | _ => False
  end.

(** Requests to the fallback endpoint go to [url]; no chat request. *)
Definition is_fallback (url : pystr) (ev : Event) : Prop :=
  match ev with
  | EvChat _ _ _ => False
  | EvGet u => u = url
  | _ => True
  end.

(** Any request to the fallback endpoint goes to [url]. *)
Definition gets_url (url : pystr) (ev : Event) : Prop :=
  match ev with
  | EvGet u => u = url
  | _ => True
  end.

(** The entry appended to [errors] for a failed provider. *)
Definition error_entry (provider : OpenAICompatibleProvider)
    (result : Result) : pystr :=
  provider_name provider ++ str ": "
  ++ get_default (k_error_msg result) (str "Unknown error").

(** The providers [ps] are tried one after the other from [st] and each
    fails, with results [rs], leaving the state [st']. *)
Inductive providers_fail (texts : pystr) (actress : list pystr)
    (target_lang : pystr)
  : list OpenAICompatibleProvider -> State -> list Result -> State -> Prop :=
| fail_nil st : providers_fail texts actress target_lang [] st [] st
| fail_cons p ps st r st1 rs st2 :
    translate_with_openai_compatible texts p (Some actress) target_lang st
    = Ret r st1 ->
    k_trans r = None ->
    providers_fail texts actress target_lang ps st1 rs st2 ->
    providers_fail texts actress target_lang (p :: ps) st (r :: rs) st2.

(** [errors] after the providers [ps] failed with results [rs]. *)
Fixpoint error_entries (ps : list OpenAICompatibleProvider)
    (rs : list Result) : list pystr :=
  match ps, rs with
  | p :: ps', r :: rs' => error_entry p r :: error_entries ps' rs'
  | _, _ => []
  end.

(** The warning logged once every provider of a non-empty list failed. *)
Definition all_failed_warning (ps : list OpenAICompatibleProvider)
    (rs : list Result) : Event :=
  EvWarning (str "所有 OpenAI 兼容服务均失败: "
             ++ join (str "; ") (error_entries ps rs)).

(** The state the fallback starts from when the providers [ps] failed. *)
Definition after_providers (ps : list OpenAICompatibleProvider)
    (rs : list Result) (st1 : State) : State :=
  match ps with
  | [] => st1
  | _ :: _ => emit (world st1) (all_failed_warning ps rs) st1
  end.

(** What the fallback block returns for the outcome of [google_trans]. *)
Definition fallback_outcome (x : exn + Val) : Result :=
  match x with
  | inl e => dict_error (str "Google: " ++ repr e)
  | inr v =>
      match sentences_block v with
      | inl e => dict_error (str "Google: " ++ repr e)
      | inr r => r
      end
  end.

(** [item] is a dict and [item[k]] is [x]. *)
Definition has_item (k : pystr) (item x : Val) : Prop :=
  exists kvs, item = VDict kvs /\ dict_get k kvs = Some x.

(** [v] is a dict whose ['sentences'] entry iterates over dicts that have
    the ['orig'] entries [origs] and the [str] ['trans'] entries [transs]. *)
Definition sentence_list (v : Val) (origs : list Val)
    (transs : list pystr) : Prop :=
  exists kvs sentences items,
    v = VDict kvs
    /\ dict_get (str "sentences") kvs = Some sentences
    /\ py_iter sentences = inr items
    /\ Forall2 (has_item (str "orig")) items origs
    /\ Forall2 (has_item (str "trans")) items (map VStr transs).

(** The scan of [s.replace(old, new)] from the start of [s]. *)
Definition scan (old new s : pystr) : pystr := replace_scan old new 0 s.

(** No non-empty tail of [w] shares a string extension with [new]. *)
Definition clash_free (new w : pystr) : Prop :=
  forall w1 w2 rn rw,
    w = w1 ++ w2 -> w2 <> [] -> new ++ rn <> w2 ++ rw.

(** The characters of the frame of a token. *)
Definition frame : pystr := str "[ACTRESS:]".

(** A name that is not empty and has no character of the frame. *)
Definition name_ok (e : pystr) : Prop :=
  e <> [] /\ forall c, In c e -> ~ In c frame.

(** Two names that are equal, or neither of which occurs in the other. *)
Definition independent (a b : pystr) : Prop :=
  a = b \/ (occurs a b = false /\ occurs b a = false).

Definition names_ok (actress : list pystr) : Prop :=
  (forall e, In e actress -> name_ok e)
  /\ (forall a b, In a actress -> In b actress -> independent a b).

(** One completed call of [google_trans] leads from [st] to [st']. *)
Definition google_trans_call (st st' : State) : Prop :=
  exists fuel texts to, final (google_trans fuel texts to st) = Some st'.

(** Any sequence of completed calls of [google_trans]. *)
Inductive google_trans_calls : State -> State -> Prop :=
| calls_nil st : google_trans_calls st st
| calls_cons st st1 st2 :
    google_trans_call st st1 -> google_trans_calls st1 st2 ->
    google_trans_calls st st2.

End Vocabulary.

(* ================================================================== *)
(** ** Vocabulary of the properties of the self-test, the orchestrator
       and the configuration *)

(** A name the pattern of [substitute_env_vars] accepts:
    an upper-case letter or underscore, then upper-case letters, digits and
    underscores. *)
Definition valid_var_name (n : pystr) : bool :=
  match n with
  | [] => false
  | c :: r => is_var_start c && forallb is_var_char r
  end.

Section Reports.
Context {E : Env} {L : LangDetect}.

(** The entry the self-test appends for a provider. *)
Definition test_entry (provider : OpenAICompatibleProvider)
    (entry : TestResult) : Prop :=
  (exists t, entry = test_success (test_provider_name provider) t)
  \/ (exists c m,
         In c [-10; -11; -12]%Z
         /\ entry = test_failed (test_provider_name provider)
                      (str_of_int c ++ str ": " ++ m)).

(** The entry the self-test appends for the outcome of [google_trans]. *)
Definition google_entry (x : exn + Val) : TestResult :=
  match x with
  | inl e => test_failed (str "Google") (repr e)
  | inr v =>
      match py_contains v (str "sentences") with
      | inl e => test_failed (str "Google") (repr e)
      | inr true =>
          match join_trans v with
          | inl e => test_failed (str "Google") (repr e)
          | inr t => test_success (str "Google") t
          end
      | inr false =>
          test_failed (str "Google") (str "No sentences in response")
      end
  end.

(** The requests of the self-test: a chat request goes to a configured
    provider with the test text as it is, a request to the fallback endpoint
    asks for the test text. *)
Definition is_test_event (cfg : Translator) (ev : Event) : Prop :=
  match ev with
  | EvChat p system user =>
      In p (providers cfg)
      /\ system = system_content (target_language cfg)
      /\ user = test_text
  | EvGet u => u = google_trans_url test_text (target_language cfg)
  | _ => True
  end.

(** The title block of [translate_movie_info] runs the chain. *)
Definition title_attempted (cfg : Translator) (info : MovieInfo) : bool :=
  truthy (title info) && field_title (fields cfg)
  && negb (is_some (ori_title info))
  && negb (auto_detect_language cfg
           && should_skip_translation (get_default (title info) [])
                (target_language cfg)).

(** The plot block of [translate_movie_info] runs the chain. *)
Definition plot_attempted (cfg : Translator) (info : MovieInfo) : bool :=
  truthy (plot info) && field_plot (fields cfg)
  && negb (auto_detect_language cfg
           && should_skip_translation (get_default (plot info) [])
                (target_language cfg)).

(** A request to a provider or to the fallback endpoint. *)
Definition is_request (ev : Event) : Prop :=
  match ev with
  | EvChat _ _ _ | EvGet _ => True
  | _ => False
  end.


(** The events of the retries of [google_trans]: a warning, a sleep of at
    least [lo] seconds and a request to [url], any number of times. *)
Inductive retry_trace (url : pystr) (lo : Z) : list Event -> Prop :=
| retry_nil : retry_trace url lo []
| retry_cons msg secs evs :
    (lo <= secs)%Z ->
    retry_trace url lo evs ->
    retry_trace url lo (EvWarning msg :: EvSleep secs :: EvGet url :: evs).

End Reports.

(** The fallback endpoint never answers 429. *)
Definition never_throttled (E : Env) : Prop :=
  forall url w r w',
    requests_get url w = (inr r, w') -> status_code r <> 429%Z.

(** *** Further worlds and inputs of the examples *)

(** A world without the OpenAI package whose endpoint always answers with
    the translation of "こんにちは". *)
Definition calm_env : Env := {|
  World := unit;
  import_openai := fun _ => false;
  OpenAI := fun _ _ => None;
  chat_completions_create := fun _ _ _ w =>
    (inl (TransportError (str "ConnectionError()")), w);
  requests_get := fun _ w => (inr (response_ok greeting), w);
  random_randint := fun a _ w => (a, w);
  time_sleep := fun _ w => w;
  repr := script_repr;
  repr_container := fun _ => str "{...}"
|}.

(** What the endpoint answers for "你好". *)
Definition greeting_again : Val :=
  VDict [(str "sentences", VList [sentence (str "你好") (str "您好")])].

(** No provider and no detection of the language of the text. *)
Definition plain_config : Translator :=
  {| providers := [];
     fields := {| field_title := true; field_plot := true |};
     target_language := str "zh_CN";
     title_mandatory := true;
     auto_detect_language := false |}.

(** Metadata with a plot only. *)
Definition plot_movie : MovieInfo :=
  {| title := None; plot := Some (str "こんにちは"); actress := None;
     ori_title := None; ori_title_break := None; title_break := None;
     ori_plot := None |}.

(** [os.environ.get] for an environment with two variables. *)
Definition environ (var_name : pystr) : option pystr :=
  if pystr_eqb var_name (str "API_KEY") then Some (str "sk-${HOME}")
  else if pystr_eqb var_name (str "HOME") then Some (str "/root")
  else None.

(** A crawler selection. *)
Definition selection : CrawlerSelect :=
  {| normal := [CrawlerID.javbus; CrawlerID.javdb];
     fc2 := [CrawlerID.fc2; CrawlerID.fc2fan];
     cid := [CrawlerID.fanza];
     getchu := [CrawlerID.dl_getchu];
     gyutto := [CrawlerID.gyutto] |}.

(* ================================================================== *)
(** ** Vocabulary of the round trip of the entity protection *)

(** A text in which some stretches have been replaced by tokens: the
    characters left as they were, and the names put in a token. *)
Inductive seg : Type :=
| Lit (c : char)
| Tok (e : pystr).

(** The text as the provider sees it, tokens written out. *)
Definition flatten (segs : list seg) : pystr :=
  flat_map (fun s => match s with Lit c => [c] | Tok e => token e end) segs.

(** The text with every token replaced by its name. *)
Definition erase (segs : list seg) : pystr :=
  flat_map (fun s => match s with Lit c => [c] | Tok e => e end) segs.

(** [segs] starts with the characters of [e], none of them in a token. *)
Fixpoint starts_lit (segs : list seg) (e : pystr) {struct e} : bool :=
  match e with
  | [] => true
  | a :: e' =>
      match segs with
      | Lit c :: r => (a =? c)%N && starts_lit r e'
      | _ => false
      end
  end.

(** The protection of [e] on a segmented text: the scan of [str.replace]
    over the characters outside tokens. *)
Fixpoint wrap_scan (e : pystr) (skip : nat) (segs : list seg) : list seg :=
  match segs with
  | [] => []
  | s :: segs' =>
      match skip with
      | S k => wrap_scan e k segs'
      | O =>
          if starts_lit segs e
          then Tok e :: wrap_scan e (length e - 1) segs'
          else s :: wrap_scan e 0 segs'
      end
  end.

Definition wrap (e : pystr) (segs : list seg) : list seg := wrap_scan e 0 segs.

(** The restoration of [e] on a segmented text. *)
Definition unwrap (e : pystr) (segs : list seg) : list seg :=
  flat_map (fun s => match s with
                     | Tok d => if list_eq_dec N.eq_dec d e
                                then map Lit e else [s]
                     | Lit _ => [s]
                     end) segs.

Definition wraps (names : list pystr) (segs : list seg) : list seg :=
  fold_left (fun segs e => wrap e segs) names segs.

Definition unwraps (names : list pystr) (segs : list seg) : list seg :=
  fold_left (fun segs e => unwrap e segs) names segs.

(** No stretch of [segs] outside tokens spells [w]. *)
Definition no_window (w : pystr) (segs : list seg) : Prop :=
  forall l r, segs <> l ++ map Lit w ++ r.

(** A name that is not empty and has no square bracket. *)
Definition plain_name (e : pystr) : Prop :=
  e <> [] /\ ~ In 91%N e /\ ~ In 93%N e.

(** No name occurs in the token of a name before it in the list. *)
Fixpoint later_outside (names : list pystr) : Prop :=
  match names with
  | [] => True
  | e :: es =>
      (forall b, In b es -> occurs b (token e) = false) /\ later_outside es
  end.

(** No name occurs in the token of a name after it in the list. *)
Fixpoint earlier_outside (names : list pystr) : Prop :=
  match names with
  | [] => True
  | e :: es =>
      (forall b, In b es -> occurs e (token b) = false) /\ earlier_outside es
  end.

(* ---------- lemmas ---------- *)

(* ================================================================== *)
(** ** The console and the import of the client library *)

(** What the module does besides the calls of [Env].  [print] writes to
    [sys.stdout] and raises when the stream refuses the text (an encoding
    that lacks a character of it, a closed stream).  The import of the
    client library ends with [ImportError] ([import_openai]), or with
    whatever the library raises while it is loaded. *)
Class Platform (E : Env) : Type := {
  (** [print(text, end=end_, ...)]: [Some e] when it raises *)
  console_print : pystr -> pystr -> World -> option exn * World;
  (** [from openai import OpenAI]: [Some e] when it raises an exception
      that is not an [ImportError] *)
  import_raises : World -> option exn
}.

(** [print] never raises. *)
Definition console_ok {E : Env} (P : Platform E) : Prop :=
  forall text end_ w, fst (console_print text end_ w) = None.

(** The import raises nothing but [ImportError]. *)
Definition import_clean {E : Env} (P : Platform E) : Prop :=
  forall w, import_raises w = None.

(** [translate.py] with its console output and the import as they are
    written.  [google_trans] prints nothing and imports nothing: it is the
    function above. *)
Module Io.

Section Chain.
Context {E : Env} {P : Platform E}.

Definition print (text end_ : pystr) : M unit :=
  fun st =>
    let (r, w) := console_print text end_ (world st) in
    let st' := {| world := w; _google_trans_wait := _google_trans_wait st;
                  events := events st |} in
    match r with
    | Some e => Raise e st'
    | None => Ret tt st'
    end.

(** The default [end] of [print]. *)
Definition newline : pystr := [10%N].

(** [from openai import OpenAI] inside [try ... except ImportError]: [false]
    when the handler is entered. *)
Definition import_OpenAI : M bool :=
  fun st =>
    match import_raises (world st) with
    | Some e => Raise e st
    | None => Ret (import_openai (world st)) st
    end.

Definition translate_with_openai_compatible (texts : pystr)
    (provider : OpenAICompatibleProvider) (actress : option (list pystr))
    (target_lang : pystr) : M Result :=
  imported <- import_OpenAI ;;
  if negb imported
  then ret (dict_error_code (-10) (str "openai package not installed"))
  else
    let actress := get_default actress [] in
    try_except
      (new_client provider ;;
       let protected_text := protect actress texts in
       response <- create provider (system_content target_lang)
                          protected_text ;;
       match response with
       | [] | None :: _ | Some [] :: _ =>
           ret (dict_error_code (-12) (str "Empty response from API"))
       | Some content :: _ =>
           let translated := strip content in
           let translated := restore actress translated in
           ret (dict_trans translated)
       end)
      (fun e => ret (dict_error_code (-11) (repr e))).

(** [error_msg[:50] + '...' if len(error_msg) > 50 else error_msg] *)
Definition short_error (error_msg : pystr) : pystr :=
  if (50 <? length error_msg)%nat
  then firstn 50 error_msg ++ str "..."
  else error_msg.

(** The [for idx, provider in enumerate(providers)] loop, from the provider
    of index [idx] on; [total] is [len(providers)]. *)
Fixpoint providers_loop (texts : pystr) (actress : list pystr)
    (target_lang : pystr) (total idx : nat)
    (providers : list OpenAICompatibleProvider) (errors : list pystr)
  : M (Result + list pystr) :=
  match providers with
  | [] => ret (inr errors)
  | provider :: rest =>
      let provider_name := provider_name provider in
      print (str "     [" ++ str_of_int (Z.of_nat idx + 1) ++ str "/"
             ++ str_of_int (Z.of_nat total) ++ str "] 尝试 "
             ++ provider_name ++ str "...") [] ;;
      result <- translate_with_openai_compatible texts provider
                  (Some actress) target_lang ;;
      if is_some (k_trans result)
      then
        let result := set_provider result provider_name in
        print (str " ✓") newline ;;
        ret (inl result)
      else
        let error_msg := get_default (k_error_msg result)
                                     (str "Unknown error") in
        print (str " ✗ " ++ short_error error_msg) newline ;;
        providers_loop texts actress target_lang total (S idx) rest
          (errors ++ [provider_name ++ str ": " ++ error_msg])
  end.

(** What the fallback block prints before it returns the dict [r]: the
    success mark with a translation, the error message without. *)
Definition fallback_mark (r : Result) : pystr :=
  match k_error r with
  | Some error_msg => str " ✗ " ++ error_msg
  | None => str " ✓"
  end.

(** The fallback block of [translate_with_providers]: the [print] of each
    branch of the [try] body is inside it, so that an exception of that
    [print] is caught like any other; the [print] of the handler is not. *)
Definition google_fallback (fuel : nat) (texts target_lang : pystr)
  : M Result :=
  try_except
    (result <- google_trans fuel texts target_lang ;;
     r <- lift (sentences_block result) ;;
     print (fallback_mark r) newline ;;
     ret r)
    (fun e =>
       let error_msg := repr e in
       print (str " ✗ " ++ error_msg) newline ;;
       ret (dict_error (str "Google: " ++ error_msg))).

Definition translate_with_providers (fuel : nat) (cfg : Translator)
    (texts : pystr) (actress : option (list pystr)) (target_lang : pystr)
  : M Result :=
  let actress := get_default actress [] in
  returned <-
    match providers cfg with
    | [] => ret None
    | _ :: _ =>
        r <- providers_loop texts actress target_lang
               (length (providers cfg)) 0 (providers cfg) [] ;;
        match r with
        | inl result => ret (Some result)
        | inr errors =>
            warning (str "所有 OpenAI 兼容服务均失败: "
                     ++ join (str "; ") errors) ;;
            ret None
        end
    end ;;
  match returned with
  | Some result => ret result
  | None =>
      print (str "     [fallback] 尝试 Google 翻译...") [] ;;
      google_fallback fuel texts target_lang
  end.

(** The provider loop of [test_translation_providers]; [logger.info] is not
    recorded. *)
Fixpoint test_providers_loop (target_lang : pystr)
    (providers : list OpenAICompatibleProvider) (results : list TestResult)
  : M (list TestResult) :=
  match providers with
  | [] => ret results
  | provider :: rest =>
      let provider_name := test_provider_name provider in
      result <- translate_with_openai_compatible test_text provider
                  (Some []) target_lang ;;
      match k_trans result with
      | Some trans =>
          test_providers_loop target_lang rest
            (results ++ [test_success provider_name trans])
      | None =>
          let results :=
            results
            ++ [test_failed provider_name
                  (format_code (k_error_code result) ++ str ": "
                   ++ format_msg (k_error_msg result))] in
          warning (str "✗ " ++ provider_name ++ str " 测试失败: "
                   ++ format_msg (k_error_msg result)) ;;
          test_providers_loop target_lang rest results
      end
  end.

Definition test_translation_providers (fuel : nat) (cfg : Translator)
  : M (list TestResult) :=
  let target_lang := target_language cfg in
  results <-
    match providers cfg with
    | [] => ret []
    | _ :: _ => test_providers_loop target_lang (providers cfg) []
    end ;;
  test_google fuel target_lang results.

End Chain.

(** *** [translate_movie_info] on the caller's object

    [info] belongs to the caller: the attributes assigned before an
    exception leaves the function stay assigned.  A function that works on
    [info] is therefore left with the attributes as they are then, whether
    it returns or raises. *)

Section Object.
Context {E : Env}.

Inductive Exit (A : Type) : Type :=
| Returned (a : A) (info : MovieInfo) (st : State)
| Raised (e : exn) (info : MovieInfo) (st : State)
| Diverged.
Arguments Returned {A} a info st.
Arguments Raised {A} e info st.
Arguments Diverged {A}.

Definition Obj (A : Type) : Type := MovieInfo -> State -> Exit A.

Definition obj_ret {A} (a : A) : Obj A := fun info st => Returned a info st.

Definition obj_bind {A B} (c : Obj A) (k : A -> Obj B) : Obj B :=
  fun info st =>
    match c info st with
    | Returned a info' st' => k a info' st'
    | Raised e info' st' => Raised e info' st'
    | Diverged => Diverged
    end.

(** A call that does not touch [info]. *)
Definition call {A} (c : M A) : Obj A :=
  fun info st =>
    match c st with
    | Ret a st' => Returned a info st'
    | Raise e st' => Raised e info st'
    | Diverge => Diverged
    end.

(** The attributes of [info] as they are now. *)
Definition attrs : Obj MovieInfo := fun info st => Returned info info st.

(** An assignment to an attribute of [info]. *)
Definition assign (f : MovieInfo -> MovieInfo) : Obj unit :=
  fun info st => Returned tt (f info) st.

(** The state a function on [info] is left in, unless it diverges. *)
Definition final {A} (x : Exit A) : option State :=
  match x with
  | Returned _ _ st => Some st
  | Raised _ _ st => Some st
  | Diverged => None
  end.

(** The attributes [info] is left with, unless the function diverges. *)
Definition info_of {A} (x : Exit A) : option MovieInfo :=
  match x with
  | Returned _ info _ => Some info
  | Raised _ info _ => Some info
  | Diverged => None
  end.

End Object.

Arguments Returned {E A} a info st.
Arguments Raised {E A} e info st.
Arguments Diverged {E A}.

(** [info.title = v], and likewise for the other attributes. *)
Definition set_title (v : option pystr) (info : MovieInfo) : MovieInfo :=
  {| title := v; plot := plot info; actress := actress info;
     ori_title := ori_title info; ori_title_break := ori_title_break info;
     title_break := title_break info; ori_plot := ori_plot info |}.

Definition set_ori_title (v : option pystr) (info : MovieInfo) : MovieInfo :=
  {| title := title info; plot := plot info; actress := actress info;
     ori_title := v; ori_title_break := ori_title_break info;
     title_break := title_break info; ori_plot := ori_plot info |}.

Definition set_ori_title_break (v : option (list Val)) (info : MovieInfo)
  : MovieInfo :=
  {| title := title info; plot := plot info; actress := actress info;
     ori_title := ori_title info; ori_title_break := v;
     title_break := title_break info; ori_plot := ori_plot info |}.

Definition set_title_break (v : option (list Val)) (info : MovieInfo)
  : MovieInfo :=
  {| title := title info; plot := plot info; actress := actress info;
     ori_title := ori_title info; ori_title_break := ori_title_break info;
     title_break := v; ori_plot := ori_plot info |}.

Definition set_plot (v : option pystr) (info : MovieInfo) : MovieInfo :=
  {| title := title info; plot := v; actress := actress info;
     ori_title := ori_title info; ori_title_break := ori_title_break info;
     title_break := title_break info; ori_plot := ori_plot info |}.

Definition set_ori_plot (v : option pystr) (info : MovieInfo) : MovieInfo :=
  {| title := title info; plot := plot info; actress := actress info;
     ori_title := ori_title info; ori_title_break := ori_title_break info;
     title_break := title_break info; ori_plot := v |}.

(** [plot[:60] + '...' if len(plot) > 60 else plot] *)
Definition plot_preview (plot : pystr) : pystr :=
  if (60 <? length plot)%nat then firstn 60 plot ++ str "..." else plot.

Declare Scope obj_scope.
Delimit Scope obj_scope with obj.
Notation "x <- c ;; k" := (obj_bind c (fun x => k))
  (at level 61, c at next level, right associativity) : obj_scope.
Notation "c ;; k" := (obj_bind c (fun _ => k))
  (at level 61, right associativity) : obj_scope.

Section Orchestrator.
Context {E : Env} {P : Platform E} {L : LangDetect}.
Local Open Scope obj_scope.

(** The title block of [translate_movie_info]. *)
Definition translate_title (fuel : nat) (cfg : Translator) : Obj unit :=
  let target_lang := target_language cfg in
  let auto_detect := auto_detect_language cfg in
  info <- attrs ;;
  if truthy (title info) && field_title (fields cfg)
     && negb (is_some (ori_title info))
  then
    let info_title := get_default (title info) [] in
    if auto_detect && should_skip_translation info_title target_lang
    then
      call (print (str "  ⊙ 标题已是" ++ target_lang ++ str "，跳过翻译")
              newline) ;;
      call (print (str "     原文: " ++ info_title) newline)
    else
      call (print (str "  → 原标题: " ++ info_title) newline) ;;
      result <- call (translate_with_providers fuel cfg info_title
                        (actress info) target_lang) ;;
      match k_trans result with
      | Some trans =>
          assign (set_ori_title (title info)) ;;
          assign (set_title (Some trans)) ;;
          match k_orig_break result with
          | Some orig_break => assign (set_ori_title_break (Some orig_break))
          | None => obj_ret tt
          end ;;
          match k_trans_break result with
          | Some trans_break => assign (set_title_break (Some trans_break))
          | None => obj_ret tt
          end ;;
          let provider_name :=
            get_default (k_provider result) (str "unknown") in
          call (print (str "  ✓ 译标题: " ++ trans ++ str " ("
                       ++ provider_name ++ str ")") newline)
      | None =>
          let error_msg := get_default (k_error result)
                                       (str "Unknown error") in
          call (print (str "  ✗ 标题翻译失败: " ++ error_msg) newline) ;;
          if title_mandatory cfg
          then call (warning (str "标题翻译失败但继续处理: " ++ error_msg))
          else obj_ret tt
      end
  else obj_ret tt.

(** The plot block of [translate_movie_info]. *)
Definition translate_plot (fuel : nat) (cfg : Translator) : Obj unit :=
  let target_lang := target_language cfg in
  let auto_detect := auto_detect_language cfg in
  info <- attrs ;;
  if truthy (plot info) && field_plot (fields cfg)
  then
    let info_plot := get_default (plot info) [] in
    if auto_detect && should_skip_translation info_plot target_lang
    then
      call (print (str "  ⊙ 简介已是" ++ target_lang ++ str "，跳过翻译")
              newline) ;;
      call (print (str "     原文: " ++ plot_preview info_plot) newline)
    else
      call (print (str "  → 原简介: " ++ plot_preview info_plot) newline) ;;
      result <- call (translate_with_providers fuel cfg info_plot
                        (actress info) target_lang) ;;
      match k_trans result with
      | Some trans =>
          assign (set_ori_plot (plot info)) ;;
          assign (set_plot (Some trans)) ;;
          let provider_name :=
            get_default (k_provider result) (str "unknown") in
          call (print (str "  ✓ 译简介: " ++ plot_preview trans ++ str " ("
                       ++ provider_name ++ str ")") newline)
      | None =>
          let error_msg := get_default (k_error result)
                                       (str "Unknown error") in
          call (print (str "  ⊙ 简介翻译失败，继续处理: " ++ error_msg)
                  newline)
      end
  else obj_ret tt.

(** [translate_movie_info(info)], with [cfg] for [Cfg().translator]. *)
Definition translate_movie_info (fuel : nat) (cfg : Translator) : Obj bool :=
  call (print [] newline) ;;
  translate_title fuel cfg ;;
  translate_plot fuel cfg ;;
  obj_ret true.

End Orchestrator.

End Io.

(* ================================================================== *)
(** ** Vocabulary of the properties of the console-aware functions *)

(** [l1] is [l2] with some of its elements left out. *)
Inductive subseq {A : Type} : list A -> list A -> Prop :=
| subseq_nil l : subseq [] l
| subseq_skip x l1 l2 : subseq l1 l2 -> subseq l1 (x :: l2)
| subseq_take x l1 l2 : subseq l1 l2 -> subseq (x :: l1) (x :: l2).

(** [info] once the title block has stored the translation [trans] of
    [result]. *)
Definition retitled (info : MovieInfo) (result : Result) (trans : pystr)
  : MovieInfo :=
  {| title := Some trans;
     plot := plot info;
     actress := actress info;
     ori_title := title info;
     ori_title_break :=
       match k_orig_break result with
       | Some b => Some b
       | None => ori_title_break info
       end;
     title_break :=
       match k_trans_break result with
       | Some b => Some b
       | None => title_break info
       end;
     ori_plot := ori_plot info |}.

(** [info] once the plot block has stored the translation [trans]. *)
Definition replotted (info : MovieInfo) (trans : pystr) : MovieInfo :=
  {| title := title info;
     plot := Some trans;
     actress := actress info;
     ori_title := ori_title info;
     ori_title_break := ori_title_break info;
     title_break := title_break info;
     ori_plot := plot info |}.

(** The entry the self-test appends for the result of a provider. *)
Definition provider_entry (provider : OpenAICompatibleProvider)
    (result : Result) : TestResult :=
  match k_trans result with
  | Some trans => test_success (test_provider_name provider) trans
  | None =>
      test_failed (test_provider_name provider)
        (format_code (k_error_code result) ++ str ": "
         ++ format_msg (k_error_msg result))
  end.

Section ConsoleVocabulary.
Context {E : Env} {P : Platform E}.

(** The state after the self-test has recorded the result of a provider:
    a failure is logged. *)
Definition recorded (provider : OpenAICompatibleProvider) (result : Result)
    (st : State) : State :=
  match k_trans result with
  | Some _ => st
  | None =>
      emit (world st)
        (EvWarning (str "✗ " ++ test_provider_name provider
                    ++ str " 测试失败: " ++ format_msg (k_error_msg result)))
        st
  end.

(** The self-test runs the client on the providers [ps] one after the
    other from [st], each call returning, and appends [entries]; it is then
    in [st']. *)
Inductive tested (target_lang : pystr)
  : list OpenAICompatibleProvider -> State -> list TestResult -> State
    -> Prop :=
| tested_nil st : tested target_lang [] st [] st
| tested_cons provider rest st result st1 entries st2 :
    Io.translate_with_openai_compatible test_text provider (Some [])
      target_lang st = Ret result st1 ->
    tested target_lang rest (recorded provider result st1) entries st2 ->
    tested target_lang (provider :: rest) st
      (provider_entry provider result :: entries) st2.

End ConsoleVocabulary.

(** A console that takes every text and leaves the world as it is. *)
Definition silent_console {E : Env} (P : Platform E) : Prop :=
  forall text end_ w, console_print text end_ w = (None, w).

(** *** Consoles of the examples *)

(** A console that takes every text, and an import that raises nothing but
    [ImportError]. *)
Definition plain_console : Platform script_env := {|
  console_print := fun _ _ w => (None, w);
  import_raises := fun _ => None
|}.



(** A client library that fails while it is loaded. *)
Definition broken_import : Platform script_env := {|
  console_print := fun _ _ w => (None, w);
  import_raises := fun _ =>
    Some (OtherError (str "RuntimeError('incompatible pydantic')"))
|}.

(** A console that takes every text, for the world of [calm_env]. *)
Definition calm_console : Platform calm_env := {|
  console_print := fun _ _ w => (None, w);
  import_raises := fun _ => None
|}.

(* ================================================================== *)
(** ** LanguageDetector: [should_skip_translation] *)

Section DetectorFacts.
Context {L : LangDetect}.

Lemma lstrip_nil_iff (s : pystr) :
  lstrip s = [] <-> forallb isspace s = true.
Proof.
  induction s as [|c s IH]; simpl.
  - tauto.
  - destruct (isspace c); simpl.
    + exact IH.
    + split; discriminate.
Qed.

Lemma lstrip_head (s : pystr) c r :
  lstrip s = c :: r -> isspace c = false.
Proof.
  induction s as [|d s IH]; simpl.
  - discriminate.
  - destruct (isspace d) eqn:Hd.
    + exact IH.
    + intros H. injection H as -> _. exact Hd.
Qed.

Lemma lstrip_snoc (l : pystr) c :
  isspace c = false -> lstrip (l ++ [c]) <> [].
Proof.
  intros Hc. induction l as [|d l IH]; simpl.
  - rewrite Hc. discriminate.
  - destruct (isspace d); [exact IH | discriminate].
Qed.

(** [text.strip()] is empty exactly when every character is white space. *)
Lemma strip_nil_iff (text : pystr) :
  strip text = [] <-> forallb isspace text = true.
Proof.
  unfold strip. split.
  - intros H. apply lstrip_nil_iff.
    destruct (lstrip text) as [|c r] eqn:Hl; [reflexivity|].
    exfalso. apply lstrip_head in Hl.
    assert (Hr : lstrip (rev (c :: r)) = []).
    { destruct (lstrip (rev (c :: r))); [reflexivity|].
      apply (f_equal (@length _)) in H. rewrite length_rev in H.
      discriminate. }
    simpl in Hr. revert Hr. apply lstrip_snoc. exact Hl.
  - intros H. apply lstrip_nil_iff in H. rewrite H. reflexivity.
Qed.

Lemma skip_blank (text target_lang : pystr) :
  forallb isspace text = true ->
  should_skip_translation text target_lang = true.
Proof.
  intros H. unfold should_skip_translation.
  apply strip_nil_iff in H. rewrite H. simpl.
  rewrite orb_true_r. reflexivity.
Qed.

Lemma skip_not_blank (text target_lang : pystr) :
  forallb isspace text = false ->
  should_skip_translation text target_lang =
  startswith target_lang (str "zh")
  && (is_chinese text && negb (is_japanese text)).
Proof.
  intros H. unfold should_skip_translation.
  destruct text as [|c text]; [discriminate|].
  destruct (strip (c :: text)) as [|d r] eqn:Hs.
  - apply strip_nil_iff in Hs. congruence.
  - cbn [length Nat.eqb orb].
    destruct (startswith target_lang (str "zh"));
      destruct (is_chinese (c :: text) && negb (is_japanese (c :: text)));
      reflexivity.
Qed.

(** C5. [should_skip_translation] answers [True] for every empty or
    white-space-only text; for a target language starting with [zh] it
    answers [True] exactly when the text is classified as Chinese and not as
    Japanese; for any other target language it answers [False] on every text
    that is not blank.  The four examples of the specification follow, the
    two on CJK text for classifiers that see "你好" as Chinese and not
    Japanese and "こんにちは" as Japanese. *)
Theorem should_skip_translation_spec :
  (forall text target_lang,
      forallb isspace text = true ->
      should_skip_translation text target_lang = true)
  /\ (forall text target_lang,
         forallb isspace text = false ->
         startswith target_lang (str "zh") = true ->
         (should_skip_translation text target_lang = true <->
          is_chinese text = true /\ is_japanese text = false))
  /\ (forall text target_lang,
         forallb isspace text = false ->
         startswith target_lang (str "zh") = false ->
         should_skip_translation text target_lang = false)
  /\ (is_chinese (str "你好") = true ->
      is_japanese (str "你好") = false ->
      should_skip_translation (str "你好") (str "zh_CN") = true)
  /\ (is_japanese (str "こんにちは") = true ->
      should_skip_translation (str "こんにちは") (str "zh_CN") = false)
  /\ should_skip_translation (str "") (str "zh_CN") = true
  /\ should_skip_translation (str "hello") (str "en") = false.
Proof.
  split; [exact skip_blank|].
  split.
  { intros text target_lang Hb Hzh.
    rewrite skip_not_blank by assumption. rewrite Hzh. simpl.
    rewrite andb_true_iff, negb_true_iff. tauto. }
  split.
  { intros text target_lang Hb Hzh.
    rewrite skip_not_blank by assumption. rewrite Hzh. reflexivity. }
  split.
  { intros Hc Hj. rewrite skip_not_blank by reflexivity.
    rewrite Hc, Hj. reflexivity. }
  split.
  { intros Hj. rewrite skip_not_blank by reflexivity.
    rewrite Hj. simpl. rewrite andb_false_r. reflexivity. }
  split.
  { apply skip_blank. reflexivity. }
  rewrite skip_not_blank by reflexivity. reflexivity.
Qed.

End DetectorFacts.

(** The examples of C5, run with the kana and ideograph classifiers. *)
Lemma should_skip_translation_examples :
  should_skip_translation (L := script_detect) (str "你好") (str "zh_CN")
  = true
  /\ should_skip_translation (L := script_detect) (str "こんにちは")
       (str "zh_CN") = false
  /\ should_skip_translation (L := script_detect) (str " ") (str "en")
     = true
  /\ (should_skip_translation (L := script_detect) (str "漢字")
        (str "zh_TW") = true <->
      is_chinese (str "漢字") = true /\ is_japanese (str "漢字") = false)
  /\ should_skip_translation (L := script_detect) (str "你好") (str "en")
     = false.
Proof.
  destruct (should_skip_translation_spec (L := script_detect))
    as (Hblank & Hzh & Hother & Hnihao & Hkonnichiwa & _ & _).
  split; [apply Hnihao; reflexivity|].
  split; [apply Hkonnichiwa; reflexivity|].
  split; [apply Hblank; reflexivity|].
  split; [apply Hzh; reflexivity|].
  apply Hother; reflexivity.
Defined.

(* ================================================================== *)
(** ** PublicFallbackClient: the back-off of [google_trans] *)

Opaque str str_of_int.

Section Backoff.
Context {E : Env}.
Hypothesis Hrand : randint_in_range E.

Lemma count_gets_app (a b : list Event) :
  count_gets (a ++ b) = (count_gets a + count_gets b)%nat.
Proof.
  induction a as [|ev a IH]; simpl.
  - reflexivity.
  - destruct ev; rewrite IH; reflexivity.
Qed.

Lemma chats_app (a b : list Event) : chats (a ++ b) = chats a ++ chats b.
Proof.
  induction a as [|ev a IH]; simpl.
  - reflexivity.
  - destruct ev; rewrite IH; reflexivity.
Qed.

Ltac gets_arith :=
  unfold gets_between in *; simpl in *;
  rewrite ?count_gets_app in *; simpl in *; lia.

(** The retry loop: when the response at hand is throttled, at least one
    retry is made and every retry but the last adds between 60 and 90 to the
    wait; otherwise the loop does nothing. *)
Lemma throttled_wait (fuel : nat) :
  forall url r st st',
    final (throttled fuel url r st) = Some st' ->
    if (status_code r =? 429)%Z
    then
      let m := gets_between st st' in
      (1 <= m
       /\ 60 * (m - 1) <= _google_trans_wait st' - _google_trans_wait st
          <= 90 * (m - 1))%Z
    else st' = st.
Proof using Hrand.
  induction fuel as [|fuel IH]; intros url r st st' Hfin;
    destruct (status_code r =? 429)%Z eqn:Hr;
    simpl in Hfin; rewrite Hr in Hfin.
  - discriminate.
  - injection Hfin as <-. reflexivity.
  - unfold bind, read_wait, warning, sleep, get in Hfin. simpl in Hfin.
    destruct (requests_get url _) as [[e | r'] w] eqn:Hget; simpl in Hfin.
    + injection Hfin as <-. gets_arith.
    + destruct (status_code r' =? 429)%Z eqn:Hr'.
      * unfold randint, write_wait in Hfin. simpl in Hfin.
        destruct (random_randint 60 90 w) as [n w'] eqn:Hn.
        apply IH in Hfin. rewrite Hr' in Hfin.
        pose proof (@Hrand 60%Z 90%Z w ltac:(lia)) as Hb.
        rewrite Hn in Hb. gets_arith.
      * unfold ret in Hfin. apply IH in Hfin. rewrite Hr' in Hfin.
        subst st'. gets_arith.
  - injection Hfin as <-. reflexivity.
Qed.

(** One call of [google_trans] that sends [g] requests adds nothing to the
    wait when [g <= 2] and between [60 * (g - 2)] and [90 * (g - 2)]
    otherwise. *)
Lemma google_trans_wait (fuel : nat) (texts to : pystr) (st st' : State) :
  final (google_trans fuel texts to st) = Some st' ->
  let g := gets_between st st' in
  (1 <= g
   /\ 60 * Z.max 0 (g - 2)
      <= _google_trans_wait st' - _google_trans_wait st
      <= 90 * Z.max 0 (g - 2))%Z.
Proof using Hrand.
  unfold google_trans, bind, get. intros Hfin.
  destruct (requests_get _ (world st)) as [[e | r] w] eqn:Hget;
    simpl in Hfin.
  - injection Hfin as <-. gets_arith.
  - destruct (throttled fuel _ r _) as [r1 st1 | e st1 |] eqn:Hloop.
    + pose proof (throttled_wait fuel _ r _ (f_equal final Hloop)) as Hw.
      assert (Hst : _google_trans_wait st' = _google_trans_wait st1
                    /\ count_gets (events st') = count_gets (events st1)).
      { destruct (status_code r1 =? 200)%Z.
        - destruct (json r1) as [e | v]; simpl in Hfin;
            injection Hfin as <-; simpl; auto.
          rewrite count_gets_app. simpl. split; lia.
        - simpl in Hfin. injection Hfin as <-. simpl.
          rewrite count_gets_app. simpl. split; lia. }
      destruct Hst as [Hw1 Hg1].
      destruct (status_code r =? 429)%Z.
      * unfold gets_between in *. rewrite Hw1, Hg1. gets_arith.
      * subst st1. unfold gets_between in *. rewrite Hw1, Hg1. gets_arith.
    + pose proof (throttled_wait fuel _ r _ (f_equal final Hloop)) as Hw.
      simpl in Hfin. injection Hfin as <-.
      destruct (status_code r =? 429)%Z.
      * gets_arith.
      * subst st1. gets_arith.
    + discriminate.
Qed.

Lemma throttled_done (fuel : nat) (url : pystr) (r : Response) :
  (status_code r =? 429)%Z = false -> throttled fuel url r = ret r.
Proof.
  intros H. destruct fuel; simpl; rewrite H; reflexivity.
Qed.

Lemma google_trans_calls_wait (st st' : State) :
  google_trans_calls st st' ->
  (_google_trans_wait st <= _google_trans_wait st')%Z.
Proof using Hrand.
  induction 1 as [st | st st1 st2 (fuel & texts & to & Hcall) _ IH].
  - lia.
  - apply google_trans_wait in Hcall. simpl in Hcall. lia.
Qed.

(** C4. The wait of the fallback starts at 60, no sequence of calls of
    [google_trans] ever lowers it, and a call that sends [g] requests raises
    it by 60 to 90 for each throttled retry, that is [g - 2] times (not at
    all when [g <= 2]).  A call that meets three throttled responses and then
    a success returns the decoded success and leaves the wait strictly
    larger. *)
Theorem google_trans_wait_monotone :
  (forall w, _google_trans_wait (initial_state w) = 60%Z)
  /\ (forall st st',
         google_trans_calls st st' ->
         (_google_trans_wait st <= _google_trans_wait st')%Z)
  /\ (forall fuel texts to st st',
         final (google_trans fuel texts to st) = Some st' ->
         let g := gets_between st st' in
         (60 * Z.max 0 (g - 2)
          <= _google_trans_wait st' - _google_trans_wait st
          <= 90 * Z.max 0 (g - 2))%Z)
  /\ (forall fuel texts to st r1 r2 r3 r4 w1 w2 w3 w4 n2 n3 w2' w3' v,
         let url := google_trans_url texts to in
         let wait := _google_trans_wait st in
         requests_get url (world st) = (inr r1, w1) ->
         status_code r1 = 429%Z ->
         requests_get url (time_sleep wait w1) = (inr r2, w2) ->
         status_code r2 = 429%Z ->
         random_randint 60 90 w2 = (n2, w2') ->
         requests_get url (time_sleep (wait + n2) w2') = (inr r3, w3) ->
         status_code r3 = 429%Z ->
         random_randint 60 90 w3 = (n3, w3') ->
         requests_get url (time_sleep (wait + n2 + n3) w3') = (inr r4, w4) ->
         status_code r4 = 200%Z ->
         json r4 = inr v ->
         (3 <= fuel)%nat ->
         exists st',
           google_trans fuel texts to st = Ret v st'
           /\ (_google_trans_wait st < _google_trans_wait st')%Z).
Proof using Hrand.
  split; [reflexivity|].
  split; [exact google_trans_calls_wait|].
  split.
  { intros fuel texts to st st' Hfin.
    apply google_trans_wait in Hfin. simpl in Hfin. simpl. lia. }
  intros fuel texts to st r1 r2 r3 r4 w1 w2 w3 w4 n2 n3 w2' w3' v url wait
         G1 S1 G2 S2 R2 G3 S3 R3 G4 S4 J4 Hfuel.
  destruct fuel as [|[|[|fuel]]]; try lia.
  subst url wait.
  pose proof (@Hrand 60%Z 90%Z w2 ltac:(lia)) as B2.
  pose proof (@Hrand 60%Z 90%Z w3 ltac:(lia)) as B3.
  rewrite R2 in B2. rewrite R3 in B3. simpl in B2, B3.
  eexists. split.
  - unfold google_trans. unfold bind at 1. unfold get at 1.
    rewrite G1. simpl. unfold bind at 1. simpl. rewrite S1. simpl.
    unfold bind, read_wait, warning, sleep, get. simpl.
    rewrite G2. simpl. rewrite S2. simpl.
    unfold randint. simpl. rewrite R2. simpl.
    rewrite G3. simpl. rewrite S3. simpl.
    rewrite R3. simpl.
    rewrite G4. simpl. rewrite S4. simpl.
    rewrite throttled_done by (rewrite S4; reflexivity).
    unfold ret. rewrite S4, J4. reflexivity.
  - simpl. lia.
Qed.

End Backoff.

Lemma script_randint : randint_in_range script_env.
Proof.
  intros a b w Hab. simpl. lia.
Qed.

(** C4 on the scripted world: three throttled responses, then a success. *)
Lemma google_trans_wait_monotone_witness :
  exists st',
    google_trans 3 (str "こんにちは") (str "zh_CN") three_throttles
    = Ret greeting st'
    /\ (60 < _google_trans_wait st')%Z.
Proof.
  destruct (google_trans_wait_monotone script_randint) as (_ & _ & _ & H).
  eapply (H 3%nat (str "こんにちは") (str "zh_CN") three_throttles);
    reflexivity.
Defined.

(* ================================================================== *)
(** ** CompatibleProviderClient: [translate_with_openai_compatible] *)

Section Client.
Context {E : Env}.

(** The client always returns, neither raising nor diverging, and adds at
    most the event of its one request. *)
Lemma client_returns texts provider actress target_lang st :
  exists r st',
    translate_with_openai_compatible texts provider actress target_lang st
    = Ret r st'
    /\ _google_trans_wait st' = _google_trans_wait st
    /\ (events st' = events st
        \/ events st'
           = events st
             ++ [EvChat provider (system_content target_lang)
                   (protect (get_default actress []) texts)]).
Proof.
  unfold translate_with_openai_compatible.
  destruct (import_openai (world st)); simpl; [|eauto 6].
  unfold try_except, bind, new_client, create.
  destruct (OpenAI provider (world st)) as [e|]; [simpl; eauto 6|].
  destruct (chat_completions_create _ _ _ _) as [answer w].
  destruct answer as [e | [|[[|c content]|] rest]]; simpl; eauto 6.
Qed.

Lemma only_client texts provider actress target_lang :
  only is_chat
    (translate_with_openai_compatible texts provider actress target_lang).
Proof.
  intros st st' Hfin.
  destruct (client_returns texts provider actress target_lang st)
    as (r & st1 & Hrun & _ & [Hev | Hev]);
    rewrite Hrun in Hfin; injection Hfin as <-; rewrite Hev.
  - exists []. rewrite app_nil_r. auto.
  - eexists. split; [reflexivity|]. repeat constructor.
Qed.

End Client.

(** C8 as stated fails: a transport failure and an unrelated exception of
    the client are reported under the same code, -11. *)
Lemma transport_error_not_distinct :
  let run answer :=
    translate_with_openai_compatible (str "こんにちは") provider_a None
      (str "zh_CN") (script true [inl answer] []) in
  exists r1 st1 r2 st2,
    run (TransportError (str "APIConnectionError('Connection error.')"))
    = Ret r1 st1
    /\ run (OtherError (str "ValueError('bad model')")) = Ret r2 st2
    /\ k_error_code r1 = Some (-11)%Z
    /\ k_error_code r2 = Some (-11)%Z.
Proof.
  simpl. do 4 eexists. repeat split.
Qed.

(* ================================================================== *)
(** ** Events added by the parts of the chain *)

Section Events.
Context {E : Env}.

Lemma only_weaken (Q Q' : Event -> Prop) {A} (c : M A) :
  (forall ev, Q ev -> Q' ev) -> only Q c -> only Q' c.
Proof.
  intros HQ Hc st st' Hfin.
  destruct (Hc st st' Hfin) as (evs & Hev & Hall).
  exists evs. split; [exact Hev|].
  revert Hall. apply Forall_impl. exact HQ.
Qed.

Lemma only_ret (Q : Event -> Prop) {A} (a : A) : only Q (ret a).
Proof.
  intros st st' Hfin. injection Hfin as <-.
  exists []. rewrite app_nil_r. auto.
Qed.

Lemma only_lift (Q : Event -> Prop) {A} (r : exn + A) : only Q (lift r).
Proof.
  intros st st' Hfin. destruct r; injection Hfin as <-;
    exists []; rewrite app_nil_r; auto.
Qed.

Lemma only_bind (Q : Event -> Prop) {A B} (c : M A) (k : A -> M B) :
  only Q c -> (forall a, only Q (k a)) -> only Q (bind c k).
Proof.
  intros Hc Hk st st' Hfin. unfold bind in Hfin.
  destruct (c st) as [a st1 | e st1 |] eqn:Hrun.
  - destruct (Hc st st1) as (evs1 & Hev1 & Hall1);
      [rewrite Hrun; reflexivity|].
    destruct (Hk a st1 st' Hfin) as (evs2 & Hev2 & Hall2).
    exists (evs1 ++ evs2). rewrite Hev2, Hev1, app_assoc.
    split; [reflexivity | apply Forall_app; auto].
  - apply (Hc st st'). rewrite Hrun. exact Hfin.
  - discriminate.
Qed.

Lemma only_try_except (Q : Event -> Prop) {A} (c : M A) (h : exn -> M A) :
  only Q c -> (forall e, only Q (h e)) -> only Q (try_except c h).
Proof.
  intros Hc Hh st st' Hfin. unfold try_except in Hfin.
  destruct (c st) as [a st1 | e st1 |] eqn:Hrun.
  - apply (Hc st st'). rewrite Hrun. exact Hfin.
  - destruct (Hc st st1) as (evs1 & Hev1 & Hall1);
      [rewrite Hrun; reflexivity|].
    destruct (Hh e st1 st' Hfin) as (evs2 & Hev2 & Hall2).
    exists (evs1 ++ evs2). rewrite Hev2, Hev1, app_assoc.
    split; [reflexivity | apply Forall_app; auto].
  - discriminate.
Qed.

Lemma only_emit (Q : Event -> Prop) {A} (a : A) (ev : Event)
    (f : State -> World) :
  Q ev -> only Q (fun st => Ret a (emit (f st) ev st)).
Proof.
  intros HQ st st' Hfin. injection Hfin as <-.
  exists [ev]. split; [reflexivity | auto].
Qed.

Lemma only_get (Q : Event -> Prop) (url : pystr) :
  Q (EvGet url) -> only Q (get url).
Proof.
  intros HQ st st' Hfin. unfold get in Hfin.
  destruct (requests_get url (world st)) as [[e | r] w];
    injection Hfin as <-; exists [EvGet url];
    (split; [reflexivity | auto]).
Qed.

Lemma only_silent (Q : Event -> Prop) {A} (c : M A) :
  (forall st st', final (c st) = Some st' -> events st' = events st) ->
  only Q c.
Proof.
  intros H st st' Hfin. exists []. rewrite app_nil_r.
  split; [exact (H st st' Hfin) | constructor].
Qed.

Lemma only_randint (Q : Event -> Prop) (a b : Z) : only Q (randint a b).
Proof.
  apply only_silent. intros st st' Hfin. unfold randint in Hfin.
  destruct (random_randint a b (world st)). injection Hfin as <-.
  reflexivity.
Qed.

Lemma only_read_wait (Q : Event -> Prop) : only Q read_wait.
Proof.
  apply only_silent. intros st st' Hfin. injection Hfin as <-. reflexivity.
Qed.

Lemma only_write_wait (Q : Event -> Prop) (z : Z) : only Q (write_wait z).
Proof.
  apply only_silent. intros st st' Hfin. injection Hfin as <-. reflexivity.
Qed.

Lemma only_throttled (fuel : nat) (url : pystr) :
  forall r, only (is_fallback url) (throttled fuel url r).
Proof.
  induction fuel as [|fuel IH]; intros r; simpl;
    destruct (status_code r =? 429)%Z; try apply only_ret.
  - intros st st' Hfin. discriminate.
  - apply only_bind; [apply only_read_wait | intros wait].
    apply only_bind; [apply only_emit; exact I | intros _].
    apply only_bind; [apply only_emit; exact I | intros _].
    apply only_bind; [apply only_get; reflexivity | intros r'].
    apply only_bind; [|intros _; apply IH].
    destruct (status_code r' =? 429)%Z; [|apply only_ret].
    apply only_bind; [apply only_read_wait | intros wait'].
    apply only_bind; [apply only_randint | intros n].
    apply only_write_wait.
Qed.

Lemma only_google_trans (fuel : nat) (texts to : pystr) :
  only (is_fallback (google_trans_url texts to))
       (google_trans fuel texts to).
Proof.
  unfold google_trans.
  apply only_bind; [apply only_get; reflexivity | intros r].
  apply only_bind; [apply only_throttled | intros r1].
  apply only_bind.
  - destruct (status_code r1 =? 200)%Z; [apply only_lift | apply only_ret].
  - intros v. apply only_bind; [apply only_emit; exact I | intros _].
    apply only_ret.
Qed.

Lemma only_google_fallback (fuel : nat) (texts target_lang : pystr) :
  only (is_fallback (google_trans_url texts target_lang))
       (google_fallback fuel texts target_lang).
Proof.
  unfold google_fallback. apply only_try_except.
  - apply only_bind; [apply only_google_trans | intros v].
    apply only_lift.
  - intros e. apply only_ret.
Qed.

Lemma only_providers_loop texts actress target_lang ps :
  forall errors,
    only is_chat (providers_loop texts actress target_lang ps errors).
Proof.
  induction ps as [|p ps IH]; intros errors; simpl.
  - apply only_ret.
  - apply only_bind; [apply only_client | intros r].
    destruct (is_some (k_trans r)); [apply only_ret | apply IH].
Qed.

Lemma is_chat_gets_url url ev : is_chat ev -> gets_url url ev.
Proof. destruct ev; simpl; tauto. Qed.

Lemma is_fallback_gets_url url ev : is_fallback url ev -> gets_url url ev.
Proof. destruct ev; simpl; tauto. Qed.

Lemma only_translate_with_providers fuel cfg texts actress target_lang :
  only (gets_url (google_trans_url texts target_lang))
       (translate_with_providers fuel cfg texts actress target_lang).
Proof.
  unfold translate_with_providers. apply only_bind.
  - destruct (providers cfg) as [|p ps]; [apply only_ret|].
    apply only_bind.
    + eapply only_weaken; [apply is_chat_gets_url|].
      apply only_providers_loop.
    + intros [r | errors]; [apply only_ret|].
      apply only_bind; [apply only_emit; exact I | intros _].
      apply only_ret.
  - intros [r|]; [apply only_ret|].
    eapply only_weaken; [apply is_fallback_gets_url|].
    apply only_google_fallback.
Qed.

End Events.

(* ================================================================== *)
(** ** ProviderChain: [translate_with_providers] *)

Section Chain.
Context {E : Env}.


(** When every provider fails the loop runs to its end with one entry per
    provider appended to [errors], in order. *)
Lemma providers_loop_fail texts actress target_lang ps st rs st1 :
  providers_fail texts actress target_lang ps st rs st1 ->
  forall errors,
    providers_loop texts actress target_lang ps errors st
    = Ret (inr (errors ++ error_entries ps rs)) st1.
Proof.
  induction 1 as [st | p ps st r st1 rs st2 Hrun Hk _ IH]; intros errors.
  - simpl. rewrite app_nil_r. reflexivity.
  - simpl. unfold bind. rewrite Hrun, Hk. simpl.
    rewrite IH. unfold error_entry. rewrite <- app_assoc. reflexivity.
Qed.

(** The loop either returns at the first provider that succeeds, after the
    failure of those before it, or runs to its end. *)
Lemma providers_loop_cases texts actress target_lang ps :
  forall errors st,
    (exists pre p post rs st1 r t st2,
        ps = pre ++ p :: post
        /\ providers_fail texts actress target_lang pre st rs st1
        /\ translate_with_openai_compatible texts p (Some actress)
             target_lang st1 = Ret r st2
        /\ k_trans r = Some t
        /\ providers_loop texts actress target_lang ps errors st
           = Ret (inl (set_provider r (provider_name p))) st2)
    \/ (exists rs st1,
           providers_fail texts actress target_lang ps st rs st1).
Proof.
  induction ps as [|p ps IH]; intros errors st.
  - right. exists [], st. constructor.
  - destruct (client_returns texts p (Some actress) target_lang st)
      as (r & st1 & Hrun & _).
    destruct (k_trans r) as [t|] eqn:Hk.
    + left. exists [], p, ps, [], st, r, t, st1.
      repeat split; try assumption; try constructor.
      simpl. unfold bind. rewrite Hrun, Hk. reflexivity.
    + destruct (IH (errors ++ [error_entry p r]) st1)
        as [(pre & q & post & rs & st2 & r' & t & st3
             & Hps & Hfail & Hq & Ht & Hloop)
           | (rs & st2 & Hfail)].
      * left. exists (p :: pre), q, post, (r :: rs), st2, r', t, st3.
        repeat split; try assumption.
        -- simpl. rewrite Hps. reflexivity.
        -- econstructor; eassumption.
        -- simpl. unfold bind. rewrite Hrun, Hk. exact Hloop.
      * right. exists (r :: rs), st2. econstructor; eassumption.
Qed.

Lemma only_providers_fail texts actress target_lang ps st rs st1 :
  providers_fail texts actress target_lang ps st rs st1 ->
  _google_trans_wait st1 = _google_trans_wait st
  /\ exists evs, events st1 = events st ++ evs /\ Forall is_chat evs.
Proof.
  induction 1 as [st | p ps st r st1 rs st2 Hrun _ _ [IHw (evs2 & IHe & IHa)]].
  - split; [reflexivity|]. exists []. rewrite app_nil_r. auto.
  - destruct (client_returns texts p (Some actress) target_lang st)
      as (r0 & st0 & Hrun0 & Hw & _).
    rewrite Hrun in Hrun0. injection Hrun0 as <- <-.
    destruct (only_client texts p (Some actress) target_lang st
                (f_equal final Hrun)) as (evs1 & He1 & Ha1).
    split; [congruence|].
    exists (evs1 ++ evs2). rewrite IHe, He1, app_assoc.
    split; [reflexivity | apply Forall_app; auto].
Qed.

Lemma google_fallback_run fuel texts target_lang st :
  google_fallback fuel texts target_lang st
  = match google_trans fuel texts target_lang st with
    | Ret v st' => Ret (fallback_outcome (inr v)) st'
    | Raise e st' => Ret (fallback_outcome (inl e)) st'
    | Diverge => Diverge
    end.
Proof.
  unfold google_fallback, try_except, bind.
  destruct (google_trans fuel texts target_lang st) as [v st' | e st' |];
    try reflexivity.
  simpl. destruct (sentences_block v); reflexivity.
Qed.

(** With all providers failed, the function is the fallback block run from
    the state the loop ended in, after the warning. *)
Lemma translate_with_providers_fail fuel cfg texts actress target_lang
    st rs st1 :
  providers_fail texts (get_default actress []) target_lang
    (providers cfg) st rs st1 ->
  translate_with_providers fuel cfg texts actress target_lang st
  = google_fallback fuel texts target_lang
      (after_providers (providers cfg) rs st1).
Proof.
  intros Hfail. unfold translate_with_providers, after_providers.
  pose proof (providers_loop_fail Hfail []) as Hloop.
  destruct (providers cfg) as [|p ps] eqn:Hps.
  - inversion Hfail; subst. reflexivity.
  - unfold bind at 1. unfold bind at 1. rewrite Hloop. reflexivity.
Qed.


End Chain.

(* ================================================================== *)
(** ** The fallback block and what it is sent *)

Section Fallback.
Context {E : Env}.

Lemma getitem_each_spec (k : pystr) (items xs : list Val) :
  getitem_each items k = inr xs <-> Forall2 (has_item k) items xs.
Proof.
  split.
  - revert xs. induction items as [|i items IH]; simpl; intros xs H.
    + injection H as <-. constructor.
    + destruct (py_getitem i k) as [e | x] eqn:Hi; [discriminate|].
      destruct (getitem_each items k) as [e | xs'] eqn:Hr; [discriminate|].
      injection H as <-. constructor; [|apply IH; reflexivity].
      destruct i; try discriminate. simpl in Hi.
      destruct (dict_get k kvs) eqn:Hg; [|discriminate].
      injection Hi as <-. exists kvs. auto.
  - induction 1 as [|i x items xs (kvs & -> & Hg) _ IH]; simpl.
    + reflexivity.
    + rewrite Hg, IH. reflexivity.
Qed.

Lemma py_join_empty_spec (l : list Val) (t : pystr) :
  py_join_empty l = inr t <-> exists ss, l = map VStr ss /\ t = concat ss.
Proof.
  split.
  - revert t. induction l as [|v l IH]; simpl; intros t H.
    + injection H as <-. exists []. auto.
    + destruct v; try discriminate.
      destruct (py_join_empty l) as [e | t'] eqn:Hr; [discriminate|].
      injection H as <-. destruct (IH t' eq_refl) as (ss & -> & ->).
      exists (s :: ss). auto.
  - intros (ss & -> & ->). induction ss as [|s ss IH]; simpl.
    + reflexivity.
    + rewrite IH. reflexivity.
Qed.

Lemma sentences_block_success (v : Val) (origs : list Val)
    (transs : list pystr) :
  sentence_list v origs transs ->
  sentences_block v
  = inr (dict_google (concat transs) origs (map VStr transs) (str "Google")).
Proof.
  intros (kvs & sentences & items & -> & Hs & Hi & Ho & Ht).
  unfold sentences_block. simpl. rewrite Hs. simpl. rewrite Hi. simpl.
  apply getitem_each_spec in Ho. apply getitem_each_spec in Ht.
  rewrite Ho, Ht. simpl.
  assert (Hj : py_join_empty (map VStr transs) = inr (concat transs)).
  { apply py_join_empty_spec. exists transs. auto. }
  rewrite Hj. reflexivity.
Qed.

Lemma sentences_block_shape (v : Val) (r : Result) :
  sentences_block v = inr r ->
  (exists origs transs,
      sentence_list v origs transs
      /\ r = dict_google (concat transs) origs (map VStr transs)
               (str "Google"))
  \/ (exists msg, r = dict_error msg).
Proof.
  unfold sentences_block. intros H.
  destruct (py_contains v (str "sentences")) as [e | [|]] eqn:Hc;
    simpl in H; try discriminate.
  - left.
    destruct (py_getitem v (str "sentences")) as [e | sentences] eqn:Hg;
      simpl in H; [discriminate|].
    destruct (py_iter sentences) as [e | items] eqn:Hi;
      simpl in H; [discriminate|].
    destruct (getitem_each items (str "orig")) as [e | origs] eqn:Ho;
      simpl in H; [discriminate|].
    destruct (getitem_each items (str "trans")) as [e | tb] eqn:Ht;
      simpl in H; [discriminate|].
    destruct (py_join_empty tb) as [e | t] eqn:Hj;
      simpl in H; [discriminate|].
    injection H as <-.
    apply py_join_empty_spec in Hj. destruct Hj as (transs & -> & ->).
    exists origs, transs. split; [|reflexivity].
    destruct v; try discriminate. simpl in Hg.
    destruct (dict_get (str "sentences") kvs) eqn:Hd; [|discriminate].
    injection Hg as ->.
    exists kvs, sentences, items.
    repeat split; try assumption; apply getitem_each_spec; assumption.
  - right.
    destruct (py_get v (str "error_code") _) as [e | code];
      simpl in H; [discriminate|].
    destruct (py_get v (str "error_msg") _) as [e | msg];
      simpl in H; [discriminate|].
    injection H as <-. eauto.
Qed.


Lemma final_bind {A B} (c : M A) (k : A -> M B) (st st' : State) :
  final (bind c k st) = Some st' ->
  (exists a st1, c st = Ret a st1 /\ final (k a st1) = Some st')
  \/ (exists e, c st = Raise e st').
Proof.
  unfold bind. destruct (c st) as [a st1 | e st1 |]; simpl; intros H.
  - left. eauto.
  - right. injection H as <-. eauto.
  - discriminate.
Qed.

(** [google_trans] starts with a request to its URL. *)
Lemma google_trans_first_get fuel texts to st st' :
  final (google_trans fuel texts to st) = Some st' ->
  exists evs,
    events st' = events st ++ EvGet (google_trans_url texts to) :: evs.
Proof.
  unfold google_trans. intros H.
  apply final_bind in H.
  destruct H as [(r & st1 & Hget & Hrest) | (e & Hget)].
  - assert (Hr : only (fun _ => True)
                   (r0 <- throttled fuel (google_trans_url texts to) r ;;
                    result <- (if (status_code r0 =? 200)%Z
                               then lift (json r0)
                               else ret (VDict
                                 [(str "error_code", VInt (status_code r0));
                                  (str "error_msg", VStr (reason r0))])) ;;
                    sleep 4 ;; ret result)).
    { apply only_bind.
      - eapply only_weaken; [|apply only_throttled]. auto.
      - intros r1. apply only_bind.
        + destruct (status_code r1 =? 200)%Z;
            [apply only_lift | apply only_ret].
        + intros v. apply only_bind; [apply only_emit; exact I|].
          intros _. apply only_ret. }
    destruct (Hr st1 st' Hrest) as (evs & Hev & _).
    exists evs. rewrite Hev.
    unfold get in Hget.
    destruct (requests_get _ (world st)) as [[e | r'] w];
      [discriminate|].
    injection Hget as _ <-. simpl. rewrite <- app_assoc. reflexivity.
  - exists []. unfold get in Hget.
    destruct (requests_get _ (world st)) as [[e' | r'] w];
      [|discriminate].
    injection Hget as _ <-. reflexivity.
Qed.


(** C9 (amended). Every request [translate_with_providers] sends to the
    fallback endpoint carries the text it was given, unchanged: the entity
    protection is applied inside the client of the compatible providers
    only.  Once all providers have failed, the first thing the function does
    after the warning is such a request. *)
Theorem fallback_receives_raw_text :
  forall fuel cfg texts actress target_lang st st',
    final (translate_with_providers fuel cfg texts actress target_lang st)
    = Some st' ->
    (exists evs,
        events st' = events st ++ evs
        /\ Forall (gets_url (google_trans_url texts target_lang)) evs)
    /\ (forall rs st1,
          providers_fail texts (get_default actress []) target_lang
            (providers cfg) st rs st1 ->
          exists evs,
            events st'
            = events (after_providers (providers cfg) rs st1)
              ++ EvGet (google_trans_url texts target_lang) :: evs).
Proof.
  intros fuel cfg texts actress target_lang st st' Hfin.
  split; [exact (only_translate_with_providers _ _ _ _ _ _ Hfin)|].
  intros rs st1 Hfail.
  rewrite (@translate_with_providers_fail _ fuel cfg texts actress
             target_lang st rs st1 Hfail) in Hfin.
  rewrite google_fallback_run in Hfin.
  apply (@google_trans_first_get fuel texts target_lang).
  destruct (google_trans fuel texts target_lang _); exact Hfin.
Qed.

End Fallback.

(* ================================================================== *)
(** ** The chain on the scripted world *)





(** C7 as stated fails: a response that contains a sentence list, one of
    whose sentences lacks ['trans'], is a failure, and its error carries the
    exception rather than code and message; and the message missing from a
    dict is rendered "unknown error". *)
Lemma sentence_list_not_success :
  (exists st',
      translate_with_providers 0 (config [] true) (str "a") None
        (str "zh_CN") (script false [] [inr (response_ok malformed)])
      = Ret (dict_error (str "Google: KeyError('trans')")) st')
  /\ py_contains malformed (str "sentences") = inr true
  /\ (exists st',
         translate_with_providers 0 (config [] true) (str "a") None
           (str "zh_CN") (script false [] [inr (response_ok (VDict []))])
         = Ret (dict_error (str "unknown: unknown error")) st').
Proof.
  vm_compute. repeat split; eexists; reflexivity.
Qed.

(** C9 on a provider that fails and a fallback that answers: the request
    to the fallback endpoint carries the text as given. *)
Lemma fallback_receives_raw_text_witness :
  exists result st',
    translate_with_providers 0 (config [provider_a] true)
      (str "波多野結衣の新作") (Some [str "波多野結衣"]) (str "zh_CN")
      provider_then_fallback
    = Ret result st'
    /\ Forall (gets_url (google_trans_url (str "波多野結衣の新作")
                           (str "zh_CN")))
              (events st').
Proof.
  pose proof (@fallback_receives_raw_text script_env 0
                (config [provider_a] true) (str "波多野結衣の新作")
                (Some [str "波多野結衣"]) (str "zh_CN")
                provider_then_fallback) as H.
  destruct (translate_with_providers 0 (config [provider_a] true)
              (str "波多野結衣の新作") (Some [str "波多野結衣"]) (str "zh_CN")
              provider_then_fallback) as [result st' | e st' |] eqn:Hrun.
  - exists result, st'. split; [reflexivity|].
    destruct (H st' eq_refl) as ((evs & Hev & Hall) & _).
    rewrite Hev. exact Hall.
  - vm_compute in Hrun. discriminate.
  - vm_compute in Hrun. discriminate.
Defined.

(** C9 as stated fails: the provider is sent the protected text, the
    fallback endpoint the text as given, names unprotected. *)
Lemma fallback_text_not_protected :
  let texts := str "波多野結衣の新作" in
  let names := [str "波多野結衣"] in
  exists result st',
    translate_with_providers 0 (config [provider_a] true) texts (Some names)
      (str "zh_CN") provider_then_fallback
    = Ret result st'
    /\ protect names texts = str "[ACTRESS:波多野結衣]の新作"
    /\ nth_error (events st') 0
       = Some (EvChat provider_a (system_content (str "zh_CN"))
                 (protect names texts))
    /\ nth_error (events st') 2
       = Some (EvGet (google_trans_url texts (str "zh_CN")))
    /\ google_trans_url texts (str "zh_CN")
       <> google_trans_url (protect names texts) (str "zh_CN").
Proof.
  vm_compute. eexists. eexists. repeat split. discriminate.
Qed.

(* ================================================================== *)
(** ** TranslationOrchestrator: [translate_movie_info] *)

Section Orchestrator.
Context {E : Env} {L : LangDetect}.

(** No exception leaves the chain. *)
Lemma translate_with_providers_no_raise fuel cfg texts actress target_lang
    st e st' :
  translate_with_providers fuel cfg texts actress target_lang st
  <> Raise e st'.
Proof.
  unfold translate_with_providers.
  destruct (providers_loop_cases texts (get_default actress []) target_lang
              (providers cfg) [] st)
    as [(pre & p & post & rs & st1 & r & t & st2
         & Hps & Hfail & Hp & Ht & Hloop)
       | (rs & st1 & Hfail)].
  - destruct (providers cfg) as [|q qs];
      [destruct pre; discriminate|].
    unfold bind at 1. unfold bind at 1. rewrite Hloop. discriminate.
  - pose proof (providers_loop_fail Hfail []) as Hloop.
    assert (Hfb : forall s, google_fallback fuel texts target_lang s
                            <> Raise e st').
    { intros s. rewrite google_fallback_run.
      destruct (google_trans fuel texts target_lang s); discriminate. }
    destruct (providers cfg) as [|q qs].
    + inversion Hfail; subst. apply Hfb.
    + unfold bind at 1. unfold bind at 1. rewrite Hloop. apply Hfb.
Qed.

Lemma translate_title_no_raise fuel cfg info st e st' :
  translate_title fuel cfg info st <> Raise e st'.
Proof.
  unfold translate_title.
  destruct (truthy (title info) && field_title (fields cfg)
            && negb (is_some (ori_title info))); [|discriminate].
  destruct (auto_detect_language cfg && _); [discriminate|].
  unfold bind.
  destruct (translate_with_providers fuel cfg _ (actress info) _ st)
    as [r st1 | e1 st1 |] eqn:Hrun.
  - destruct (k_trans r); [discriminate|].
    destruct (title_mandatory cfg); discriminate.
  - exfalso. exact (translate_with_providers_no_raise _ _ _ _ _ _ Hrun).
  - discriminate.
Qed.

(** The plot block never raises and leaves the title attributes alone. *)
Lemma translate_plot_title fuel cfg info st :
  match translate_plot fuel cfg info st with
  | Ret info' _ => title info' = title info /\ ori_title info' = ori_title info
  | Raise _ _ => False
  | Diverge => True
  end.
Proof.
  unfold translate_plot.
  destruct (truthy (plot info) && field_plot (fields cfg)); [|simpl; auto].
  destruct (auto_detect_language cfg && _); [simpl; auto|].
  unfold bind.
  destruct (translate_with_providers fuel cfg _ (actress info) _ st)
    as [r st1 | e1 st1 |] eqn:Hrun.
  - destruct (k_trans r); simpl; auto.
  - exact (translate_with_providers_no_raise _ _ _ _ _ _ Hrun).
  - exact I.
Qed.

(** With the original title archived the title block does nothing. *)
Lemma translate_title_archived fuel cfg info st x :
  ori_title info = Some x -> translate_title fuel cfg info st = Ret info st.
Proof.
  intros Hx. unfold translate_title. rewrite Hx. simpl.
  rewrite andb_false_r. reflexivity.
Qed.

(** A translated title has its original archived. *)
Lemma translate_title_archives fuel cfg info st info1 st1 :
  translate_title fuel cfg info st = Ret info1 st1 ->
  info1 = info
  \/ (ori_title info = None
      /\ (exists t, title info = Some t /\ ori_title info1 = Some t)).
Proof.
  unfold translate_title.
  destruct (title info) as [[|c t]|] eqn:Ht; simpl;
    try (intros H; injection H as <- _; auto; fail).
  destruct (field_title (fields cfg)); simpl;
    [|intros H; injection H as <- _; auto].
  destruct (ori_title info) eqn:Hori; simpl;
    [intros H; injection H as <- _; auto|].
  destruct (auto_detect_language cfg && _);
    [intros H; injection H as <- _; auto|].
  unfold bind.
  destruct (translate_with_providers fuel cfg _ (actress info) _ st)
    as [r st2 | e st2 |]; try discriminate.
  destruct (k_trans r).
  - intros H. injection H as <- _. right. simpl. eauto.
  - destruct (title_mandatory cfg); intros H; injection H as <- _; auto.
Qed.

(** C10. The title block attempts a translation only while the original
    title is unset: with an original archived it returns at once, in the
    same state.  A title that was translated has its original archived, so
    that every later run of [translate_movie_info], whatever the
    configuration and the world, leaves the title and the archived original
    as they are. *)
Theorem translate_title_idempotent :
  forall fuel cfg info st,
    (forall x, ori_title info = Some x ->
               translate_title fuel cfg info st = Ret info st)
    /\ (forall info1 st1,
          translate_title fuel cfg info st = Ret info1 st1 ->
          events st1 <> events st ->
          ori_title info = None)
    /\ (forall info1 st1,
          translate_title fuel cfg info st = Ret info1 st1 ->
          title info1 <> title info ->
          exists t, ori_title info1 = Some t)
    /\ (forall x r info' st',
          ori_title info = Some x ->
          translate_movie_info fuel cfg info st = Ret (r, info') st' ->
          title info' = title info /\ ori_title info' = ori_title info).
Proof.
  intros fuel cfg info st.
  split; [intros x; apply translate_title_archived|].
  split.
  { intros info1 st1 Hrun Hev.
    destruct (ori_title info) as [x|] eqn:Hori; [|reflexivity].
    rewrite (translate_title_archived fuel cfg info st Hori) in Hrun.
    injection Hrun as _ <-. congruence. }
  split.
  { intros info1 st1 Hrun Hne.
    destruct (translate_title_archives _ _ _ _ Hrun)
      as [-> | (_ & t & _ & Ht)]; [congruence | eauto]. }
  intros x r info' st' Hori Hrun.
  unfold translate_movie_info in Hrun. unfold bind at 1 in Hrun.
  rewrite (translate_title_archived fuel cfg info st Hori) in Hrun.
  pose proof (translate_plot_title fuel cfg info st) as Hplot.
  unfold bind in Hrun.
  destruct (translate_plot fuel cfg info st) as [info2 st2 | e st2 |];
    try discriminate.
  injection Hrun as _ <- _. exact Hplot.
Qed.

End Orchestrator.

(** C10 on metadata whose title was translated: a second run, with a
    fallback ready to translate again, changes nothing. *)
Lemma translate_title_idempotent_witness :
  exists st',
    translate_movie_info (L := script_detect) 0 (config [] true)
      translated_movie (script false [] [inr (response_ok greeting)])
    = Ret (true, translated_movie) st'
    /\ events st' = [].
Proof.
  destruct (@translate_title_idempotent script_env script_detect 0
              (config [] true) translated_movie
              (script false [] [inr (response_ok greeting)]))
    as (Htitle & _).
  unfold translate_movie_info. unfold bind at 1.
  rewrite (Htitle _ eq_refl). eexists. split; reflexivity.
Defined.


(* ================================================================== *)
(** ** EntityProtector: [str.replace], [protect] and [restore] *)

Unset Implicit Arguments.

Transparent str.

Lemma startswith_prefix (p : pystr) :
  forall s, startswith s p = true <-> exists r, s = p ++ r.
Proof.
  induction p as [|a p IH]; intros s; simpl.
  - split; eauto.
  - destruct s as [|b s].
    + split; [discriminate | intros (r & Hr); discriminate].
    + rewrite andb_true_iff, N.eqb_eq, IH. split.
      * intros (-> & r & ->). eauto.
      * intros (r & Hr). injection Hr as -> ->. eauto.
Qed.

Lemma startswith_app (p r : pystr) : startswith (p ++ r) p = true.
Proof. apply startswith_prefix. eauto. Qed.

(** Two prefixes of one string: one is a prefix of the other. *)
Lemma prefix_comparable (u : pystr) :
  forall v ru rv,
    u ++ ru = v ++ rv ->
    (exists d, v = u ++ d) \/ (exists d, u = v ++ d).
Proof.
  induction u as [|a u IH]; intros v ru rv H.
  - left. exists v. reflexivity.
  - destruct v as [|b v].
    + right. exists (a :: u). reflexivity.
    + injection H as -> H.
      destruct (IH v ru rv H) as [(d & ->) | (d & ->)];
        [left | right]; exists d; reflexivity.
Qed.

Lemma occurs_false (a : pystr) :
  forall l b r, occurs a b = false -> b <> l ++ a ++ r.
Proof.
  induction l as [|c l IH]; intros b r Hb Heq; subst b.
  - assert (Hs : startswith (a ++ r) a = false).
    { destruct (a ++ r); simpl in Hb; apply orb_false_iff in Hb; tauto. }
    rewrite startswith_app in Hs. discriminate.
  - simpl in Hb. apply orb_false_iff in Hb. destruct Hb as [_ Hb].
    exact (IH _ r Hb eq_refl).
Qed.

Lemma startswith_hd (c : char) (s p : pystr) :
  startswith (c :: s) p = true -> p = [] \/ hd_error p = Some c.
Proof.
  destruct p as [|a p]; [auto|]. simpl.
  rewrite andb_true_iff, N.eqb_eq. intros [-> _]. auto.
Qed.

Section Scan.
Variables old new : pystr.
Hypothesis Hold : old <> [].

Lemma replace_scan_skip (s : pystr) :
  forall k, replace_scan old new k s = scan old new (skipn k s).
Proof using Type.
  induction s as [|c s IH]; intros k.
  - destruct k; reflexivity.
  - destruct k as [|k]; [reflexivity|]. simpl. apply IH.
Qed.

Lemma replace_scan_eq (s : pystr) : replace s old new = scan old new s.
Proof using Hold.
  unfold replace, scan. destruct old; [congruence | reflexivity].
Qed.

Lemma scan_nomatch (c : char) (s : pystr) :
  startswith (c :: s) old = false ->
  scan old new (c :: s) = c :: scan old new s.
Proof using Type.
  intros H. unfold scan. simpl. rewrite H. reflexivity.
Qed.

Lemma scan_match (r : pystr) :
  scan old new (old ++ r) = new ++ scan old new r.
Proof using Hold.
  pose proof (startswith_app old r) as Hs.
  assert (Hskip : skipn (length old - 1) (tl (old ++ r)) = r).
  { clear Hs. destruct old as [|a o]; [congruence|]. simpl.
    rewrite Nat.sub_0_r, skipn_app, skipn_all, Nat.sub_diag.
    reflexivity. }
  destruct (old ++ r) as [|c s] eqn:Hor.
  - destruct old; [congruence | discriminate].
  - unfold scan at 1. simpl. rewrite Hs, replace_scan_skip.
    simpl in Hskip. rewrite Hskip. reflexivity.
Qed.

(** A stretch [u] that has nowhere the first character of [old] is copied. *)
Lemma scan_copy (u y : pystr) :
  (forall c, In c u -> hd_error old <> Some c) ->
  scan old new (u ++ y) = u ++ scan old new y.
Proof using Hold.
  induction u as [|c u IH]; intros Hu; simpl.
  - reflexivity.
  - rewrite scan_nomatch.
    + rewrite IH; [reflexivity|]. intros d Hd. apply Hu. right. exact Hd.
    + specialize (Hu c (or_introl eq_refl)).
      destruct (startswith (c :: u ++ y) old) eqn:Hs; [|reflexivity].
      apply startswith_hd in Hs. tauto.
Qed.

(** A clash-free [w] at the head of the output was at the head of the
    input. *)
Lemma scan_prefix (w : pystr) :
  clash_free new w ->
  forall x r, scan old new x = w ++ r -> exists r', x = w ++ r'.
Proof using Hold.
  induction w as [|d w IH]; intros Hw x r Hx.
  - exists x. reflexivity.
  - destruct x as [|c x]; [discriminate|].
    destruct (startswith (c :: x) old) eqn:Hs.
    + apply startswith_prefix in Hs. destruct Hs as (r0 & Hr0).
      rewrite Hr0, scan_match in Hx.
      exfalso. exact (Hw [] (d :: w) (scan old new r0) r eq_refl
                         ltac:(discriminate) Hx).
    + rewrite scan_nomatch in Hx by exact Hs.
      injection Hx as -> Hx.
      destruct (IH (fun w1 w2 rn rw Hsplit =>
                      Hw (d :: w1) w2 rn rw (f_equal (cons d) Hsplit))
                   x r Hx) as (r' & ->).
      exists r'. reflexivity.
Qed.

(** Without an occurrence of [old] nothing is replaced. *)
Lemma scan_absent (s : pystr) :
  occurs old s = false -> scan old new s = s.
Proof using Type.
  induction s as [|c s IH]; intros H.
  - reflexivity.
  - simpl in H. apply orb_false_iff in H. destruct H as [Hs Ho].
    rewrite scan_nomatch by exact Hs. rewrite IH by exact Ho. reflexivity.
Qed.

Lemma clash_free_hd (w : pystr) (n0 : char) :
  hd_error new = Some n0 -> ~ In n0 w -> clash_free new w.
Proof using Type.
  intros Hn Hin w1 w2 rn rw Hsplit Hw2 Heq.
  destruct new as [|n new']; [discriminate|]. injection Hn as ->.
  destruct w2 as [|c w2]; [congruence|]. injection Heq as -> _.
  apply Hin. rewrite Hsplit. apply in_or_app. right. left. reflexivity.
Qed.

End Scan.


(** *** Tokens *)

Lemma token_eq (e : pystr) :
  token e = 91%N :: str "ACTRESS:" ++ e ++ [93%N].
Proof. reflexivity. Qed.

Lemma token_not_nil (e : pystr) : token e <> [].
Proof. rewrite token_eq. discriminate. Qed.

Lemma token_hd (e : pystr) : hd_error (token e) = Some 91%N.
Proof. reflexivity. Qed.

Lemma name_ok_open (e : pystr) : name_ok e -> ~ In 91%N e.
Proof. intros [_ H] Hin. apply (H _ Hin). vm_compute. tauto. Qed.

Lemma name_ok_close (e : pystr) : name_ok e -> ~ In 93%N e.
Proof. intros [_ H] Hin. apply (H _ Hin). vm_compute. tauto. Qed.

Lemma name_ok_inner (e : pystr) (c : char) :
  name_ok e -> In c (str "ACTRESS:") -> ~ In c e.
Proof.
  intros [_ H] Hc Hin. apply (H _ Hin).
  change frame with (91%N :: str "ACTRESS:" ++ [93%N]).
  right. apply in_or_app. left. exact Hc.
Qed.

Lemma name_ok_hd (e : pystr) :
  name_ok e -> exists c e', e = c :: e' /\ ~ In c frame.
Proof.
  intros [Hne H]. destruct e as [|c e']; [congruence|].
  exists c, e'. split; [reflexivity|]. apply H. left. reflexivity.
Qed.

(** A token at the head of a string that starts with a token: the same
    name. *)
Lemma close_prefix_inj (b : pystr) :
  forall a r rb,
    ~ In 93%N a -> ~ In 93%N b ->
    a ++ 93%N :: r = b ++ 93%N :: rb -> a = b.
Proof.
  induction b as [|d b IH]; intros a r rb Ha Hb H.
  - destruct a as [|c a]; [reflexivity|]. injection H as -> _.
    exfalso. apply Ha. left. reflexivity.
  - destruct a as [|c a].
    + injection H as <- _. exfalso. apply Hb. left. reflexivity.
    + injection H as -> H. f_equal.
      apply (IH a r rb); [| |exact H].
      * intros Hin. apply Ha. right. exact Hin.
      * intros Hin. apply Hb. right. exact Hin.
Qed.

Lemma token_prefix_inj (a b r : pystr) :
  name_ok a -> name_ok b ->
  startswith (token a ++ r) (token b) = true -> a = b.
Proof.
  intros Ha Hb Hs. apply startswith_prefix in Hs. destruct Hs as (rb & Hs).
  rewrite !token_eq in Hs. simpl in Hs. injection Hs as Hs.
  rewrite <- !app_assoc in Hs. simpl in Hs.
  apply (close_prefix_inj b a r rb (name_ok_close a Ha) (name_ok_close b Hb) Hs).
Qed.

(** The restoration of [b] copies a token of another name [a]. *)
Lemma token_copy (a b r : pystr) :
  name_ok a -> name_ok b -> a <> b ->
  scan (token b) b (token a ++ r) = token a ++ scan (token b) b r.
Proof.
  intros Ha Hb Hab.
  assert (Hs : startswith (token a ++ r) (token b) = false).
  { destruct (startswith (token a ++ r) (token b)) eqn:Hs; [|reflexivity].
    exfalso. apply Hab. exact (token_prefix_inj a b r Ha Hb Hs). }
  remember (str "ACTRESS:" ++ a ++ [93%N]) as rest eqn:Hrest.
  assert (Ht : token a = 91%N :: rest) by (subst rest; reflexivity).
  rewrite Ht in Hs |- *.
  change ((91%N :: rest) ++ r) with (91%N :: rest ++ r) in Hs |- *.
  transitivity (91%N :: scan (token b) b (rest ++ r));
    [exact (scan_nomatch (token b) b 91%N (rest ++ r) Hs)|].
  simpl. f_equal. apply (scan_copy (token b) b (token_not_nil b)).
  intros c Hc.
  rewrite token_hd. intros Heq. injection Heq as <-.
  subst rest. apply in_app_or in Hc. destruct Hc as [Hc | Hc].
  - vm_compute in Hc. intuition discriminate.
  - apply in_app_or in Hc. destruct Hc as [Hc | [Hc | []]].
    + exact (name_ok_open a Ha Hc).
    + discriminate.
Qed.

Lemma inside_clash (a b l l2 rn rw : pystr) :
  a = l ++ l2 -> name_ok b -> occurs b a = false ->
  b ++ rn = (l2 ++ [93%N]) ++ rw -> False.
Proof.
  intros Ha Hb Hocc Heq.
  destruct (prefix_comparable b (l2 ++ [93%N]) rn rw Heq)
    as [(d & Hd) | (d & Hd)].
  - destruct d as [|d0 d1].
    + rewrite app_nil_r in Hd. apply (name_ok_close b Hb).
      rewrite <- Hd. apply in_or_app. right. left. reflexivity.
    + destruct (@exists_last _ (d0 :: d1) ltac:(discriminate))
        as (d' & x & Hlast).
      rewrite Hlast, app_assoc in Hd. apply app_inj_tail in Hd.
      destruct Hd as [Hl2 _].
      apply (occurs_false b l a d' Hocc). rewrite Ha, Hl2. reflexivity.
  - apply (name_ok_close b Hb). rewrite Hd.
    apply in_or_app. left. apply in_or_app. right. left. reflexivity.
Qed.

(** The restoration of [b] cannot produce the token of a name [a] in which
    [b] does not occur. *)
Lemma token_clash_free (a b : pystr) :
  name_ok a -> name_ok b -> occurs b a = false ->
  clash_free b (token a).
Proof.
  intros Ha Hb Hocc w1 w2 rn rw Hsplit Hw2 Heq.
  destruct (name_ok_hd b Hb) as (b0 & b' & Hbeq & Hb0).
  change (token a) with (str "[ACTRESS:" ++ (a ++ [93%N])) in Hsplit.
  apply app_eq_app in Hsplit.
  destruct Hsplit as (l & [[Hopen Hw] | [Hw1 Hin]]).
  - destruct l as [|c l].
    + simpl in Hw. subst w2.
      exact (inside_clash a b [] a rn rw eq_refl Hb Hocc Heq).
    + subst w2 b. injection Heq as -> _.
      apply Hb0. change frame with (str "[ACTRESS:" ++ [93%N]).
      apply in_or_app. left. rewrite Hopen.
      apply in_or_app. right. left. reflexivity.
  - apply app_eq_app in Hin.
    destruct Hin as (l2 & [[Hal Hw] | [Hl Hclose]]).
    + subst w2. exact (inside_clash a b l l2 rn rw Hal Hb Hocc Heq).
    + destruct l2 as [|x l2].
      * simpl in Hclose. subst w2 b. injection Heq as -> _.
        apply Hb0. vm_compute. tauto.
      * injection Hclose as _ Hnil. destruct l2; [|discriminate].
        simpl in Hnil. apply Hw2. symmetry. exact Hnil.
Qed.

(** The restoration of [b] puts a token of [a] at the head only where one
    was. *)
Lemma token_prefix_scan (a b x : pystr) :
  name_ok a -> name_ok b -> occurs b a = false ->
  startswith (scan (token b) b x) (token a) = true ->
  startswith x (token a) = true.
Proof.
  intros Ha Hb Hocc Hs. apply startswith_prefix in Hs.
  destruct Hs as (r & Hr). apply startswith_prefix.
  exact (scan_prefix (token b) b (token_not_nil b) (token a)
           (token_clash_free a b Ha Hb Hocc) x r Hr).
Qed.

Lemma inner_not_open (c : char) : In c (str "ACTRESS:") -> c <> 91%N.
Proof. intros Hin ->. vm_compute in Hin. intuition discriminate. Qed.

Lemma inner_in_frame (c : char) : In c (str "ACTRESS:") -> In c frame.
Proof.
  intros Hin. change frame with (91%N :: str "ACTRESS:" ++ [93%N]).
  right. apply in_or_app. left. exact Hin.
Qed.

(** The protection of [e] never puts a token of [e] where [e] does not
    start. *)
Lemma protect_no_token (e : pystr) (c : char) (s : pystr) :
  name_ok e ->
  startswith (c :: s) e = false ->
  startswith (c :: scan e (token e) s) (token e) = false.
Proof.
  intros He Hs. pose proof He as [Hne _].
  destruct (startswith (c :: scan e (token e) s) (token e)) eqn:Ht;
    [|reflexivity].
  exfalso. apply startswith_prefix in Ht. destruct Ht as (r0 & Hr0).
  remember (scan e (token e) s) as out eqn:Hout.
  rewrite token_eq in Hr0.
  remember (str "ACTRESS:") as inner eqn:Hinner.
  simpl in Hr0. injection Hr0 as -> Hr0.
  assert (Hr1 : scan e (token e) s = (inner ++ e) ++ 93%N :: r0).
  { rewrite <- Hout, Hr0, <- !app_assoc. reflexivity. }
  clear Hout Hr0.
  assert (Hfree : clash_free (token e) (inner ++ e)).
  { apply (clash_free_hd (token e) (inner ++ e) 91%N (token_hd e)).
    intros Hin. apply in_app_or in Hin. destruct Hin as [Hin | Hin].
    - subst inner. exact (inner_not_open 91%N Hin eq_refl).
    - exact (name_ok_open e He Hin). }
  destruct (scan_prefix e (token e) Hne (inner ++ e) Hfree s _ Hr1)
    as (r' & Hr').
  subst s. rewrite <- !app_assoc in Hr1.
  destruct (name_ok_hd e He) as (e0 & e' & Hee & He0).
  rewrite (scan_copy e (token e) Hne inner (e ++ r')) in Hr1.
  - rewrite (scan_match e (token e) Hne) in Hr1.
    apply app_inv_head in Hr1.
    rewrite token_eq, Hee in Hr1. simpl in Hr1. injection Hr1 as <- _.
    apply He0. vm_compute. tauto.
  - intros d Hd Hhd. rewrite Hee in Hhd. injection Hhd as ->.
    apply He0. subst inner. exact (inner_in_frame d Hd).
Qed.

(** Protecting then restoring one name gives the text back. *)
Lemma roundtrip_one (e : pystr) :
  name_ok e ->
  forall n s, (length s <= n)%nat ->
    scan (token e) e (scan e (token e) s) = s.
Proof.
  intros He. pose proof He as [Hne _].
  induction n as [|n IH]; intros s Hlen.
  - destruct s; [reflexivity | simpl in Hlen; lia].
  - destruct s as [|c s]; [reflexivity|].
    destruct (startswith (c :: s) e) eqn:Hs.
    + apply startswith_prefix in Hs. destruct Hs as (r & Hr).
      rewrite Hr, (scan_match e (token e) Hne).
      rewrite (scan_match (token e) e (token_not_nil e)).
      rewrite IH; [reflexivity|].
      apply (f_equal (@length _)) in Hr. rewrite length_app in Hr.
      simpl in Hr, Hlen. destruct e; [congruence | simpl in Hr; lia].
    + rewrite (scan_nomatch e (token e) c s Hs).
      rewrite (scan_nomatch (token e) e c _
                 (protect_no_token e c s He Hs)).
      rewrite IH; [reflexivity | simpl in Hlen; lia].
Qed.

Lemma independent_neq (a b : pystr) :
  occurs a b = false -> a <> b.
Proof.
  intros Hocc ->. apply (occurs_false b [] b [] Hocc).
  rewrite app_nil_r. reflexivity.
Qed.

(** One side of the commutation: the text starts with a token of [a]. *)
Lemma restore_comm_token (a b r : pystr) :
  name_ok a -> name_ok b -> a <> b ->
  scan (token a) a (scan (token b) b r)
  = scan (token b) b (scan (token a) a r) ->
  scan (token a) a (scan (token b) b (token a ++ r))
  = scan (token b) b (scan (token a) a (token a ++ r)).
Proof.
  intros Ha Hb Hab IH.
  rewrite (token_copy a b r Ha Hb Hab).
  rewrite !(scan_match (token a) a (token_not_nil a)).
  rewrite (scan_copy (token b) b (token_not_nil b) a).
  - rewrite IH. reflexivity.
  - intros c Hc. rewrite token_hd. intros Heq. injection Heq as <-.
    exact (name_ok_open a Ha Hc).
Qed.

(** Restoring two independent names commutes, on every text. *)
Lemma restore_comm (a b : pystr) :
  name_ok a -> name_ok b -> independent a b ->
  forall n s, (length s <= n)%nat ->
    scan (token a) a (scan (token b) b s)
    = scan (token b) b (scan (token a) a s).
Proof.
  intros Ha Hb [-> | [Hab Hba]]; [reflexivity|].
  pose proof (independent_neq a b Hab) as Hne.
  assert (Hlen : forall (e : pystr) r, (length r < length (token e ++ r))%nat).
  { intros e r. rewrite length_app, token_eq. simpl. lia. }
  induction n as [|n IH]; intros s Hn.
  - destruct s; [reflexivity | simpl in Hn; lia].
  - destruct s as [|c s]; [reflexivity|].
    destruct (startswith (c :: s) (token a)) eqn:Hsa.
    + apply startswith_prefix in Hsa. destruct Hsa as (r & Hr).
      rewrite Hr. apply (restore_comm_token a b r Ha Hb Hne).
      apply IH. pose proof (Hlen a r) as Hl. rewrite <- Hr in Hl.
      simpl in Hl, Hn. lia.
    + destruct (startswith (c :: s) (token b)) eqn:Hsb.
      * apply startswith_prefix in Hsb. destruct Hsb as (r & Hr).
        rewrite Hr. symmetry.
        apply (restore_comm_token b a r Hb Ha (fun H => Hne (eq_sym H))).
        symmetry. apply IH. pose proof (Hlen b r) as Hl.
        rewrite <- Hr in Hl. simpl in Hl, Hn. lia.
      * rewrite (scan_nomatch (token a) a c s Hsa).
        rewrite (scan_nomatch (token b) b c s Hsb).
        rewrite (scan_nomatch (token a) a c (scan (token b) b s)).
        -- rewrite (scan_nomatch (token b) b c (scan (token a) a s)).
           ++ rewrite IH; [reflexivity | simpl in Hn; lia].
           ++ destruct (startswith (c :: scan (token a) a s) (token b))
                eqn:Ht; [|reflexivity].
              rewrite <- (scan_nomatch (token a) a c s Hsa) in Ht.
              apply (token_prefix_scan b a (c :: s) Hb Ha Hab) in Ht.
              congruence.
        -- destruct (startswith (c :: scan (token b) b s) (token a))
             eqn:Ht; [|reflexivity].
           rewrite <- (scan_nomatch (token b) b c s Hsb) in Ht.
           apply (token_prefix_scan a b (c :: s) Ha Hb Hba) in Ht.
           congruence.
Qed.

Lemma replace_name (e s : pystr) :
  name_ok e -> replace s e (token e) = scan e (token e) s.
Proof. intros [Hne _]. apply (replace_scan_eq e (token e) Hne). Qed.

Lemma replace_token (e s : pystr) :
  replace s (token e) e = scan (token e) e s.
Proof. apply (replace_scan_eq (token e) e (token_not_nil e)). Qed.

Lemma restore_cons (e : pystr) (es : list pystr) (x : pystr) :
  restore (e :: es) x = restore es (scan (token e) e x).
Proof.
  unfold restore. cbn [fold_left]. rewrite replace_token. reflexivity.
Qed.

Lemma protect_cons (e : pystr) (es : list pystr) (t : pystr) :
  name_ok e -> protect (e :: es) t = protect es (scan e (token e) t).
Proof.
  intros He. unfold protect. cbn [fold_left]. rewrite (replace_name e t He).
  reflexivity.
Qed.

(** The restoration of one name can be moved after that of the others. *)
Lemma restore_last (e : pystr) (es : list pystr) :
  name_ok e ->
  (forall b, In b es -> name_ok b /\ independent e b) ->
  forall x,
    restore es (scan (token e) e x) = scan (token e) e (restore es x).
Proof.
  intros He. induction es as [|b es IH]; intros Hes x.
  - reflexivity.
  - rewrite !restore_cons.
    destruct (Hes b (or_introl eq_refl)) as [Hb Hind].
    rewrite <- (restore_comm e b He Hb Hind (length x) x (le_n _)).
    apply IH. intros b' Hb'. apply Hes. right. exact Hb'.
Qed.

Lemma protect_restore (es : list pystr) :
  names_ok es -> forall t, restore es (protect es t) = t.
Proof.
  induction es as [|e es IH]; intros [Hok Hind] t.
  - reflexivity.
  - assert (He : name_ok e) by (apply Hok; left; reflexivity).
    rewrite (protect_cons e es t He), restore_cons.
    rewrite (restore_last e es He).
    + rewrite IH.
      * apply (roundtrip_one e He (length t) t (le_n _)).
      * split.
        -- intros b Hb. apply Hok. right. exact Hb.
        -- intros a b Ha Hb. apply Hind; right; assumption.
    + intros b Hb. split.
      * apply Hok. right. exact Hb.
      * apply Hind; [left; reflexivity | right; exact Hb].
Qed.

Lemma restore_absent (es : list pystr) :
  forall translated,
    (forall name, In name es -> occurs (token name) translated = false) ->
    restore es translated = translated.
Proof.
  induction es as [|e es IH]; intros x Hx.
  - reflexivity.
  - rewrite restore_cons.
    rewrite (scan_absent (token e) e x (Hx e (or_introl eq_refl))).
    apply IH. intros name Hn. apply Hx. right. exact Hn.
Qed.

Lemma flatten_app (a b : list seg) : flatten (a ++ b) = flatten a ++ flatten b.
Proof. apply flat_map_app. Qed.

Lemma erase_app (a b : list seg) : erase (a ++ b) = erase a ++ erase b.
Proof. apply flat_map_app. Qed.

Lemma flatten_lits (w : pystr) : flatten (map Lit w) = w.
Proof. induction w as [|c w IH]; simpl; [|rewrite IH]; reflexivity. Qed.

Lemma erase_lits (w : pystr) : erase (map Lit w) = w.
Proof. induction w as [|c w IH]; simpl; [|rewrite IH]; reflexivity. Qed.

Lemma starts_lit_spec (e : pystr) :
  forall segs, starts_lit segs e = true <-> exists r, segs = map Lit e ++ r.
Proof.
  induction e as [|a e IH]; intros segs; simpl.
  - split; eauto.
  - destruct segs as [|[c|d] r].
    + split; [discriminate | intros (r & Hr); discriminate].
    + rewrite andb_true_iff, N.eqb_eq, IH. split.
      * intros (<- & r' & ->). eauto.
      * intros (r' & Hr). injection Hr as -> ->. eauto.
    + split; [discriminate | intros (r' & Hr); discriminate].
Qed.

Lemma token_hd_flatten (d : pystr) (r : pystr) :
  exists x, token d ++ r = 91%N :: x.
Proof. rewrite token_eq. simpl. eauto. Qed.

(** A match of a name without an opening bracket lies outside the
    tokens. *)
Lemma startswith_flatten (e : pystr) :
  ~ In 91%N e ->
  forall segs, startswith (flatten segs) e = true -> starts_lit segs e = true.
Proof.
  induction e as [|a e IH]; intros He segs Hs; [reflexivity|].
  destruct segs as [|[c|d] r].
  - discriminate.
  - simpl in Hs |- *. apply andb_true_iff in Hs. destruct Hs as [Hc Hs].
    rewrite Hc. simpl. apply IH; [|exact Hs].
    intros Hin. apply He. right. exact Hin.
  - exfalso. change (flatten (Tok d :: r)) with (token d ++ flatten r) in Hs.
    destruct (token_hd_flatten d (flatten r)) as (x & Hx). rewrite Hx in Hs.
    simpl in Hs. apply andb_true_iff in Hs. destruct Hs as [Hc _].
    apply N.eqb_eq in Hc. apply He. left. exact Hc.
Qed.

Lemma suffix_last (body : pystr) (z : char) :
  forall w1 w2, body ++ [z] = w1 ++ w2 -> w2 <> [] ->
                exists w2', w2 = w2' ++ [z].
Proof.
  intros w1 w2 H Hne.
  destruct (exists_last Hne) as (x & a & ->).
  rewrite app_assoc in H. apply app_inj_tail in H. destruct H as [_ ->].
  eauto.
Qed.

(** The scan for [old] copies a stretch [tok] that ends with a character
    [old] does not have and in which [old] does not occur. *)
Lemma scan_through (old new body : pystr) (z : char) :
  old <> [] -> ~ In z old -> occurs old (body ++ [z]) = false ->
  forall w1 w2 rest,
    body ++ [z] = w1 ++ w2 ->
    scan old new (w2 ++ rest) = w2 ++ scan old new rest.
Proof.
  intros Hold Hz Hocc w1 w2. revert w1.
  induction w2 as [|c w2 IH]; intros w1 rest Hsplit; [reflexivity|].
  simpl. rewrite scan_nomatch.
  - f_equal. apply (IH (w1 ++ [c])). rewrite <- app_assoc. exact Hsplit.
  - destruct (startswith (c :: w2 ++ rest) old) eqn:Hs; [|reflexivity].
    exfalso. apply startswith_prefix in Hs. destruct Hs as (r & Hr).
    change (c :: w2 ++ rest) with ((c :: w2) ++ rest) in Hr.
    symmetry in Hr.
    destruct (prefix_comparable old (c :: w2) r rest Hr)
      as [(d & Hd) | (d & Hd)].
    + apply (occurs_false old w1 (body ++ [z]) d Hocc).
      rewrite Hsplit, Hd. reflexivity.
    + destruct (suffix_last body z w1 (c :: w2) Hsplit ltac:(discriminate))
        as (w2' & Hw2').
      rewrite Hw2' in Hd, Hr. rewrite Hd in Hr.
      rewrite <- !app_assoc in Hr. apply app_inv_head in Hr.
      destruct d as [|d0 d1].
      * apply Hz. rewrite Hd, app_nil_r. apply in_or_app. right. left.
        reflexivity.
      * (* old = (w2' ++ [z]) ++ d0 :: d1 *)
        apply Hz. rewrite Hd. apply in_or_app. left. apply in_or_app.
        right. left. reflexivity.
Qed.

Lemma wrap_scan_skip (e : pystr) (segs : list seg) :
  forall k, wrap_scan e k segs = wrap e (skipn k segs).
Proof.
  induction segs as [|s segs IH]; intros k.
  - destruct k; reflexivity.
  - destruct k as [|k]; [reflexivity|]. simpl. apply IH.
Qed.

Lemma wrap_nomatch (e : pystr) (s : seg) (r : list seg) :
  starts_lit (s :: r) e = false -> wrap e (s :: r) = s :: wrap e r.
Proof. intros H. unfold wrap. cbn [wrap_scan]. rewrite H. reflexivity. Qed.

Lemma wrap_match (e : pystr) (r : list seg) :
  e <> [] -> wrap e (map Lit e ++ r) = Tok e :: wrap e r.
Proof.
  intros He. destruct e as [|a e]; [congruence|].
  assert (Hs : starts_lit (map Lit (a :: e) ++ r) (a :: e) = true).
  { apply starts_lit_spec. eauto. }
  unfold wrap at 1. cbn [map app wrap_scan] in Hs |- *. rewrite Hs.
  rewrite wrap_scan_skip. f_equal. f_equal.
  cbn [length]. rewrite Nat.sub_succ, Nat.sub_0_r.
  rewrite <- (length_map Lit e), skipn_app, skipn_all, Nat.sub_diag.
  reflexivity.
Qed.

(** Case analysis on the head of a scan. *)
Lemma wrap_cases (e : pystr) (segs : list seg) :
  e <> [] ->
  segs = []
  \/ (exists r, segs = map Lit e ++ r /\ wrap e segs = Tok e :: wrap e r
                /\ length r < length segs)
  \/ (exists s r, segs = s :: r /\ starts_lit segs e = false
                  /\ wrap e segs = s :: wrap e r).
Proof.
  intros He. destruct segs as [|s r]; [auto|]. right.
  destruct (starts_lit (s :: r) e) eqn:Hs.
  - left. apply starts_lit_spec in Hs. destruct Hs as (r' & Hr').
    exists r'. rewrite Hr'. split; [reflexivity|].
    split; [apply wrap_match; exact He|].
    rewrite length_app, length_map. destruct e; [congruence | simpl; lia].
  - right. exists s, r. split; [reflexivity|]. split; [reflexivity|].
    apply wrap_nomatch. exact Hs.
Qed.

Lemma token_split (d : pystr) : token d = (91%N :: str "ACTRESS:" ++ d) ++ [93%N].
Proof. rewrite token_eq. simpl. reflexivity. Qed.

(** The protection of [e] on the text is its protection on the segments,
    when [e] occurs in no token. *)
Lemma wrap_flatten (e : pystr) :
  plain_name e ->
  forall n segs,
    length segs <= n ->
    (forall d, In (Tok d) segs -> occurs e (token d) = false) ->
    flatten (wrap e segs) = scan e (token e) (flatten segs).
Proof.
  intros (He & Hopen & Hclose).
  induction n as [|n IH]; intros segs Hlen Htok.
  - destruct segs; [reflexivity | simpl in Hlen; lia].
  - destruct (wrap_cases e segs He)
      as [-> | [(r & Hsegs & Hw & Hr) | (s & r & Hsegs & Hs & Hw)]].
    + reflexivity.
    + rewrite Hw, Hsegs.
      rewrite flatten_app, flatten_lits, (scan_match e (token e) He).
      change (flatten (Tok e :: wrap e r)) with (token e ++ flatten (wrap e r)).
      f_equal. apply IH; [lia|].
      intros d Hd. apply Htok. rewrite Hsegs. apply in_or_app. right. exact Hd.
    + rewrite Hw. subst segs.
      assert (Hrec : flatten (wrap e r) = scan e (token e) (flatten r)).
      { apply IH; [simpl in Hlen; lia|].
        intros d Hd. apply Htok. right. exact Hd. }
      destruct s as [c|d].
      * change (flatten (Lit c :: wrap e r)) with (c :: flatten (wrap e r)).
        change (flatten (Lit c :: r)) with (c :: flatten r).
        rewrite scan_nomatch; [rewrite Hrec; reflexivity|].
        destruct (startswith (c :: flatten r) e) eqn:Hm; [|reflexivity].
        apply (startswith_flatten e Hopen (Lit c :: r)) in Hm. congruence.
      * change (flatten (Tok d :: wrap e r)) with (token d ++ flatten (wrap e r)).
        change (flatten (Tok d :: r)) with (token d ++ flatten r).
        rewrite Hrec. symmetry.
        apply (scan_through e (token e) (91%N :: str "ACTRESS:" ++ d) 93%N
                 He Hclose) with (w1 := []).
        -- rewrite <- token_split. apply Htok. left. reflexivity.
        -- rewrite <- token_split. reflexivity.
Qed.

Lemma erase_wrap (e : pystr) :
  e <> [] ->
  forall n segs, length segs <= n -> erase (wrap e segs) = erase segs.
Proof.
  intros He. induction n as [|n IH]; intros segs Hlen.
  - destruct segs; [reflexivity | simpl in Hlen; lia].
  - destruct (wrap_cases e segs He)
      as [-> | [(r & Hsegs & Hw & Hr) | (s & r & Hsegs & Hs & Hw)]].
    + reflexivity.
    + rewrite Hw, Hsegs. rewrite erase_app, erase_lits.
      change (erase (Tok e :: wrap e r)) with (e ++ erase (wrap e r)).
      f_equal. apply IH. lia.
    + rewrite Hw. subst segs.
      assert (Hrec : erase (wrap e r) = erase r)
        by (apply IH; simpl in Hlen; lia).
      destruct s as [c|d];
        [change (c :: erase (wrap e r) = c :: erase r)
        |change (d ++ erase (wrap e r) = d ++ erase r)];
        rewrite Hrec; reflexivity.
Qed.

Lemma in_wrap (e : pystr) :
  e <> [] ->
  forall n segs d,
    length segs <= n ->
    In (Tok d) (wrap e segs) -> d = e \/ In (Tok d) segs.
Proof.
  intros He. induction n as [|n IH]; intros segs d Hlen Hin.
  - destruct segs; [contradiction | simpl in Hlen; lia].
  - destruct (wrap_cases e segs He)
      as [-> | [(r & Hsegs & Hw & Hr) | (s & r & Hsegs & Hs & Hw)]].
    + contradiction.
    + rewrite Hw in Hin. destruct Hin as [Hin | Hin].
      * injection Hin as <-. auto.
      * destruct (IH r d ltac:(lia) Hin) as [-> | Hd]; [auto|].
        right. rewrite Hsegs. apply in_or_app. auto.
    + rewrite Hw in Hin. subst segs. destruct Hin as [<- | Hin].
      * right. left. reflexivity.
      * destruct (IH r d ltac:(simpl in Hlen; lia) Hin) as [-> | Hd]; [auto|].
        right. right. exact Hd.
Qed.

(** Characters at the head of the output of a scan were at the head of its
    input. *)
Lemma wrap_prefix (e : pystr) :
  e <> [] ->
  forall w segs r,
    wrap e segs = map Lit w ++ r -> exists r', segs = map Lit w ++ r'.
Proof.
  intros He. induction w as [|a w IH]; intros segs r H; [simpl; eauto|].
  destruct (wrap_cases e segs He)
    as [-> | [(r0 & Hsegs & Hw & Hr) | (s & r0 & Hsegs & Hs & Hw)]].
  - discriminate.
  - rewrite Hw in H. discriminate.
  - rewrite Hw in H. injection H as -> H.
    destruct (IH r0 r H) as (r' & ->). subst segs. exists r'. reflexivity.
Qed.

(** After the protection of [e] no stretch outside tokens spells [e]. *)
Lemma wrap_no_window (e : pystr) :
  e <> [] ->
  forall n segs, length segs <= n -> no_window e (wrap e segs).
Proof.
  intros He. induction n as [|n IH]; intros segs Hlen l r H.
  - destruct segs; [|simpl in Hlen; lia].
    destruct l; [destruct e; [congruence | discriminate] | discriminate].
  - destruct (wrap_cases e segs He)
      as [-> | [(r0 & Hsegs & Hw & Hr) | (s & r0 & Hsegs & Hs & Hw)]].
    + destruct l; [destruct e; [congruence | discriminate] | discriminate].
    + rewrite Hw in H. destruct l as [|x l].
      * destruct e; [congruence | discriminate].
      * injection H as _ H. exact (IH r0 ltac:(lia) l r H).
    + destruct l as [|x l].
      * simpl in H. destruct (wrap_prefix e He e segs r H) as (r' & Hr').
        assert (Hm : starts_lit segs e = true)
          by (apply starts_lit_spec; eauto).
        congruence.
      * rewrite Hw in H. injection H as _ H. subst segs.
        exact (IH r0 ltac:(simpl in Hlen; lia) l r H).
Qed.

(** A stretch outside tokens after a protection was outside tokens
    before. *)
Lemma wrap_window (e : pystr) (w : pystr) :
  e <> [] ->
  forall n segs l r,
    length segs <= n ->
    wrap e segs = l ++ map Lit w ++ r ->
    exists l' r', segs = l' ++ map Lit w ++ r'.
Proof.
  intros He. induction n as [|n IH]; intros segs l r Hlen H.
  - destruct segs; [|simpl in Hlen; lia].
    exists l, r. exact H.
  - destruct l as [|x l].
    + simpl in H. destruct (wrap_prefix e He w segs r H) as (r' & ->).
      exists [], r'. reflexivity.
    + destruct (wrap_cases e segs He)
        as [-> | [(r0 & Hsegs & Hw & Hr) | (s & r0 & Hsegs & Hs & Hw)]].
      * discriminate.
      * rewrite Hw in H. injection H as _ H.
        destruct (IH r0 l r ltac:(lia) H) as (l' & r' & ->).
        exists (map Lit e ++ l'), r'. rewrite Hsegs, <- app_assoc.
        reflexivity.
      * rewrite Hw in H. injection H as _ H. subst segs.
        destruct (IH r0 l r ltac:(simpl in Hlen; lia) H) as (l' & r' & ->).
        exists (s :: l'), r'. reflexivity.
Qed.

Lemma unwrap_cons (e : pystr) (s : seg) (r : list seg) :
  unwrap e (s :: r)
  = match s with
    | Tok d => if list_eq_dec N.eq_dec d e then map Lit e else [s]
    | Lit _ => [s]
    end ++ unwrap e r.
Proof. reflexivity. Qed.

Lemma unwrap_tok (e : pystr) (r : list seg) :
  unwrap e (Tok e :: r) = map Lit e ++ unwrap e r.
Proof.
  rewrite unwrap_cons. destruct (list_eq_dec N.eq_dec e e); [reflexivity|].
  congruence.
Qed.

Lemma unwrap_other (e d : pystr) (r : list seg) :
  d <> e -> unwrap e (Tok d :: r) = Tok d :: unwrap e r.
Proof.
  intros Hd. rewrite unwrap_cons.
  destruct (list_eq_dec N.eq_dec d e); [congruence | reflexivity].
Qed.

Lemma unwrap_lit (e : pystr) (c : char) (r : list seg) :
  unwrap e (Lit c :: r) = Lit c :: unwrap e r.
Proof. reflexivity. Qed.

Lemma erase_unwrap (e : pystr) (segs : list seg) :
  erase (unwrap e segs) = erase segs.
Proof.
  induction segs as [|[c|d] r IH].
  - reflexivity.
  - rewrite unwrap_lit. simpl. rewrite IH. reflexivity.
  - destruct (list_eq_dec N.eq_dec d e) as [-> | Hd].
    + rewrite unwrap_tok, erase_app, erase_lits, IH. reflexivity.
    + rewrite (unwrap_other e d r Hd).
      change (d ++ erase (unwrap e r) = d ++ erase r). rewrite IH.
      reflexivity.
Qed.

Lemma in_unwrap (e d : pystr) (segs : list seg) :
  In (Tok d) (unwrap e segs) -> In (Tok d) segs /\ d <> e.
Proof.
  induction segs as [|[c|d'] r IH]; intros Hin.
  - contradiction.
  - rewrite unwrap_lit in Hin. destruct Hin as [Hin | Hin]; [discriminate|].
    destruct (IH Hin). split; [right|]; assumption.
  - destruct (list_eq_dec N.eq_dec d' e) as [-> | Hd].
    + rewrite unwrap_tok in Hin. apply in_app_or in Hin.
      destruct Hin as [Hin | Hin].
      * apply in_map_iff in Hin. destruct Hin as (x & Hx & _). discriminate.
      * destruct (IH Hin). split; [right|]; assumption.
    + rewrite (unwrap_other e d' r Hd) in Hin. destruct Hin as [Hin | Hin].
      * injection Hin as ->. split; [left; reflexivity | exact Hd].
      * destruct (IH Hin). split; [right|]; assumption.
Qed.

(** A token at the head of a text that starts with a token: the same
    name. *)
Lemma token_prefix_plain (a b r : pystr) :
  ~ In 93%N a -> ~ In 93%N b ->
  startswith (token a ++ r) (token b) = true -> a = b.
Proof.
  intros Ha Hb Hs. apply startswith_prefix in Hs. destruct Hs as (rb & Hs).
  rewrite !token_eq in Hs. simpl in Hs. injection Hs as Hs.
  rewrite <- !app_assoc in Hs. simpl in Hs.
  exact (close_prefix_inj b a r rb Ha Hb Hs).
Qed.

(** The restoration of [e] on the text is its restoration on the
    segments, when no stretch outside tokens spells the token of [e]. *)
Lemma unwrap_flatten (e : pystr) :
  ~ In 91%N e -> ~ In 93%N e ->
  forall segs,
    (forall d, In (Tok d) segs -> ~ In 91%N d /\ ~ In 93%N d) ->
    no_window (token e) segs ->
    flatten (unwrap e segs) = scan (token e) e (flatten segs).
Proof.
  intros Hopen Hclose.
  induction segs as [|[c|d] r IH]; intros Htok Hwin.
  - reflexivity.
  - assert (Hrec : flatten (unwrap e r) = scan (token e) e (flatten r)).
    { apply IH.
      - intros d Hd. apply Htok. right. exact Hd.
      - intros l r' H. apply (Hwin (Lit c :: l) r'). rewrite H. reflexivity. }
    rewrite unwrap_lit.
    change (c :: flatten (unwrap e r) = scan (token e) e (c :: flatten r)).
    rewrite scan_nomatch; [rewrite Hrec; reflexivity|].
    destruct (startswith (c :: flatten r) (token e)) eqn:Hm; [|reflexivity].
    exfalso. rewrite token_eq in Hm. cbn [startswith] in Hm.
    apply andb_true_iff in Hm. destruct Hm as [Hc Hm].
    apply N.eqb_eq in Hc. subst c.
    apply (startswith_flatten (str "ACTRESS:" ++ e ++ [93%N])) in Hm.
    + apply starts_lit_spec in Hm. destruct Hm as (r' & Hr').
      apply (Hwin [] r'). rewrite Hr', token_eq. reflexivity.
    + intros Hin. apply in_app_or in Hin. destruct Hin as [Hin | Hin].
      * vm_compute in Hin. intuition discriminate.
      * apply in_app_or in Hin. destruct Hin as [Hin | [Hin | []]];
          [exact (Hopen Hin) | discriminate].
  - assert (Hrec : flatten (unwrap e r) = scan (token e) e (flatten r)).
    { apply IH.
      - intros d' Hd. apply Htok. right. exact Hd.
      - intros l r' H. apply (Hwin (Tok d :: l) r'). rewrite H. reflexivity. }
    destruct (Htok d (or_introl eq_refl)) as [Hdo Hdc].
    destruct (list_eq_dec N.eq_dec d e) as [-> | Hd].
    + rewrite unwrap_tok, flatten_app, flatten_lits.
      change (flatten (Tok e :: r)) with (token e ++ flatten r).
      rewrite (scan_match (token e) e (token_not_nil e)), Hrec. reflexivity.
    + rewrite (unwrap_other e d r Hd).
      change (token d ++ flatten (unwrap e r)
              = scan (token e) e (token d ++ flatten r)).
      rewrite Hrec.
      assert (Hs : startswith (token d ++ flatten r) (token e) = false).
      { destruct (startswith (token d ++ flatten r) (token e)) eqn:Hs;
          [|reflexivity].
        exfalso. apply Hd. exact (token_prefix_plain d e _ Hdc Hclose Hs). }
      remember (str "ACTRESS:" ++ d ++ [93%N]) as rest eqn:Hrest.
      assert (Ht : token d = 91%N :: rest) by (subst rest; reflexivity).
      rewrite Ht in Hs |- *.
      change ((91%N :: rest) ++ flatten r) with (91%N :: rest ++ flatten r)
        in Hs |- *.
      symmetry.
      transitivity (91%N :: scan (token e) e (rest ++ flatten r));
        [exact (scan_nomatch (token e) e 91%N (rest ++ flatten r) Hs)|].
      simpl. f_equal.
      apply (scan_copy (token e) e (token_not_nil e)).
      intros c Hc. rewrite token_hd. intros Heq. injection Heq as <-.
      subst rest. apply in_app_or in Hc. destruct Hc as [Hc | Hc].
      * vm_compute in Hc. intuition discriminate.
      * apply in_app_or in Hc. destruct Hc as [Hc | [Hc | []]];
          [exact (Hdo Hc) | discriminate].
Qed.

(** Characters at the head of the output of a restoration were at the head
    of its input, when the name restored does not occur in them and lacks
    their last character. *)
Lemma unwrap_prefix (e : pystr) (z : char) :
  e <> [] -> ~ In z e ->
  forall segs w0 w r,
    occurs e (w0 ++ w ++ [z]) = false ->
    unwrap e segs = map Lit (w ++ [z]) ++ r ->
    exists r', segs = map Lit (w ++ [z]) ++ r'.
Proof.
  intros He Hz.
  induction segs as [|[c|d] segs IH]; intros w0 w r Hocc H.
  - destruct w; discriminate.
  - rewrite unwrap_lit in H. destruct w as [|a w].
    + injection H as <- H. exists segs. reflexivity.
    + injection H as <- H.
      destruct (IH (w0 ++ [c]) w r) as (r' & ->); [|exact H|].
      * rewrite <- app_assoc. exact Hocc.
      * exists r'. reflexivity.
  - destruct (list_eq_dec N.eq_dec d e) as [-> | Hd].
    + exfalso. rewrite unwrap_tok in H.
      apply (f_equal flatten) in H.
      rewrite !flatten_app, !flatten_lits in H.
      destruct (prefix_comparable e (w ++ [z]) _ _ H)
        as [(x & Hx) | (x & Hx)].
      * apply (occurs_false e w0 (w0 ++ w ++ [z]) x Hocc).
        rewrite Hx. reflexivity.
      * apply Hz. rewrite Hx. apply in_or_app. left. apply in_or_app.
        right. left. reflexivity.
    + rewrite (unwrap_other e d segs Hd) in H. destruct w; discriminate.
Qed.

Lemma lits_split (a : pystr) (c : char) (w : pystr) :
  forall (X l r : list seg),
    map Lit a ++ X = l ++ map Lit (c :: w) ++ r ->
    (exists l', l = map Lit a ++ l' /\ X = l' ++ map Lit (c :: w) ++ r)
    \/ In c a.
Proof.
  induction a as [|b a IH]; intros X l r H.
  - left. exists l. auto.
  - destruct l as [|x l].
    + injection H as -> _. right. left. reflexivity.
    + injection H as <- H.
      destruct (IH X l r H) as [(l' & -> & HX) | Hin].
      * left. exists l'. auto.
      * right. right. exact Hin.
Qed.

(** A token spelled outside tokens after the restoration of [e] was
    spelled outside tokens before, when [e] has no bracket and does not
    occur in it. *)
Lemma unwrap_window (e b : pystr) :
  e <> [] -> ~ In 91%N e -> ~ In 93%N e -> occurs e (token b) = false ->
  forall segs l r,
    unwrap e segs = l ++ map Lit (token b) ++ r ->
    exists l' r', segs = l' ++ map Lit (token b) ++ r'.
Proof.
  intros He Hopen Hclose Hocc.
  assert (Hhead : forall s segs r,
             (forall x, s :: unwrap e segs = x -> True) ->
             s :: unwrap e segs = map Lit (token b) ++ r ->
             exists r', s :: segs = map Lit (token b) ++ r').
  { intros s segs r _ H. rewrite token_split in H |- *.
    change (map Lit ((91%N :: str "ACTRESS:" ++ b) ++ [93%N]))
      with (Lit 91%N :: map Lit ((str "ACTRESS:" ++ b) ++ [93%N])) in H |- *.
    simpl in H. injection H as -> H.
    destruct (unwrap_prefix e 93%N He Hclose segs [91%N]
                (str "ACTRESS:" ++ b) r) as (r' & ->); [|exact H|].
    - rewrite token_split in Hocc. exact Hocc.
    - exists r'. reflexivity. }
  induction segs as [|[c|d] segs IH]; intros l r H.
  - exfalso. destruct l; [|discriminate].
    rewrite token_eq in H. discriminate.
  - rewrite unwrap_lit in H. destruct l as [|x l].
    + destruct (Hhead (Lit c) segs r (fun _ _ => I) H) as (r' & ->).
      exists [], r'. reflexivity.
    + injection H as _ H. destruct (IH l r H) as (l' & r' & ->).
      exists (Lit c :: l'), r'. reflexivity.
  - destruct (list_eq_dec N.eq_dec d e) as [-> | Hd].
    + rewrite unwrap_tok in H. rewrite token_eq in H.
      destruct (lits_split e 91%N (str "ACTRESS:" ++ b ++ [93%N]) _ l r H)
        as [(l' & -> & HX) | Hin]; [|contradiction].
      rewrite <- token_eq in HX.
      destruct (IH l' r HX) as (l'' & r' & ->).
      exists (Tok e :: l''), r'. reflexivity.
    + rewrite (unwrap_other e d segs Hd) in H. destruct l as [|x l].
      * exfalso. rewrite token_eq in H. discriminate.
      * injection H as _ H. destruct (IH l r H) as (l' & r' & ->).
        exists (Tok d :: l'), r'. reflexivity.
Qed.

Lemma flatten_erase (segs : list seg) :
  (forall d, ~ In (Tok d) segs) -> flatten segs = erase segs.
Proof.
  induction segs as [|[c|d] r IH]; intros H.
  - reflexivity.
  - simpl. f_equal. apply IH. intros d Hd. apply (H d). right. exact Hd.
  - exfalso. apply (H d). left. reflexivity.
Qed.

Lemma protect_step (e : pystr) (es : list pystr) (t : pystr) :
  e <> [] -> protect (e :: es) t = protect es (scan e (token e) t).
Proof.
  intros He. unfold protect. cbn [fold_left].
  rewrite (replace_scan_eq e (token e) He). reflexivity.
Qed.

(** The protection of the names on the text is their protection on the
    segments. *)
Lemma protect_wraps (names : list pystr) :
  (forall e, In e names -> plain_name e) ->
  later_outside names ->
  forall segs,
    (forall d e, In (Tok d) segs -> In e names ->
                 occurs e (token d) = false) ->
    protect names (flatten segs) = flatten (wraps names segs).
Proof.
  induction names as [|e es IH]; intros Hplain Hlater segs Htok.
  - reflexivity.
  - destruct Hlater as [Hhere Hlater].
    pose proof (Hplain e (or_introl eq_refl)) as He.
    rewrite (protect_step e es _ (proj1 He)).
    rewrite <- (wrap_flatten e He (length segs) segs (le_n _)).
    + apply IH.
      * intros b Hb. apply Hplain. right. exact Hb.
      * exact Hlater.
      * intros d b Hd Hb.
        destruct (in_wrap e (proj1 He) (length segs) segs d (le_n _) Hd)
          as [-> | Hd'].
        -- apply Hhere. exact Hb.
        -- apply (Htok d b Hd'). right. exact Hb.
    + intros d Hd. apply (Htok d e Hd). left. reflexivity.
Qed.

Lemma erase_wraps (names : list pystr) :
  (forall e, In e names -> plain_name e) ->
  forall segs, erase (wraps names segs) = erase segs.
Proof.
  induction names as [|e es IH]; intros Hplain segs; [reflexivity|].
  unfold wraps. cbn [fold_left]. fold (wraps es (wrap e segs)).
  rewrite IH by (intros b Hb; apply Hplain; right; exact Hb).
  apply (erase_wrap e (proj1 (Hplain e (or_introl eq_refl))) (length segs)).
  apply le_n.
Qed.

Lemma erase_unwraps (names : list pystr) :
  forall segs, erase (unwraps names segs) = erase segs.
Proof.
  induction names as [|e es IH]; intros segs; [reflexivity|].
  unfold unwraps. cbn [fold_left]. fold (unwraps es (unwrap e segs)).
  rewrite IH. apply erase_unwrap.
Qed.

Lemma in_wraps (names : list pystr) :
  (forall e, In e names -> plain_name e) ->
  forall segs d,
    In (Tok d) (wraps names segs) -> In d names \/ In (Tok d) segs.
Proof.
  induction names as [|e es IH]; intros Hplain segs d Hin; [auto|].
  unfold wraps in Hin. cbn [fold_left] in Hin.
  fold (wraps es (wrap e segs)) in Hin.
  destruct (IH (fun b Hb => Hplain b (or_intror Hb)) _ d Hin) as [Hd | Hd].
  - left. right. exact Hd.
  - destruct (in_wrap e (proj1 (Hplain e (or_introl eq_refl)))
                (length segs) segs d (le_n _) Hd) as [-> | Hd'].
    + left. left. reflexivity.
    + right. exact Hd'.
Qed.

Lemma in_unwraps (names : list pystr) :
  forall segs d,
    In (Tok d) (unwraps names segs) -> In (Tok d) segs /\ ~ In d names.
Proof.
  induction names as [|e es IH]; intros segs d Hin; [auto|].
  unfold unwraps in Hin. cbn [fold_left] in Hin.
  fold (unwraps es (unwrap e segs)) in Hin.
  destruct (IH _ d Hin) as [Hd Hnot].
  destruct (in_unwrap e d segs Hd) as [Hd' Hne].
  split; [exact Hd'|]. intros [<- | Hes]; [congruence | exact (Hnot Hes)].
Qed.

(** After the protection of the names no stretch outside tokens spells the
    token of one of them. *)
Lemma wraps_no_window (names : list pystr) :
  (forall e, In e names -> plain_name e) ->
  forall segs e, In e names -> no_window (token e) (wraps names segs).
Proof.
  induction names as [|a es IH]; intros Hplain segs e He; [contradiction|].
  assert (Hkeep : forall es' segs' w,
             (forall b, In b es' -> plain_name b) ->
             no_window w segs' -> no_window w (wraps es' segs')).
  { clear. induction es' as [|b es' IH']; intros segs' w Hp Hw; [exact Hw|].
    unfold wraps. cbn [fold_left]. fold (wraps es' (wrap b segs')).
    apply IH'; [intros c Hc; apply Hp; right; exact Hc|].
    intros l r H.
    destruct (wrap_window b w (proj1 (Hp b (or_introl eq_refl)))
                (length segs') segs' l r (le_n _) H) as (l' & r' & H').
    exact (Hw l' r' H'). }
  unfold wraps. cbn [fold_left]. fold (wraps es (wrap a segs)).
  destruct He as [<- | He].
  - apply Hkeep; [intros b Hb; apply Hplain; right; exact Hb|].
    intros l r H.
    apply (wrap_no_window a (proj1 (Hplain a (or_introl eq_refl)))
             (length segs) segs (le_n _)
             (l ++ map Lit (91%N :: str "ACTRESS:"))
             (Lit 93%N :: r)).
    rewrite H, token_eq.
    change (91%N :: str "ACTRESS:" ++ a ++ [93%N])
      with ((91%N :: str "ACTRESS:") ++ a ++ [93%N]).
    rewrite !map_app, <- !app_assoc. reflexivity.
  - apply IH; [intros b Hb; apply Hplain; right; exact Hb | exact He].
Qed.

(** The restoration of the names on the text is their restoration on the
    segments, as long as no token is spelled outside tokens when its turn
    comes. *)
Lemma restore_unwraps (names : list pystr) :
  (forall e, In e names -> plain_name e) ->
  forall segs,
    (forall d, In (Tok d) segs -> plain_name d) ->
    (forall done e todo,
        names = done ++ e :: todo ->
        no_window (token e) (unwraps done segs)) ->
    restore names (flatten segs) = flatten (unwraps names segs).
Proof.
  induction names as [|e es IH]; intros Hplain segs Htok Hwin.
  - reflexivity.
  - destruct (Hplain e (or_introl eq_refl)) as (He & Hopen & Hclose).
    rewrite restore_cons.
    rewrite <- (unwrap_flatten e Hopen Hclose segs).
    + unfold unwraps. cbn [fold_left]. fold (unwraps es (unwrap e segs)).
      apply IH.
      * intros b Hb. apply Hplain. right. exact Hb.
      * intros d Hd. apply Htok. exact (proj1 (in_unwrap e d segs Hd)).
      * intros done b todo Hsplit.
        apply (Hwin (e :: done) b todo). rewrite Hsplit. reflexivity.
    + intros d Hd. destruct (Htok d Hd) as (_ & H1 & H2). auto.
    + exact (Hwin [] e es eq_refl).
Qed.

Lemma unwraps_window (done : list pystr) (b : pystr) :
  (forall e, In e done -> plain_name e /\ occurs e (token b) = false) ->
  forall segs,
    no_window (token b) segs -> no_window (token b) (unwraps done segs).
Proof.
  induction done as [|e done IH]; intros Hdone segs Hw; [exact Hw|].
  unfold unwraps. cbn [fold_left]. fold (unwraps done (unwrap e segs)).
  apply IH; [intros c Hc; apply Hdone; right; exact Hc|].
  destruct (Hdone e (or_introl eq_refl)) as ((He & Hopen & Hclose) & Hocc).
  intros l r H.
  destruct (unwrap_window e b He Hopen Hclose Hocc segs l r H)
    as (l' & r' & H').
  exact (Hw l' r' H').
Qed.

Lemma earlier_outside_split (done : list pystr) :
  forall b todo,
    earlier_outside (done ++ b :: todo) ->
    forall e, In e done -> occurs e (token b) = false.
Proof.
  induction done as [|a done IH]; intros b todo H e He; [contradiction|].
  destruct H as [Hhere Hrest]. destruct He as [<- | He].
  - apply Hhere. apply in_or_app. right. left. reflexivity.
  - exact (IH b todo Hrest e He).
Qed.

Lemma occurs_app (w a b : pystr) : occurs w (a ++ w ++ b) = true.
Proof.
  destruct (occurs w (a ++ w ++ b)) eqn:H; [reflexivity|].
  exfalso. exact (occurs_false w a _ b H eq_refl).
Qed.

Lemma occurs_trans (u w s : pystr) :
  occurs u w = true -> occurs w s = true -> occurs u s = true.
Proof.
  intros Hu Hw.
  destruct (occurs u s) eqn:H; [reflexivity|]. exfalso.
  assert (Hsplit : forall x y, occurs x y = true -> exists l r, y = l ++ x ++ r).
  { clear. intros x y. induction y as [|c y IH]; simpl; intros H.
    - rewrite orb_false_r in H. apply startswith_prefix in H.
      destruct H as (r & Hr). exists [], r. exact Hr.
    - apply orb_true_iff in H. destruct H as [H | H].
      + apply startswith_prefix in H. destruct H as (r & Hr).
        exists [], r. exact Hr.
      + destruct (IH H) as (l & r & ->). exists (c :: l), r. reflexivity. }
  destruct (Hsplit _ _ Hu) as (l1 & r1 & ->).
  destruct (Hsplit _ _ Hw) as (l2 & r2 & ->).
  apply (occurs_false u (l2 ++ l1) _ (r1 ++ r2) H).
  rewrite <- !app_assoc. reflexivity.
Qed.

(** Every text comes back when no name occurs in the token of another. *)
Lemma roundtrip_every_text (names : list pystr) (t : pystr) :
  (forall e, In e names -> plain_name e) ->
  later_outside names ->
  earlier_outside names ->
  restore names (protect names t) = t.
Proof.
  intros Hplain Hlater Hearlier.
  pose proof (protect_wraps names Hplain Hlater (map Lit t)) as Hp.
  rewrite flatten_lits in Hp. rewrite Hp.
  2:{ intros d e Hd. apply in_map_iff in Hd. destruct Hd as (c & Hc & _).
      discriminate. }
  assert (Htoks : forall d, In (Tok d) (wraps names (map Lit t)) ->
                            In d names).
  { intros d Hd. destruct (in_wraps names Hplain _ d Hd) as [H | H];
      [exact H|].
    apply in_map_iff in H. destruct H as (c & Hc & _). discriminate. }
  rewrite (restore_unwraps names Hplain).
  - rewrite flatten_erase.
    + rewrite erase_unwraps, (erase_wraps names Hplain), erase_lits.
      reflexivity.
    + intros d Hd. destruct (in_unwraps names _ d Hd) as [Hin Hnot].
      exact (Hnot (Htoks d Hin)).
  - intros d Hd. apply Hplain, Htoks, Hd.
  - intros done e todo Hsplit. apply unwraps_window.
    + intros a Ha. split.
      * apply Hplain. rewrite Hsplit. apply in_or_app. left. exact Ha.
      * rewrite Hsplit in Hearlier.
        exact (earlier_outside_split done e todo Hearlier a Ha).
    + apply (wraps_no_window names Hplain). rewrite Hsplit.
      apply in_or_app. right. left. reflexivity.
Qed.

(** A text that does not hold the opening of a token comes back when no
    name occurs in the token of a name before it. *)
Lemma roundtrip_clean_text (names : list pystr) (t : pystr) :
  (forall e, In e names -> plain_name e) ->
  later_outside names ->
  occurs (str "[ACTRESS:") t = false ->
  restore names (protect names t) = t.
Proof.
  intros Hplain Hlater Hclean.
  pose proof (protect_wraps names Hplain Hlater (map Lit t)) as Hp.
  rewrite flatten_lits in Hp. rewrite Hp.
  2:{ intros d e Hd. apply in_map_iff in Hd. destruct Hd as (c & Hc & _).
      discriminate. }
  assert (Htoks : forall d, In (Tok d) (wraps names (map Lit t)) ->
                            In d names).
  { intros d Hd. destruct (in_wraps names Hplain _ d Hd) as [H | H];
      [exact H|].
    apply in_map_iff in H. destruct H as (c & Hc & _). discriminate. }
  rewrite (restore_unwraps names Hplain).
  - rewrite flatten_erase.
    + rewrite erase_unwraps, (erase_wraps names Hplain), erase_lits.
      reflexivity.
    + intros d Hd. destruct (in_unwraps names _ d Hd) as [Hin Hnot].
      exact (Hnot (Htoks d Hin)).
  - intros d Hd. apply Hplain, Htoks, Hd.
  - intros done e todo Hsplit l r H.
    apply (f_equal erase) in H.
    rewrite erase_unwraps, (erase_wraps names Hplain), erase_lits in H.
    rewrite !erase_app, erase_lits in H.
    assert (Ho : occurs (str "[ACTRESS:") t = true).
    { apply (occurs_trans _ (token e)).
      - rewrite token_eq.
        change (91%N :: str "ACTRESS:" ++ e ++ [93%N])
          with ([] ++ str "[ACTRESS:" ++ e ++ [93%N]).
        apply occurs_app.
      - rewrite H. apply occurs_app. }
    congruence.
Qed.

(** C3 (amended). Protection followed by restoration, both run over the
    names in list order as the code does, gives back the text in three
    cases.  For names that are non-empty and free of the characters of
    "[ACTRESS:]", any two of them equal or neither inside the other: every
    text.  For names that are non-empty and have no square bracket, none of
    which occurs in the token of another entry of the list (the letters of
    the frame are allowed, as in "JULIA"): every text.  For such names when
    none occurs in the token of an entry before it (a name may then lie
    inside a later one, "三上" before "三上悠亜"): every text that does not
    hold "[ACTRESS:".  A restoration step whose token is absent from the
    text leaves the text untouched, and so does the whole restoration when
    no token is present. *)
Theorem protect_restore_roundtrip :
  (forall actress texts,
      names_ok actress -> restore actress (protect actress texts) = texts)
  /\ (forall actress texts,
        (forall name, In name actress -> plain_name name) ->
        later_outside actress ->
        earlier_outside actress ->
        restore actress (protect actress texts) = texts)
  /\ (forall actress texts,
        (forall name, In name actress -> plain_name name) ->
        later_outside actress ->
        occurs (str "[ACTRESS:") texts = false ->
        restore actress (protect actress texts) = texts)
  /\ (forall name translated,
        occurs (token name) translated = false ->
        replace translated (token name) name = translated)
  /\ (forall actress translated,
        (forall name, In name actress ->
                      occurs (token name) translated = false) ->
        restore actress translated = translated).
Proof.
  split; [intros actress texts Hok; exact (protect_restore actress Hok texts)|].
  split; [intros actress texts; apply roundtrip_every_text|].
  split; [intros actress texts; apply roundtrip_clean_text|].
  split; [|exact restore_absent].
  intros name translated Habsent. rewrite replace_token.
  exact (scan_absent (token name) name translated Habsent).
Qed.

Lemma two_names_ok : names_ok two_names.
Proof.
  split.
  - intros e [<- | [<- | []]]; (split; [discriminate|]);
      intros c Hc Hf; vm_compute in Hc, Hf; intuition congruence.
  - intros a b [<- | [<- | []]] [<- | [<- | []]];
      (left; reflexivity) || (right; split; reflexivity).
Qed.

(** The names of a concrete list are plain. *)
Ltac plain_names :=
  let name := fresh "name" in
  let H := fresh "H" in
  intros name H; simpl in H;
  repeat (destruct H as [<- | H]; [vm_compute; intuition congruence|]);
  contradiction.

(** No name of a concrete list occurs in the tokens it must stay out of. *)
Ltac outside :=
  simpl; repeat split;
  let b := fresh "b" in
  let H := fresh "H" in
  intros b H;
  repeat (destruct H as [<- | H]; [vm_compute; reflexivity|]);
  contradiction.

(** C3 on a title that names two performers; on a name made of letters of
    the frame, in a text that holds the frame; on two names that share
    letters with the frame; and on a name nested in a later one. *)
Lemma protect_restore_roundtrip_witness :
  (protect two_names title_with_names
   = str "[ACTRESS:波多野結衣]と[ACTRESS:三上]の新作"
   /\ restore two_names (protect two_names title_with_names)
      = title_with_names)
  /\ restore [str "JULIA"] (protect [str "JULIA"] (str "JULIA [ACTRESS:]"))
     = str "JULIA [ACTRESS:]"
  /\ restore [str "AIKA"; str "Rio"]
       (protect [str "AIKA"; str "Rio"] (str "AIKA and Rio"))
     = str "AIKA and Rio"
  /\ restore [str "三上"; str "三上悠亜"]
       (protect [str "三上"; str "三上悠亜"] (str "三上悠亜と三上"))
     = str "三上悠亜と三上".
Proof.
  destruct protect_restore_roundtrip as (Hround & Hevery & Hclean & _).
  split; [split; [reflexivity|]|].
  - exact (Hround two_names title_with_names two_names_ok).
  - split; [|split].
    + apply Hevery; [plain_names | outside | outside].
    + apply Hevery; [plain_names | outside | outside].
    + apply Hclean; [plain_names | outside | vm_compute; reflexivity].
Defined.

(** C3 as stated fails.  With the single name "][ACTRESS:", which occurs
    in the text, the restoration finds a token that straddles the text and
    the token put in.  "X" and "S" both occur in "XS", do not overlap and
    are equally long, yet the token of "X" is corrupted by the protection of
    "S" and the text does not come back.  With the longer name first, the
    token of "三上悠亜" is corrupted by the protection of "三上".  And with
    the shorter name first the names come back in a text without tokens,
    but a text that holds the token of the longer name does not. *)
Lemma protect_restore_not_roundtrip :
  (occurs (str "][ACTRESS:") (str "[ACTRESS:]][ACTRESS:") = true
   /\ protect [str "][ACTRESS:"] (str "[ACTRESS:]][ACTRESS:")
      = str "[ACTRESS:][ACTRESS:][ACTRESS:]"
   /\ restore [str "][ACTRESS:"]
        (protect [str "][ACTRESS:"] (str "[ACTRESS:]][ACTRESS:"))
      = str "][ACTRESS:[ACTRESS:]"
   /\ restore [str "][ACTRESS:"]
        (protect [str "][ACTRESS:"] (str "[ACTRESS:]][ACTRESS:"))
      <> str "[ACTRESS:]][ACTRESS:")
  /\
  (occurs (str "X") (str "XS") = true
   /\ occurs (str "S") (str "XS") = true
   /\ occurs (str "X") (str "S") = false
   /\ occurs (str "S") (str "X") = false
   /\ protect [str "X"; str "S"] (str "XS")
      = str "[ACTRE[ACTRESS:S][ACTRESS:S]:X][ACTRESS:S]"
   /\ restore [str "X"; str "S"] (protect [str "X"; str "S"] (str "XS"))
      = str "[ACTRESS:X]S"
   /\ restore [str "X"; str "S"] (protect [str "X"; str "S"] (str "XS"))
      <> str "XS")
  /\ (restore [str "三上悠亜"; str "三上"]
        (protect [str "三上悠亜"; str "三上"] (str "三上悠亜と三上"))
      = str "[ACTRESS:三上悠亜]と三上"
      /\ restore [str "三上悠亜"; str "三上"]
           (protect [str "三上悠亜"; str "三上"] (str "三上悠亜と三上"))
         <> str "三上悠亜と三上")
  /\ (restore [str "三上"; str "三上悠亜"]
        (protect [str "三上"; str "三上悠亜"] (str "[ACTRESS:三上悠亜]"))
      = str "三上悠亜"
      /\ restore [str "三上"; str "三上悠亜"]
           (protect [str "三上"; str "三上悠亜"] (str "[ACTRESS:三上悠亜]"))
         <> str "[ACTRESS:三上悠亜]").
Proof.
  vm_compute. repeat split; discriminate.
Qed.

(* ================================================================== *)
(** ** config.py: [substitute_env_vars] *)

Lemma pystr_eqb_eq (a b : pystr) : pystr_eqb a b = true <-> a = b.
Proof.
  unfold pystr_eqb. rewrite andb_true_iff, Nat.eqb_eq, startswith_prefix.
  split.
  - intros [Hlen (r & Hr)]. subst a. rewrite length_app in Hlen.
    destruct r; [apply app_nil_r | simpl in Hlen; lia].
  - intros ->. split; [reflexivity | exists []; symmetry; apply app_nil_r].
Qed.

Lemma pystr_eqb_neq (a b : pystr) : pystr_eqb a b = false <-> a <> b.
Proof.
  rewrite <- pystr_eqb_eq. destruct (pystr_eqb a b); split; congruence.
Qed.

Lemma var_run_spec (s : pystr) :
  s = fst (var_run s) ++ snd (var_run s)
  /\ forallb is_var_char (fst (var_run s)) = true.
Proof.
  induction s as [|c s [IH1 IH2]]; simpl.
  - auto.
  - destruct (is_var_char c) eqn:Hc; [|simpl; auto].
    destruct (var_run s) as [run rest]. simpl in *.
    rewrite Hc, IH2. split; [congruence | reflexivity].
Qed.

Lemma var_run_app (r : pystr) (c : char) (rest : pystr) :
  forallb is_var_char r = true -> is_var_char c = false ->
  var_run (r ++ c :: rest) = (r, c :: rest).
Proof.
  intros Hr Hc. induction r as [|d r IH]; simpl.
  - rewrite Hc. reflexivity.
  - simpl in Hr. apply andb_true_iff in Hr. destruct Hr as [Hd Hr].
    rewrite Hd, (IH Hr). reflexivity.
Qed.

Lemma group0_eq (n : pystr) : group0 n = 36%N :: 123%N :: n ++ [125%N].
Proof. reflexivity. Qed.

Lemma match_var_some (s n : pystr) :
  match_var s = Some n ->
  valid_var_name n = true /\ exists rest, s = group0 n ++ rest.
Proof.
  unfold match_var.
  destruct s as [|c0 [|c1 [|c s]]]; try discriminate.
  destruct ((c0 =? 36)%N && (c1 =? 123)%N && is_var_start c) eqn:Hhead;
    [|discriminate].
  apply andb_true_iff in Hhead. destruct Hhead as [Hhead Hc].
  apply andb_true_iff in Hhead. destruct Hhead as [H0 H1].
  apply N.eqb_eq in H0, H1. subst c0 c1.
  destruct (var_run_spec s) as [Hs Hrun].
  destruct (var_run s) as [run rest]. simpl in Hs, Hrun.
  destruct rest as [|d rest]; [discriminate|].
  destruct (d =? 125)%N eqn:Hd; [|discriminate].
  apply N.eqb_eq in Hd. subst d. intros H. injection H as <-. split.
  - simpl. rewrite Hc, Hrun. reflexivity.
  - exists rest. rewrite group0_eq, Hs. simpl. rewrite <- app_assoc.
    reflexivity.
Qed.

Lemma valid_var_name_close (n : pystr) :
  valid_var_name n = true -> is_var_char 125%N = false.
Proof. reflexivity. Qed.

Lemma match_var_valid (n rest : pystr) :
  valid_var_name n = true -> match_var (group0 n ++ rest) = Some n.
Proof.
  intros Hn. destruct n as [|c r]; [discriminate|].
  simpl in Hn. apply andb_true_iff in Hn. destruct Hn as [Hc Hr].
  rewrite group0_eq. unfold match_var. simpl.
  rewrite Hc. rewrite <- app_assoc. simpl.
  rewrite (var_run_app r 125%N rest Hr eq_refl). reflexivity.
Qed.

Lemma match_var_hd (c : char) (s : pystr) :
  c <> 36%N -> match_var (c :: s) = None.
Proof.
  intros Hc. unfold match_var. destruct s as [|c1 [|c2 s]]; try reflexivity.
  apply N.eqb_neq in Hc. rewrite Hc. reflexivity.
Qed.

Section Sub.
Variable environ_get : pystr -> option pystr.

Lemma sub_scan_skip (s : pystr) :
  forall k,
    sub_scan environ_get k s = substitute_env_vars environ_get (skipn k s).
Proof.
  induction s as [|c s IH]; intros k.
  - destruct k; reflexivity.
  - destruct k as [|k]; [reflexivity|]. simpl. apply IH.
Qed.

Lemma sub_nomatch (c : char) (s : pystr) :
  match_var (c :: s) = None ->
  substitute_env_vars environ_get (c :: s)
  = c :: substitute_env_vars environ_get s.
Proof.
  intros H. unfold substitute_env_vars. cbn [sub_scan]. rewrite H.
  reflexivity.
Qed.

Lemma sub_match (n rest : pystr) :
  valid_var_name n = true ->
  substitute_env_vars environ_get (group0 n ++ rest)
  = replace_var environ_get n ++ substitute_env_vars environ_get rest.
Proof.
  intros Hn. pose proof (match_var_valid n rest Hn) as Hm.
  rewrite group0_eq in Hm |- *.
  set (tail := 123%N :: (n ++ [125%N]) ++ rest).
  change ((36%N :: 123%N :: n ++ [125%N]) ++ rest) with (36%N :: tail)
    in Hm |- *.
  unfold substitute_env_vars at 1. cbn [sub_scan]. rewrite Hm.
  f_equal. rewrite (sub_scan_skip tail). f_equal. subst tail.
  replace (length n + 2)%nat with (S (length (n ++ [125%N])))
    by (rewrite length_app; simpl; lia).
  cbn [skipn]. rewrite skipn_app, skipn_all, Nat.sub_diag. reflexivity.
Qed.

Lemma sub_copy (a b : pystr) :
  ~ In 36%N a ->
  substitute_env_vars environ_get (a ++ b)
  = a ++ substitute_env_vars environ_get b.
Proof.
  induction a as [|c a IH]; intros Ha; simpl.
  - reflexivity.
  - rewrite sub_nomatch.
    + rewrite IH; [reflexivity|]. intros Hin. apply Ha. right. exact Hin.
    + apply match_var_hd. intros ->. apply Ha. left. reflexivity.
Qed.

End Sub.

Lemma occurs_prefix (a r : pystr) : occurs a (a ++ r) = true.
Proof.
  destruct (a ++ r) eqn:H; simpl; rewrite <- H, startswith_app;
    reflexivity.
Qed.

Lemma occurs_cons (a s : pystr) (c : char) :
  occurs a s = true -> occurs a (c :: s) = true.
Proof. intros H. simpl. rewrite H. apply orb_true_r. Qed.

Lemma occurs_app_r (a l r : pystr) :
  occurs a r = true -> occurs a (l ++ r) = true.
Proof.
  intros H. induction l as [|c l IH]; simpl app; [exact H|].
  apply occurs_cons. exact IH.
Qed.

Lemma sub_undefined (environ_get : pystr -> option pystr) :
  forall n content,
    (length content <= n)%nat ->
    (forall var_name,
        occurs (group0 var_name) content = true ->
        environ_get var_name = None) ->
    substitute_env_vars environ_get content = content.
Proof.
  induction n as [|n IH]; intros content Hlen Hundef.
  - destruct content; [reflexivity | simpl in Hlen; lia].
  - destruct content as [|c s]; [reflexivity|].
    destruct (match_var (c :: s)) as [v|] eqn:Hm.
    + destruct (match_var_some (c :: s) v Hm) as [Hv (rest & Hrest)].
      rewrite Hrest, (sub_match environ_get v rest Hv).
      unfold replace_var.
      rewrite (Hundef v) by (rewrite Hrest; apply occurs_prefix).
      simpl get_default. f_equal. apply IH.
      * apply (f_equal (@length _)) in Hrest.
        rewrite length_app, group0_eq in Hrest. simpl in Hrest, Hlen. lia.
      * intros w Hw. apply Hundef. rewrite Hrest.
        apply occurs_app_r. exact Hw.
    + rewrite (sub_nomatch environ_get c s Hm). f_equal. apply IH.
      * simpl in Hlen. lia.
      * intros w Hw. apply Hundef. apply occurs_cons. exact Hw.
Qed.

(** X1. [substitute_env_vars] rewrites its input from left to right: text
    without a dollar sign is copied; a reference to a name made of an
    upper-case letter or underscore followed by upper-case letters, digits
    and underscores is replaced by the value of the variable, or kept as
    written when the variable is not set; and the scan goes on after the
    reference, so that a value is inserted as it is, never expanded again.
    A dollar sign and brace followed by anything that cannot start such a
    name (a lower-case letter, a digit) are copied and the scan goes on
    with what follows them. *)
Theorem substitute_env_vars_equations :
  forall environ_get,
    (forall a b,
        ~ In 36%N a ->
        substitute_env_vars environ_get (a ++ b)
        = a ++ substitute_env_vars environ_get b)
    /\ (forall var_name rest,
          valid_var_name var_name = true ->
          substitute_env_vars environ_get (group0 var_name ++ rest)
          = get_default (environ_get var_name) (group0 var_name)
            ++ substitute_env_vars environ_get rest)
    /\ (forall c rest,
          is_var_start c = false ->
          substitute_env_vars environ_get (str "${" ++ c :: rest)
          = str "${" ++ substitute_env_vars environ_get (c :: rest)).
Proof.
  intros environ_get. split; [exact (sub_copy environ_get)|].
  split; [exact (sub_match environ_get)|].
  intros c rest Hc.
  change (str "${" ++ c :: rest) with (36%N :: 123%N :: c :: rest).
  rewrite sub_nomatch.
  - rewrite sub_nomatch; [reflexivity|].
    apply match_var_hd. discriminate.
  - unfold match_var. rewrite Hc, andb_false_r. reflexivity.
Qed.

(** X1 on one line: the value of API_KEY is inserted as it is, with the
    reference it contains; the unset variable and the lower-case name stay
    as written. *)
Lemma substitute_env_vars_equations_witness :
  substitute_env_vars environ (str "key: ${API_KEY} ${UNSET} ${home}")
  = str "key: sk-${HOME} ${UNSET} ${home}".
Proof.
  destruct (substitute_env_vars_equations environ) as (Hcopy & Hmatch & _).
  change (str "key: ${API_KEY} ${UNSET} ${home}")
    with (str "key: "
          ++ group0 (str "API_KEY") ++ str " ${UNSET} ${home}").
  rewrite (Hcopy (str "key: "))
    by (vm_compute; intuition discriminate).
  rewrite (Hmatch (str "API_KEY") _ eq_refl).
  vm_compute. reflexivity.
Defined.

(** X2. A content in which every reference names a variable that is not
    set comes back unchanged. *)
Theorem substitute_env_vars_undefined :
  forall environ_get content,
    (forall var_name,
        occurs (group0 var_name) content = true ->
        environ_get var_name = None) ->
    substitute_env_vars environ_get content = content.
Proof.
  intros environ_get content.
  exact (sub_undefined environ_get (length content) content (le_n _)).
Qed.

(** X2 on a line that refers to variables the environment does not have. *)
Lemma substitute_env_vars_undefined_witness :
  substitute_env_vars environ (str "proxy: ${PROXY}, ${home} and $HOME")
  = str "proxy: ${PROXY}, ${home} and $HOME".
Proof.
  apply (substitute_env_vars_undefined environ).
  intros var_name Hocc. unfold environ.
  destruct (pystr_eqb var_name (str "API_KEY")) eqn:H1.
  { apply pystr_eqb_eq in H1. subst var_name.
    vm_compute in Hocc. discriminate. }
  destruct (pystr_eqb var_name (str "HOME")) eqn:H2.
  { apply pystr_eqb_eq in H2. subst var_name.
    vm_compute in Hocc. discriminate. }
  reflexivity.
Defined.

(* ================================================================== *)
(** ** config.py: [CrawlerSelect] *)

Lemma in_items (self : CrawlerSelect) (index : pystr)
    (v : list CrawlerID.t) :
  In (index, v) (CrawlerSelect_items self)
  <-> (index = str "normal" /\ v = normal self)
      \/ (index = str "fc2" /\ v = fc2 self)
      \/ (index = str "cid" /\ v = cid self)
      \/ (index = str "getchu" /\ v = getchu self)
      \/ (index = str "gyutto" /\ v = gyutto self).
Proof.
  unfold CrawlerSelect_items. cbn [In]. rewrite !pair_equal_spec.
  intuition congruence.
Qed.

Ltac key_clash :=
  match goal with
  | H : str _ = str _ |- _ => vm_compute in H; discriminate
  end.

(** X3. Indexing a crawler selection agrees with its [items()]: the
    lookup of a key returns a list exactly when [items()] pairs the key with
    that list, and raises "Unknown crawler type" exactly for the keys
    [items()] does not have. *)
Theorem CrawlerSelect_getitem_items :
  forall self index,
    (forall v,
        CrawlerSelect_getitem self index = inr v
        <-> In (index, v) (CrawlerSelect_items self))
    /\ (CrawlerSelect_getitem self index
        = inl (OtherError (str "Unknown crawler type"))
        <-> forall v, ~ In (index, v) (CrawlerSelect_items self)).
Proof.
  intros self index. unfold CrawlerSelect_getitem.
  destruct (pystr_eqb index (str "normal")) eqn:H1;
    [apply pystr_eqb_eq in H1; subst index |
     apply pystr_eqb_neq in H1;
     destruct (pystr_eqb index (str "fc2")) eqn:H2;
       [apply pystr_eqb_eq in H2; subst index |
        apply pystr_eqb_neq in H2;
        destruct (pystr_eqb index (str "cid")) eqn:H3;
          [apply pystr_eqb_eq in H3; subst index |
           apply pystr_eqb_neq in H3;
           destruct (pystr_eqb index (str "getchu")) eqn:H4;
             [apply pystr_eqb_eq in H4; subst index |
              apply pystr_eqb_neq in H4;
              destruct (pystr_eqb index (str "gyutto")) eqn:H5;
                [apply pystr_eqb_eq in H5; subst index |
                 apply pystr_eqb_neq in H5]]]]].
  1-5: split;
    [intros v; rewrite in_items; split;
       [intros H; injection H as <-; tauto
       | intros [[H ->] | [[H ->] | [[H ->] | [[H ->] | [H ->]]]]];
         reflexivity || key_clash]
    | split; [discriminate|];
      intros H; exfalso; eapply H; apply in_items; eauto 10].
  split.
  - intros v. rewrite in_items. split; [discriminate | tauto].
  - split; [|reflexivity]. intros _ v. rewrite in_items. tauto.
Qed.

(** X3 on a selection: a key it has, and one it has not. *)
Lemma CrawlerSelect_getitem_items_witness :
  CrawlerSelect_getitem selection (str "fc2")
  = inr [CrawlerID.fc2; CrawlerID.fc2fan]
  /\ CrawlerSelect_getitem selection (str "javbus")
     = inl (OtherError (str "Unknown crawler type")).
Proof.
  split.
  - destruct (CrawlerSelect_getitem_items selection (str "fc2")) as [H _].
    apply H. right. left. reflexivity.
  - destruct (CrawlerSelect_getitem_items selection (str "javbus"))
      as [_ H].
    apply H. intros v Hin. apply in_items in Hin.
    destruct Hin as [[H1 _] | [[H1 _] | [[H1 _] | [[H1 _] | [H1 _]]]]];
      vm_compute in H1; discriminate.
Defined.

(* ================================================================== *)
(** ** translate.py: the self-test, the orchestrator and the fallback *)

Opaque str.

Section SelfTestFacts.
Context {E : Env}.

(** The result of the client is a translation or one of three error codes. *)
Lemma client_shape texts provider actress target_lang st :
  exists r st',
    translate_with_openai_compatible texts provider actress target_lang st
    = Ret r st'
    /\ ((exists t, r = dict_trans t)
        \/ (exists c m, In c [-10; -11; -12]%Z /\ r = dict_error_code c m)).
Proof.
  unfold translate_with_openai_compatible.
  destruct (import_openai (world st)); simpl.
  2:{ do 2 eexists. split; [reflexivity|]. right. do 2 eexists.
      split; [|reflexivity]. simpl; auto. }
  unfold try_except, bind, new_client, create.
  destruct (OpenAI provider (world st)) as [e|].
  { simpl. do 2 eexists. split; [reflexivity|]. right. do 2 eexists.
    split; [|reflexivity]. simpl; auto. }
  destruct (chat_completions_create _ _ _ _) as [answer w].
  destruct answer as [e | [|[[|c content]|] rest]]; simpl;
    do 2 eexists; (split; [reflexivity|]);
    try (left; eexists; reflexivity);
    right; do 2 eexists; (split; [|reflexivity]); simpl; auto.
Qed.


Lemma test_google_run fuel target_lang results st :
  test_google fuel target_lang results st
  = match google_trans fuel test_text target_lang st with
    | Ret v st' =>
        let entry := google_entry (inr v) in
        Ret (results ++ [entry])
          (match t_error entry with
           | None => st'
           | Some msg =>
               emit (world st')
                 (EvWarning
                    (match py_contains v (str "sentences") with
                     | inr false => str "✗ Google 测试失败"
                     | _ => str "✗ Google 测试失败: " ++ msg
                     end)) st'
           end)
    | Raise e st' =>
        Ret (results ++ [google_entry (inl e)])
          (emit (world st') (EvWarning (str "✗ Google 测试失败: " ++ repr e))
             st')
    | Diverge => Diverge
    end.
Proof.
  unfold test_google, try_except, bind.
  destruct (google_trans fuel test_text target_lang st)
    as [v st' | e st' |]; try reflexivity.
  simpl. destruct (py_contains v (str "sentences")) as [e | [|]]; simpl;
    try reflexivity.
  destruct (join_trans v); reflexivity.
Qed.

End SelfTestFacts.

Section ChainFacts.
Context {E : Env}.

Lemma client_success texts p actress target_lang st r st' t :
  translate_with_openai_compatible texts p actress target_lang st = Ret r st'
  -> k_trans r = Some t ->
  r = dict_trans t
  /\ events st'
     = events st ++ [EvChat p (system_content target_lang)
                       (protect (get_default actress []) texts)].
Proof.
  unfold translate_with_openai_compatible.
  destruct (import_openai (world st)); simpl;
    [|intros H; injection H as <- <-; discriminate].
  unfold try_except, bind, new_client, create.
  destruct (OpenAI p (world st)) as [e|];
    [simpl; intros H; injection H as <- <-; discriminate|].
  destruct (chat_completions_create _ _ _ _) as [answer w].
  destruct answer as [e | [|[[|c content]|] rest]]; simpl;
    intros H; injection H as <- <-; try discriminate.
  simpl. intros H. injection H as <-. auto.
Qed.

Lemma count_gets_chat (evs : list Event) :
  Forall is_chat evs -> count_gets evs = 0%nat.
Proof.
  induction 1 as [|ev evs Hev _ IH]; [reflexivity|].
  destruct ev; simpl in *; try contradiction. exact IH.
Qed.

Lemma final_google_fallback fuel texts target_lang st :
  final (google_fallback fuel texts target_lang st)
  = final (google_trans fuel texts target_lang st).
Proof.
  rewrite google_fallback_run.
  destruct (google_trans fuel texts target_lang st); reflexivity.
Qed.

(** The chain returns at a provider that succeeds, after chat requests
    only, or is the fallback block run after events that are no request to
    the fallback endpoint. *)
Lemma translate_with_providers_split fuel cfg texts actress target_lang st :
  (exists p t st2 evs,
      In p (providers cfg)
      /\ translate_with_providers fuel cfg texts actress target_lang st
         = Ret (set_provider (dict_trans t) (provider_name p)) st2
      /\ _google_trans_wait st2 = _google_trans_wait st
      /\ events st2
         = events st ++ evs
           ++ [EvChat p (system_content target_lang)
                 (protect (get_default actress []) texts)]
      /\ Forall is_chat evs)
  \/ (exists st1 evs,
         translate_with_providers fuel cfg texts actress target_lang st
         = google_fallback fuel texts target_lang st1
         /\ _google_trans_wait st1 = _google_trans_wait st
         /\ events st1 = events st ++ evs
         /\ count_gets evs = 0%nat).
Proof.
  destruct (providers_loop_cases texts (get_default actress []) target_lang
              (providers cfg) [] st)
    as [(pre & p & post & rs & st1 & r & t & st2
         & Hps & Hfail & Hp & Ht & Hloop)
       | (rs & st1 & Hfail)].
  - left.
    destruct (only_providers_fail Hfail) as (Hw1 & evs1 & He1 & Ha1).
    destruct (client_success _ _ _ _ _ _ _ _ Hp Ht) as (-> & He2).
    destruct (client_returns texts p (Some (get_default actress []))
                target_lang st1) as (r0 & st0 & Hrun0 & Hw2 & _).
    rewrite Hp in Hrun0. injection Hrun0 as <-.
    exists p, t, st2, evs1.
    split; [rewrite Hps; apply in_elt|].
    split.
    { unfold translate_with_providers.
      destruct (providers cfg) as [|q qs]; [destruct pre; discriminate|].
      unfold bind at 1. unfold bind at 1. rewrite Hloop. reflexivity. }
    split; [congruence|].
    split; [|exact Ha1].
    rewrite He2, He1, <- app_assoc. reflexivity.
  - right.
    destruct (only_providers_fail Hfail) as (Hw1 & evs1 & He1 & Ha1).
    pose proof (translate_with_providers_fail fuel cfg actress Hfail) as Hrun.
    exists (after_providers (providers cfg) rs st1).
    unfold after_providers in *.
    destruct (providers cfg) as [|q qs].
    + exists evs1.
      split; [exact Hrun|].
      split; [exact Hw1|]. split; [exact He1|].
      apply count_gets_chat, Ha1.
    + exists (evs1 ++ [all_failed_warning (q :: qs) rs]).
      split; [exact Hrun|]. simpl.
      split; [exact Hw1|].
      split; [rewrite He1, <- app_assoc; reflexivity|].
      rewrite count_gets_app, (count_gets_chat _ Ha1). reflexivity.
Qed.

End ChainFacts.

Section Trace.
Context {E : Env}.
Hypothesis Hrand : randint_in_range E.

Lemma retry_trace_weaken url lo lo' evs :
  (lo <= lo')%Z -> retry_trace url lo' evs -> retry_trace url lo evs.
Proof.
  intros Hlo. induction 1; constructor; [lia | assumption].
Qed.

Lemma throttled_trace (fuel : nat) :
  forall url r st,
    match throttled fuel url r st with
    | Ret r' st' =>
        exists evs,
          events st' = events st ++ evs
          /\ retry_trace url (_google_trans_wait st) evs
          /\ (status_code r' =? 429)%Z = false
    | Raise e st' =>
        exists evs,
          events st' = events st ++ evs
          /\ retry_trace url (_google_trans_wait st) evs
          /\ evs <> []
    | Diverge => True
    end.
Proof using Hrand.
  induction fuel as [|fuel IH]; intros url r st;
    destruct (status_code r =? 429)%Z eqn:Hr; simpl; rewrite Hr;
    try exact I;
    try (exists []; rewrite app_nil_r; repeat split;
         [constructor | exact Hr]).
  unfold bind, read_wait, warning, sleep, get. simpl.
  destruct (requests_get url _) as [[e | r'] w] eqn:Hget; simpl.
  - eexists. split; [rewrite <- !app_assoc; reflexivity|].
    split; [|discriminate]. simpl. constructor; [lia | constructor].
  - destruct (status_code r' =? 429)%Z eqn:Hr'.
    + unfold randint, write_wait. simpl.
      destruct (random_randint 60 90 w) as [n w'] eqn:Hn.
      pose proof (@Hrand 60%Z 90%Z w ltac:(lia)) as Hb.
      rewrite Hn in Hb. simpl in Hb.
      match goal with
      | |- match throttled fuel url r' ?s with _ => _ end =>
          specialize (IH url r' s); destruct (throttled fuel url r' s)
            as [r1 st1 | e st1 |]; [| |exact I]
      end.
      * destruct IH as (evs & Hev & Htr & Hs). simpl in Hev, Htr.
        eexists. split; [rewrite Hev, <- !app_assoc; reflexivity|].
        split; [|exact Hs]. simpl. constructor; [lia|].
        eapply retry_trace_weaken; [|exact Htr]. lia.
      * destruct IH as (evs & Hev & Htr & Hs). simpl in Hev, Htr.
        eexists. split; [rewrite Hev, <- !app_assoc; reflexivity|].
        split; [|discriminate]. simpl. constructor; [lia|].
        eapply retry_trace_weaken; [|exact Htr]. lia.
    + unfold ret.
      match goal with
      | |- match throttled fuel url r' ?s with _ => _ end =>
          specialize (IH url r' s); destruct (throttled fuel url r' s)
            as [r1 st1 | e st1 |]; [| |exact I]
      end.
      * destruct IH as (evs & Hev & Htr & Hs). simpl in Hev, Htr.
        eexists. split; [rewrite Hev, <- !app_assoc; reflexivity|].
        split; [|exact Hs]. simpl. constructor; [lia | exact Htr].
      * destruct IH as (evs & Hev & Htr & Hs). simpl in Hev, Htr.
        eexists. split; [rewrite Hev, <- !app_assoc; reflexivity|].
        split; [|discriminate]. simpl. constructor; [lia | exact Htr].
Qed.

Lemma google_trans_trace_run fuel texts to st :
  let url := google_trans_url texts to in
  match google_trans fuel texts to st with
  | Ret v st' =>
      exists evs,
        events st' = events st ++ EvGet url :: evs ++ [EvSleep 4]
        /\ retry_trace url (_google_trans_wait st) evs
  | Raise e st' =>
      exists evs,
        events st' = events st ++ EvGet url :: evs
        /\ retry_trace url (_google_trans_wait st) evs
  | Diverge => True
  end.
Proof using Hrand.
  intros url. unfold google_trans. fold url. unfold bind at 1. unfold get.
  destruct (requests_get url (world st)) as [[e | r] w] eqn:Hget; simpl.
  - exists []. split; [reflexivity | constructor].
  - unfold bind at 1.
    match goal with
    | |- match match throttled fuel url r ?s with _ => _ end with _ => _ end =>
        pose proof (throttled_trace fuel url r s) as Hloop;
        destruct (throttled fuel url r s) as [r1 st1 | e st1 |]; [| |exact I]
    end.
    + destruct Hloop as (evs & Hev & Htr & Hs). simpl in Hev, Htr.
      unfold bind, sleep, ret.
      destruct (status_code r1 =? 200)%Z.
      * destruct (json r1) as [e | v]; simpl.
        -- exists evs. split; [|exact Htr].
           rewrite Hev, <- app_assoc. reflexivity.
        -- exists evs. split; [|exact Htr].
           rewrite Hev, <- !app_assoc. reflexivity.
      * simpl. exists evs. split; [|exact Htr].
        rewrite Hev, <- !app_assoc. reflexivity.
    + destruct Hloop as (evs & Hev & Htr & _). simpl in Hev, Htr.
      exists evs. split; [|exact Htr].
      rewrite Hev, <- app_assoc. reflexivity.
Qed.

End Trace.

Section CallerBackoff.
Context {E : Env}.






Hypothesis Hrand : randint_in_range E.



End CallerBackoff.

Section Blocks.
Context {E : Env} {L : LangDetect}.

(** The chain sends at least one request before it ends. *)
Lemma translate_with_providers_request fuel cfg texts actress target_lang
    st st' :
  final (translate_with_providers fuel cfg texts actress target_lang st)
  = Some st' ->
  exists evs, events st' = events st ++ evs /\ Exists is_request evs.
Proof.
  intros Hfin.
  destruct (translate_with_providers_split fuel cfg texts actress
              target_lang st)
    as [(p & t & st2 & evs & _ & Hrun & Hw & Hev & Ha)
       | (st1 & evs & Hrun & Hw & Hev & Hc)];
    rewrite Hrun in Hfin.
  - injection Hfin as <-. eexists. split; [exact Hev|].
    apply Exists_app. right. constructor. exact I.
  - rewrite final_google_fallback in Hfin.
    destruct (google_trans_first_get fuel texts target_lang st1 Hfin)
      as (evs2 & Hev2).
    exists (evs ++ EvGet (google_trans_url texts target_lang) :: evs2).
    split; [rewrite Hev2, Hev, <- app_assoc; reflexivity|].
    apply Exists_app. right. constructor. exact I.
Qed.

(** The title block: nothing when no translation is attempted; otherwise
    one run of the chain on the title, then at most a warning. *)
Lemma translate_title_run fuel cfg info st :
  (title_attempted cfg info = false
   /\ translate_title fuel cfg info st = Ret info st)
  \/ (title_attempted cfg info = true
      /\ ori_title info = None
      /\ exists t,
           title info = Some t
           /\ match translate_with_providers fuel cfg t (actress info)
                      (target_language cfg) st with
              | Ret r st1 =>
                  match k_trans r with
                  | Some trans =>
                      translate_title fuel cfg info st
                      = Ret {| title := Some trans;
                               plot := plot info;
                               actress := actress info;
                               ori_title := title info;
                               ori_title_break :=
                                 match k_orig_break r with
                                 | Some b => Some b
                                 | None => ori_title_break info
                                 end;
                               title_break :=
                                 match k_trans_break r with
                                 | Some b => Some b
                                 | None => title_break info
                                 end;
                               ori_plot := ori_plot info |} st1
                  | None =>
                      exists st2,
                        translate_title fuel cfg info st = Ret info st2
                        /\ _google_trans_wait st2 = _google_trans_wait st1
                        /\ exists evs,
                             events st2 = events st1 ++ evs
                             /\ count_gets evs = 0%nat
                  end
              | Raise _ _ => False
              | Diverge => translate_title fuel cfg info st = Diverge
              end).
Proof.
  unfold translate_title, title_attempted.
  destruct (truthy (title info) && field_title (fields cfg)
            && negb (is_some (ori_title info))) eqn:Hguard;
    [|left; auto].
  destruct (auto_detect_language cfg && _) eqn:Hskip; [left; auto|].
  right. split; [reflexivity|].
  apply andb_true_iff in Hguard. destruct Hguard as [Hguard Hori].
  apply andb_true_iff in Hguard. destruct Hguard as [Htruthy _].
  split; [destruct (ori_title info); [discriminate | reflexivity]|].
  destruct (title info) as [[|c t]|]; try discriminate.
  exists (c :: t). split; [reflexivity|]. simpl. unfold bind.
  destruct (translate_with_providers fuel cfg (c :: t) (actress info)
              (target_language cfg) st) as [r st1 | e st1 |] eqn:Hrun.
  - destruct (k_trans r); [reflexivity|].
    unfold warning, ret.
    destruct (title_mandatory cfg).
    + eexists. split; [reflexivity|]. split; [reflexivity|].
      eexists. split; reflexivity.
    + exists st1. split; [reflexivity|]. split; [reflexivity|].
      exists []. rewrite app_nil_r. auto.
  - exact (translate_with_providers_no_raise _ _ _ _ _ _ Hrun).
  - reflexivity.
Qed.

Lemma translate_plot_run fuel cfg info st :
  (plot_attempted cfg info = false
   /\ translate_plot fuel cfg info st = Ret info st)
  \/ (plot_attempted cfg info = true
      /\ exists p,
           plot info = Some p
           /\ match translate_with_providers fuel cfg p (actress info)
                      (target_language cfg) st with
              | Ret r st1 =>
                  translate_plot fuel cfg info st
                  = Ret match k_trans r with
                        | Some trans =>
                            {| title := title info;
                               plot := Some trans;
                               actress := actress info;
                               ori_title := ori_title info;
                               ori_title_break := ori_title_break info;
                               title_break := title_break info;
                               ori_plot := plot info |}
                        | None => info
                        end st1
              | Raise _ _ => False
              | Diverge => translate_plot fuel cfg info st = Diverge
              end).
Proof.
  unfold translate_plot, plot_attempted.
  destruct (truthy (plot info) && field_plot (fields cfg)) eqn:Hguard;
    [|left; auto].
  destruct (auto_detect_language cfg && _) eqn:Hskip; [left; auto|].
  right. split; [reflexivity|].
  apply andb_true_iff in Hguard. destruct Hguard as [Htruthy _].
  destruct (plot info) as [[|c t]|]; try discriminate.
  exists (c :: t). split; [reflexivity|]. simpl. unfold bind.
  destruct (translate_with_providers fuel cfg (c :: t) (actress info)
              (target_language cfg) st) as [r st1 | e st1 |] eqn:Hrun.
  - destruct (k_trans r); reflexivity.
  - exact (translate_with_providers_no_raise _ _ _ _ _ _ Hrun).
  - reflexivity.
Qed.

End Blocks.

Section ChainTheorems.
Context {E : Env}.

(** X4. Whatever the providers and the fallback endpoint answer, a result
    returned by [translate_with_providers] has one of three shapes: the
    translation of a configured provider labelled with its name; the dict of
    the fallback, labelled 'Google', with as many original as translated
    fragments; or a dict with the single key ['error'].  So 'provider' is
    set exactly when 'trans' is, 'error' exactly when 'trans' is not, and
    the keys 'error_code' and 'error_msg' of the client never leave the
    chain. *)
Theorem translate_with_providers_result_shape :
  forall fuel cfg texts actress target_lang st r st',
    translate_with_providers fuel cfg texts actress target_lang st
    = Ret r st' ->
    ((exists p t,
         In p (providers cfg)
         /\ r = set_provider (dict_trans t) (provider_name p))
     \/ (exists origs transs,
            length origs = length transs
            /\ r = dict_google (concat transs) origs (map VStr transs)
                     (str "Google"))
     \/ (exists msg, r = dict_error msg))
    /\ is_some (k_provider r) = is_some (k_trans r)
    /\ is_some (k_error r) = negb (is_some (k_trans r))
    /\ k_error_code r = None
    /\ k_error_msg r = None.
Proof.
  intros fuel cfg texts actress target_lang st r st' Hrun.
  assert (Hshape :
            (exists p t,
                In p (providers cfg)
                /\ r = set_provider (dict_trans t) (provider_name p))
            \/ (exists origs transs,
                   length origs = length transs
                   /\ r = dict_google (concat transs) origs (map VStr transs)
                            (str "Google"))
            \/ (exists msg, r = dict_error msg)).
  { destruct (translate_with_providers_split fuel cfg texts actress
                target_lang st)
      as [(p & t & st2 & evs & Hin & Hrun2 & _)
         | (st1 & evs & Hrun2 & _)];
      rewrite Hrun2 in Hrun.
    - injection Hrun as <- _. left. exists p, t.
      split; [exact Hin | reflexivity].
    - right. rewrite google_fallback_run in Hrun.
      assert (Hout : exists x, r = fallback_outcome x).
      { destruct (google_trans fuel texts target_lang st1)
          as [v s | e s |]; try discriminate;
          injection Hrun as <- _;
          [exists (inr v) | exists (inl e)]; reflexivity. }
      destruct Hout as ([e | v] & ->); simpl; [right; eauto|].
      destruct (sentences_block v) as [e | r] eqn:Hb; [right; eauto|].
      destruct (sentences_block_shape v Hb)
        as [(origs & transs & Hs & ->) | (msg & ->)]; [left | right; eauto].
      exists origs, transs. split; [|reflexivity].
      destruct Hs as (kvs & sentences & items & _ & _ & _ & Ho & Ht).
      apply Forall2_length in Ho. apply Forall2_length in Ht.
      rewrite length_map in Ht. exact (eq_trans (eq_sym Ho) Ht). }
  split; [exact Hshape|].
  destruct Hshape as [(p & t & _ & ->) | [(o & b & _ & ->) | (msg & ->)]];
    repeat split.
Qed.

End ChainTheorems.

(** X4 on one provider with an empty answer, then the fallback. *)
Lemma translate_with_providers_result_shape_witness :
  exists r st',
    translate_with_providers 0 (config [provider_a] true) (str "こんにちは")
      None (str "zh_CN") provider_then_fallback = Ret r st'
    /\ k_provider r = Some (str "Google")
    /\ k_error_code r = None.
Proof.
  destruct (translate_with_providers 0 (config [provider_a] true)
              (str "こんにちは") None (str "zh_CN") provider_then_fallback)
    as [r st' | e st' |] eqn:Hrun; try (vm_compute in Hrun; discriminate).
  exists r, st'. split; [reflexivity|].
  destruct (translate_with_providers_result_shape _ _ _ _ _ _ _ _ Hrun)
    as (_ & _ & _ & Hcode & _).
  split; [|exact Hcode].
  vm_compute in Hrun. injection Hrun as <- _. reflexivity.
Defined.

Section SelfTestTheorems.
Context {E : Env}.

Lemma chats_fallback url (evs : list Event) :
  Forall (is_fallback url) evs -> chats evs = [].
Proof.
  induction 1 as [|ev evs Hev _ IH]; [reflexivity|].
  destruct ev; simpl in *; try contradiction; exact IH.
Qed.



End SelfTestTheorems.


Section OrchestratorTheorems.
Context {E : Env} {L : LangDetect}.

Lemma translate_title_info fuel cfg info st info1 st1 :
  translate_title fuel cfg info st = Ret info1 st1 ->
  actress info1 = actress info
  /\ plot info1 = plot info
  /\ ori_plot info1 = ori_plot info
  /\ (info1 = info
      \/ (title_attempted cfg info = true
          /\ ori_title info = None
          /\ ori_title info1 = title info
          /\ exists t, title info1 = Some t)).
Proof.
  intros Hrun.
  destruct (translate_title_run fuel cfg info st)
    as [(_ & Hsame) | (Hatt & Hori & t & Ht & Hcase)].
  - rewrite Hsame in Hrun. injection Hrun as <- _. auto.
  - destruct (translate_with_providers fuel cfg t (actress info)
                (target_language cfg) st) as [r st2 | e st2 |];
      [|contradiction | congruence].
    destruct (k_trans r) as [trans|].
    + rewrite Hcase in Hrun. injection Hrun as <- _. simpl.
      repeat split. right. repeat split; eauto.
    + destruct Hcase as (st3 & Hcase & _). rewrite Hcase in Hrun.
      injection Hrun as <- _. auto.
Qed.

Lemma translate_plot_info fuel cfg info st info1 st1 :
  translate_plot fuel cfg info st = Ret info1 st1 ->
  info1 = info
  \/ (plot_attempted cfg info = true
      /\ exists t,
           info1 = {| title := title info;
                      plot := Some t;
                      actress := actress info;
                      ori_title := ori_title info;
                      ori_title_break := ori_title_break info;
                      title_break := title_break info;
                      ori_plot := plot info |}).
Proof.
  intros Hrun.
  destruct (translate_plot_run fuel cfg info st)
    as [(_ & Hsame) | (Hatt & p & Hp & Hcase)].
  - rewrite Hsame in Hrun. injection Hrun as <- _. auto.
  - destruct (translate_with_providers fuel cfg p (actress info)
                (target_language cfg) st) as [r st2 | e st2 |];
      [|contradiction | congruence].
    rewrite Hcase in Hrun. injection Hrun as <- _.
    destruct (k_trans r) as [trans|]; [right; eauto | auto].
Qed.

Lemma translate_movie_info_run fuel cfg info st :
  translate_movie_info fuel cfg info st
  = match translate_title fuel cfg info st with
    | Ret info1 st1 =>
        match translate_plot fuel cfg info1 st1 with
        | Ret info2 st2 => Ret (true, info2) st2
        | Raise e st2 => Raise e st2
        | Diverge => Diverge
        end
    | Raise e st1 => Raise e st1
    | Diverge => Diverge
    end.
Proof.
  unfold translate_movie_info, bind.
  destruct (translate_title fuel cfg info st) as [info1 st1 | |];
    reflexivity.
Qed.

Lemma translate_plot_no_raise fuel cfg info st e st' :
  translate_plot fuel cfg info st <> Raise e st'.
Proof.
  intros H. pose proof (translate_plot_title fuel cfg info st) as Hp.
  rewrite H in Hp. exact Hp.
Qed.

(** X9. The original of a translated title survives later runs, that of a
    translated plot does not: the title block is guarded by
    [info.ori_title is None], the plot block has no such guard.  After a run
    that replaced the title, any second run leaves the title and the
    archived original alone.  After a run that replaced the plot, a second
    run that replaces the plot again stores the first translation in
    [ori_plot], so that the original plot is lost. *)
Theorem translate_plot_archive_overwritten :
  forall fuel cfg info st info1 st1 fuel' cfg' info2 st2 r1 r2,
    translate_movie_info fuel cfg info st = Ret (r1, info1) st1 ->
    translate_movie_info fuel' cfg' info1 st1 = Ret (r2, info2) st2 ->
    (title info1 <> title info ->
     title info2 = title info1 /\ ori_title info2 = title info)
    /\ (plot info1 <> plot info ->
        plot info2 <> plot info1 ->
        ori_plot info1 = plot info
        /\ ori_plot info2 = plot info1
        /\ ori_plot info2 <> plot info).
Proof.
  intros fuel cfg info st info1 st1 fuel' cfg' info2 st2 r1 r2 Hrun1 Hrun2.
  rewrite translate_movie_info_run in Hrun1, Hrun2.
  destruct (translate_title fuel cfg info st) as [i1 s1 | |] eqn:Ht1;
    try discriminate.
  destruct (translate_plot fuel cfg i1 s1) as [i2 s2 | |] eqn:Hp1;
    try discriminate.
  injection Hrun1 as _ <- <-.
  destruct (translate_title fuel' cfg' i2 s2) as [i3 s3 | |] eqn:Ht2;
    try discriminate.
  destruct (translate_plot fuel' cfg' i3 s3) as [i4 s4 | |] eqn:Hp2;
    try discriminate.
  injection Hrun2 as _ <- <-.
  destruct (translate_title_info _ _ _ _ _ _ Ht1) as (_ & Hpl1 & Hop1 & Hti1).
  destruct (translate_title_info _ _ _ _ _ _ Ht2) as (_ & Hpl2 & Hop2 & Hti2).
  pose proof (translate_plot_info _ _ _ _ _ _ Hp1) as Hpi1.
  pose proof (translate_plot_info _ _ _ _ _ _ Hp2) as Hpi2.
  split.
  - intros Hne.
    assert (Hi2 : title i2 = title i1 /\ ori_title i2 = ori_title i1).
    { destruct Hpi1 as [-> | (_ & t & ->)]; auto. }
    assert (Hi4 : title i4 = title i3 /\ ori_title i4 = ori_title i3).
    { destruct Hpi2 as [-> | (_ & t & ->)]; auto. }
    destruct Hi2 as [Hi2t Hi2o]. destruct Hi4 as [Hi4t Hi4o].
    destruct Hti1 as [-> | (Hatt & Hnone & Hori & x & Hx)]; [congruence|].
    destruct Hti2 as [-> | (_ & Hnone2 & _)]; [split; congruence|].
    exfalso. unfold title_attempted in Hatt.
    destruct (title info) as [[|c t]|]; simpl in Hatt; try discriminate.
    congruence.
  - intros Hne1 Hne2.
    assert (H1 : ori_plot i2 = plot i1).
    { destruct Hpi1 as [-> | (_ & t & ->)]; [congruence | reflexivity]. }
    assert (H2 : ori_plot i4 = plot i3).
    { destruct Hpi2 as [-> | (_ & t & ->)]; [congruence | reflexivity]. }
    split; [congruence|]. split; congruence.
Qed.

End OrchestratorTheorems.

(** X9 on a plot translated twice: after the second run [ori_plot] holds
    the first translation, and the original plot is gone. *)
Lemma translate_plot_archive_overwritten_witness :
  exists info1 st1 info2 st2,
    translate_movie_info (L := script_detect) 0 plain_config plot_movie
      (script false []
         [inr (response_ok greeting); inr (response_ok greeting_again)])
    = Ret (true, info1) st1
    /\ translate_movie_info (L := script_detect) 0 plain_config info1 st1
       = Ret (true, info2) st2
    /\ plot info2 = Some (str "您好")
    /\ ori_plot info2 = Some (str "你好")
    /\ ori_plot info2 <> plot plot_movie.
Proof.
  destruct (translate_movie_info (L := script_detect) 0 plain_config
              plot_movie
              (script false []
                 [inr (response_ok greeting);
                  inr (response_ok greeting_again)]))
    as [[r1 info1] st1 | e1 st1 |] eqn:H1;
    try (vm_compute in H1; discriminate).
  assert (H1v := H1). vm_compute in H1v. injection H1v as <- <- <-.
  match type of H1 with
  | _ = Ret (_, ?i) ?s =>
      destruct (translate_movie_info (L := script_detect) 0 plain_config i s)
        as [[r2 info2] st2 | e2 st2 |] eqn:H2;
        try (vm_compute in H2; discriminate)
  end.
  assert (H2v := H2). vm_compute in H2v. injection H2v as <- <- <-.
  destruct (@translate_plot_archive_overwritten script_env script_detect
              _ _ _ _ _ _ _ _ _ _ _ _ H1 H2) as [_ Hplot].
  destruct Hplot as (_ & _ & Hlost);
    try (intros Heq; vm_compute in Heq; discriminate).
  do 4 eexists. split; [exact H1|]. split; [exact H2|].
  split; [reflexivity|]. split; [reflexivity | exact Hlost].
Defined.

Section Finals.
Context {E : Env} {L : LangDetect}.





Hypothesis Hrand : randint_in_range E.


End Finals.


Section Endpoint.
Context {E : Env}.

(** X12. The events of one call of [google_trans], for [random.randint]
    answering within its bounds.  The call starts with a request to its URL;
    each retry is a warning, a sleep and a request to the same URL, and the
    sleep lasts at least the wait the call started with.  A call that
    returns ends with the cooldown [time.sleep(4)]; a call that raises ends
    with the request that raised (or with the request whose body could not
    be decoded) and skips the cooldown. *)
Theorem google_trans_trace :
  randint_in_range E ->
  forall fuel texts to st,
    let url := google_trans_url texts to in
    match google_trans fuel texts to st with
    | Ret v st' =>
        exists evs,
          events st' = events st ++ EvGet url :: evs ++ [EvSleep 4]
          /\ retry_trace url (_google_trans_wait st) evs
    | Raise e st' =>
        exists evs,
          events st' = events st ++ EvGet url :: evs
          /\ retry_trace url (_google_trans_wait st) evs
    | Diverge => True
    end.
Proof.
  intros Hrand fuel texts to st. apply google_trans_trace_run. exact Hrand.
Qed.

Hypothesis Hcalm : never_throttled E.

Lemma google_trans_calm fuel texts to st :
  match google_trans fuel texts to st with
  | Ret _ st' | Raise _ st' =>
      _google_trans_wait st' = _google_trans_wait st
  | Diverge => False
  end.
Proof using Hcalm.
  unfold google_trans. unfold bind at 1. unfold get.
  destruct (requests_get _ (world st)) as [[e | r] w] eqn:Hget; simpl.
  - reflexivity.
  - assert (Hr : (status_code r =? 429)%Z = false).
    { apply Z.eqb_neq. exact (Hcalm _ _ _ _ Hget). }
    unfold bind at 1. rewrite (throttled_done fuel _ r Hr).
    unfold ret, bind, sleep, lift, raise.
    destruct (status_code r =? 200)%Z; [|reflexivity].
    destruct (json r) as [e | v]; reflexivity.
Qed.

Context {L : LangDetect}.

End Endpoint.

(** X12 on three throttled responses and a success: the call ends with the
    cooldown, after retries that each slept 60 seconds or more. *)
Lemma google_trans_trace_witness :
  exists v st' evs,
    google_trans 3 (str "こんにちは") (str "zh_CN") three_throttles
    = Ret v st'
    /\ events st'
       = EvGet (google_trans_url (str "こんにちは") (str "zh_CN"))
         :: evs ++ [EvSleep 4]
    /\ retry_trace (google_trans_url (str "こんにちは") (str "zh_CN")) 60 evs.
Proof.
  pose proof (google_trans_trace script_randint 3 (str "こんにちは")
                (str "zh_CN") three_throttles) as H.
  cbv zeta in H.
  destruct (google_trans 3 (str "こんにちは") (str "zh_CN") three_throttles)
    as [v st' | e st' |] eqn:Hrun; try (vm_compute in Hrun; discriminate).
  destruct H as (evs & Hev & Htr).
  exists v, st', evs. split; [reflexivity|]. split; [exact Hev | exact Htr].
Defined.

Lemma calm_never_throttled : never_throttled calm_env.
Proof.
  intros url w r w' H. injection H as <- _. discriminate.
Qed.


Lemma occurs_nil (s : pystr) : occurs [] s = true.
Proof. destruct s; reflexivity. Qed.

Lemma protect_absent (actress : list pystr) :
  forall texts,
    (forall name, In name actress -> occurs name texts = false) ->
    protect actress texts = texts.
Proof.
  induction actress as [|e es IH]; intros texts Habs; [reflexivity|].
  assert (He : e <> []).
  { intros ->. pose proof (Habs [] (or_introl eq_refl)) as H.
    rewrite occurs_nil in H. discriminate. }
  unfold protect. cbn [fold_left].
  rewrite (replace_scan_eq e (token e) He).
  rewrite (scan_absent e (token e) texts (Habs e (or_introl eq_refl))).
  apply IH. intros name Hn. apply Habs. right. exact Hn.
Qed.

Section Replies.
Context {E : Env}.

(** What the client makes of an answer whose first choice has content. *)
Lemma client_content texts p actress target_lang st content more w :
  import_openai (world st) = true ->
  OpenAI p (world st) = None ->
  chat_completions_create p (system_content target_lang)
    (protect (get_default actress []) texts) (world st)
  = (inr (Some content :: more), w) ->
  content <> [] ->
  translate_with_openai_compatible texts p actress target_lang st
  = Ret (dict_trans (restore (get_default actress []) (strip content)))
      (emit w (EvChat p (system_content target_lang)
                 (protect (get_default actress []) texts)) st).
Proof.
  intros Himp Hc Ha Hne. unfold translate_with_openai_compatible.
  rewrite Himp. simpl. unfold try_except, bind, new_client, create.
  rewrite Hc, Ha. destruct content; [congruence | reflexivity].
Qed.


(** X14. When no performer name occurs in the text and no token in the
    reply, protection and restoration do nothing: the provider is sent the
    text itself and the translation is its reply, stripped. *)
Theorem names_absent_plain_translation :
  forall texts p actress target_lang st content more w,
    (forall name,
        In name (get_default actress []) -> occurs name texts = false) ->
    (forall name,
        In name (get_default actress []) ->
        occurs (token name) (strip content) = false) ->
    import_openai (world st) = true ->
    OpenAI p (world st) = None ->
    chat_completions_create p (system_content target_lang) texts (world st)
    = (inr (Some content :: more), w) ->
    content <> [] ->
    protect (get_default actress []) texts = texts
    /\ translate_with_openai_compatible texts p actress target_lang st
       = Ret (dict_trans (strip content))
           (emit w (EvChat p (system_content target_lang) texts) st).
Proof.
  intros texts p actress target_lang st content more w Habs Htok Himp Hc Ha
         Hne.
  pose proof (protect_absent _ texts Habs) as Hp.
  split; [exact Hp|].
  rewrite (client_content texts p actress target_lang st content more w
             Himp Hc); [| rewrite Hp; exact Ha | exact Hne].
  rewrite Hp, (restore_absent _ _ Htok). reflexivity.
Qed.

Context {L : LangDetect}.


End Replies.

(** X14 on a text that names neither performer. *)
Lemma names_absent_plain_translation_witness :
  exists st',
    translate_with_openai_compatible (str "こんにちは") provider_a
      (Some two_names) (str "zh_CN")
      (script true [inr [Some (str " 你好 ")]] [])
    = Ret (dict_trans (str "你好")) st'.
Proof.
  assert (Habs : forall name,
             In name two_names -> occurs name (str "こんにちは") = false).
  { intros name [<- | [<- | []]]; reflexivity. }
  assert (Htok : forall name,
             In name two_names ->
             occurs (token name) (strip (str " 你好 ")) = false).
  { intros name [<- | [<- | []]]; reflexivity. }
  destruct (@names_absent_plain_translation script_env (str "こんにちは")
              provider_a (Some two_names) (str "zh_CN")
              (script true [inr [Some (str " 你好 ")]] [])
              (str " 你好 ") []
              {| openai_installed := true; chat_answers := [];
                 http_answers := [] |}
              Habs Htok eq_refl eq_refl eq_refl ltac:(discriminate))
    as [_ Hrun].
  rewrite Hrun. eexists. reflexivity.
Defined.


(* ================================================================== *)
(** ** The functions with their console output *)

Section ConsoleChain.
Context {E : Env} {P : Platform E}.

(** [print] ends, and touches neither the events nor the wait. *)
Lemma print_run text end_ st :
  match Io.print text end_ st with
  | Ret _ st' | Raise _ st' =>
      events st' = events st
      /\ _google_trans_wait st' = _google_trans_wait st
  | Diverge => False
  end.
Proof.
  unfold Io.print. destruct (console_print text end_ (world st)) as [[e|] w];
    split; reflexivity.
Qed.

Lemma print_final text end_ st st' :
  final (Io.print text end_ st) = Some st' ->
  events st' = events st /\ _google_trans_wait st' = _google_trans_wait st.
Proof.
  pose proof (print_run text end_ st) as H.
  destruct (Io.print text end_ st); [| |discriminate];
    intros Hf; injection Hf as <-; exact H.
Qed.

Lemma print_ok text end_ st :
  console_ok P ->
  exists st',
    Io.print text end_ st = Ret tt st'
    /\ events st' = events st
    /\ _google_trans_wait st' = _google_trans_wait st.
Proof.
  intros Hc. unfold Io.print. pose proof (Hc text end_ (world st)) as H.
  destruct (console_print text end_ (world st)) as [r w]. simpl in H.
  subst r. eexists. repeat split.
Qed.

Lemma only_print (Q : Event -> Prop) text end_ :
  only Q (Io.print text end_).
Proof.
  apply only_silent. intros st st' H. exact (proj1 (print_final _ _ _ _ H)).
Qed.

(** The client: the import first, then the function without it. *)
Lemma client_import texts provider actress target_lang st :
  Io.translate_with_openai_compatible texts provider actress target_lang st
  = match import_raises (world st) with
    | Some e => Raise e st
    | None =>
        translate_with_openai_compatible texts provider actress target_lang
          st
    end.
Proof.
  unfold Io.translate_with_openai_compatible, Io.import_OpenAI,
    translate_with_openai_compatible, bind.
  destruct (import_raises (world st)); [reflexivity|].
  destruct (import_openai (world st)); reflexivity.
Qed.

Lemma only_io_client texts provider actress target_lang :
  only is_chat
    (Io.translate_with_openai_compatible texts provider actress target_lang).
Proof.
  intros st st' H. rewrite client_import in H.
  destruct (import_raises (world st)).
  - injection H as <-. exists []. rewrite app_nil_r. auto.
  - exact (only_client texts provider actress target_lang st H).
Qed.

(** What a run of the client leaves behind. *)
Lemma io_client_cases texts provider actress target_lang st :
  (exists e,
      import_raises (world st) = Some e
      /\ Io.translate_with_openai_compatible texts provider actress
           target_lang st = Raise e st)
  \/ (exists r st',
         import_raises (world st) = None
         /\ Io.translate_with_openai_compatible texts provider actress
              target_lang st = Ret r st'
         /\ _google_trans_wait st' = _google_trans_wait st
         /\ (events st' = events st
             \/ events st'
                = events st
                  ++ [EvChat provider (system_content target_lang)
                        (protect (get_default actress []) texts)])
         /\ (forall t, k_trans r = Some t ->
                       events st'
                       = events st
                         ++ [EvChat provider (system_content target_lang)
                               (protect (get_default actress []) texts)])).
Proof.
  rewrite client_import.
  destruct (import_raises (world st)) as [e|]; [left; eauto|].
  right.
  destruct (client_returns texts provider actress target_lang st)
    as (r & st' & Hrun & Hw & Hev).
  exists r, st'. rewrite Hrun.
  split; [reflexivity|]. split; [reflexivity|]. split; [exact Hw|].
  split; [exact Hev|].
  intros t Ht.
  exact (proj2 (client_success _ _ _ _ _ _ _ _ Hrun Ht)).
Qed.

(** A run of the provider loop that ends has added chat requests only and
    left the wait alone; when it returns a result, the last of them is the
    request that was answered. *)
Lemma io_providers_loop_run texts actress target_lang total ps :
  forall idx errors st,
    match Io.providers_loop texts actress target_lang total idx ps errors st
    with
    | Ret x st' =>
        _google_trans_wait st' = _google_trans_wait st
        /\ exists evs,
             events st' = events st ++ evs
             /\ Forall is_chat evs
             /\ match x with
                | inl r => (exists t, k_trans r = Some t) /\ evs <> []
                | inr _ => True
                end
    | Raise _ st' =>
        _google_trans_wait st' = _google_trans_wait st
        /\ exists evs, events st' = events st ++ evs /\ Forall is_chat evs
    | Diverge => False
    end.
Proof.
  induction ps as [|p ps IH]; intros idx errors st.
  - simpl. split; [reflexivity|]. exists []. rewrite app_nil_r. auto.
  - cbn [Io.providers_loop]. unfold bind at 1.
    match goal with
    | |- context [Io.print ?t ?e st] =>
        pose proof (print_run t e st) as Hp;
        destruct (Io.print t e st) as [[] s0 | e0 s0 |]
    end; [|split; [tauto|]; exists []; rewrite app_nil_r; split;
            [tauto | constructor] | contradiction].
    destruct Hp as [He0 Hw0].
    unfold bind at 1.
    destruct (io_client_cases texts p (Some actress) target_lang s0)
      as [(e & _ & ->) | (r & s1 & _ & -> & Hw1 & Hev1 & Hok)].
    { split; [exact Hw0|]. exists []. rewrite app_nil_r. auto. }
    assert (Hc1 : exists evs1,
               events s1 = events st ++ evs1 /\ Forall is_chat evs1).
    { destruct Hev1 as [-> | ->]; rewrite He0.
      - exists []. rewrite app_nil_r. auto.
      - eexists. split; [reflexivity|]. repeat constructor. }
    destruct Hc1 as (evs1 & He1 & Ha1).
    destruct (k_trans r) as [t|] eqn:Ht; cbn [is_some].
    + unfold bind.
      match goal with
      | |- context [Io.print ?t ?e s1] =>
          pose proof (print_run t e s1) as Hp;
          destruct (Io.print t e s1) as [[] s2 | e2 s2 |]
      end; [| |contradiction]; destruct Hp as [He2 Hw2].
      * split; [congruence|]. exists evs1. rewrite He2.
        split; [exact He1|]. split; [exact Ha1|].
        split; [simpl; eauto|].
        intros ->. rewrite app_nil_r in He1.
        pose proof (Hok t eq_refl) as Hlast. rewrite He1, He0 in Hlast.
        apply (f_equal (@length Event)) in Hlast.
        rewrite length_app in Hlast. simpl in Hlast. lia.
      * split; [congruence|]. exists evs1. rewrite He2. auto.
    + unfold bind at 1.
      match goal with
      | |- context [Io.print ?t ?e s1] =>
          pose proof (print_run t e s1) as Hp;
          destruct (Io.print t e s1) as [[] s2 | e2 s2 |]
      end; [| |contradiction]; destruct Hp as [He2 Hw2].
      * match goal with
        | |- context [Io.providers_loop _ _ _ _ ?i ps ?errs s2] =>
            pose proof (IH i errs s2) as Hrec;
            destruct (Io.providers_loop texts actress target_lang total i ps
                        errs s2) as [x s3 | e3 s3 |]
        end; [| |contradiction].
        -- destruct Hrec as (Hw3 & evs3 & He3 & Ha3 & Hx).
           split; [congruence|].
           exists (evs1 ++ evs3). rewrite He3, He2, He1, app_assoc.
           split; [reflexivity|]. split; [apply Forall_app; auto|].
           destruct x as [r3|]; [|exact I].
           split; [exact (proj1 Hx)|].
           intros H. apply app_eq_nil in H. exact (proj2 Hx (proj2 H)).
        -- destruct Hrec as (Hw3 & evs3 & He3 & Ha3).
           split; [congruence|].
           exists (evs1 ++ evs3). rewrite He3, He2, He1, app_assoc.
           split; [reflexivity | apply Forall_app; auto].
      * split; [congruence|]. exists evs1. rewrite He2. auto.
Qed.

(** The fallback block ends where [google_trans] ended, up to the console. *)
Lemma io_google_fallback_final fuel texts target_lang st st' :
  final (Io.google_fallback fuel texts target_lang st) = Some st' ->
  exists st1,
    final (google_trans fuel texts target_lang st) = Some st1
    /\ events st' = events st1
    /\ _google_trans_wait st' = _google_trans_wait st1.
Proof.
  unfold Io.google_fallback, try_except. unfold bind at 1.
  destruct (google_trans fuel texts target_lang st) as [v s1 | e s1 |];
    [| |discriminate].
  - unfold bind at 1. unfold lift.
    destruct (sentences_block v) as [e | r]; unfold raise, ret.
    + unfold bind.
      match goal with
      | |- context [Io.print ?t ?e s1] =>
          pose proof (print_run t e s1) as Hp;
          destruct (Io.print t e s1) as [[] s2 | e2 s2 |]
      end; [| |contradiction]; intros H; injection H as <-;
        exists s1; split; try reflexivity; exact Hp.
    + unfold bind at 1.
      match goal with
      | |- context [Io.print ?t ?e s1] =>
          pose proof (print_run t e s1) as Hp;
          destruct (Io.print t e s1) as [[] s2 | e2 s2 |]
      end; [| |contradiction]; destruct Hp as [He2 Hw2].
      * intros H. injection H as <-. exists s1. auto.
      * unfold bind.
        match goal with
        | |- context [Io.print ?t ?e s2] =>
            pose proof (print_run t e s2) as Hp;
            destruct (Io.print t e s2) as [[] s3 | e3 s3 |]
        end; [| |contradiction]; destruct Hp as [He3 Hw3];
          intros H; injection H as <-; exists s1;
          split; try reflexivity; split; congruence.
  - unfold bind.
    match goal with
    | |- context [Io.print ?t ?e s1] =>
        pose proof (print_run t e s1) as Hp;
        destruct (Io.print t e s1) as [[] s2 | e2 s2 |]
    end; [| |contradiction]; intros H; injection H as <-;
      exists s1; split; try reflexivity; exact Hp.
Qed.

(** With a console that takes every text the fallback block returns what
    the block without console output returns. *)
Lemma io_google_fallback_ok fuel texts target_lang st :
  console_ok P ->
  match google_trans fuel texts target_lang st with
  | Ret v st1 =>
      exists st',
        Io.google_fallback fuel texts target_lang st
        = Ret (fallback_outcome (inr v)) st'
        /\ events st' = events st1
        /\ _google_trans_wait st' = _google_trans_wait st1
  | Raise e st1 =>
      exists st',
        Io.google_fallback fuel texts target_lang st
        = Ret (fallback_outcome (inl e)) st'
        /\ events st' = events st1
        /\ _google_trans_wait st' = _google_trans_wait st1
  | Diverge => Io.google_fallback fuel texts target_lang st = Diverge
  end.
Proof.
  intros Hc.
  destruct (google_trans fuel texts target_lang st) as [v s1 | e s1 |]
    eqn:Hg; unfold Io.google_fallback, try_except, bind; rewrite Hg;
    [| |reflexivity].
  - unfold lift, fallback_outcome.
    destruct (sentences_block v) as [e | r]; unfold raise, ret.
    + match goal with
      | |- context [Io.print ?t ?e s1] =>
          destruct (print_ok t e s1 Hc) as (s2 & -> & He & Hw)
      end. eauto.
    + match goal with
      | |- context [Io.print ?t ?e s1] =>
          destruct (print_ok t e s1 Hc) as (s2 & -> & He & Hw)
      end. eauto.
  - unfold fallback_outcome.
    match goal with
    | |- context [Io.print ?t ?e s1] =>
        destruct (print_ok t e s1 Hc) as (s2 & -> & He & Hw)
    end. eauto.
Qed.

(** A run of the chain that ends has only added events, requests to the
    fallback endpoint among them going to the URL of the text; a run that
    returns has sent a request. *)
Lemma io_translate_with_providers_run fuel cfg texts actress target_lang
    st :
  match Io.translate_with_providers fuel cfg texts actress target_lang st
  with
  | Ret _ st' =>
      exists evs,
        events st' = events st ++ evs
        /\ Forall (gets_url (google_trans_url texts target_lang)) evs
        /\ Exists is_request evs
  | Raise _ st' =>
      exists evs,
        events st' = events st ++ evs
        /\ Forall (gets_url (google_trans_url texts target_lang)) evs
  | Diverge => True
  end.
Proof.
  unfold Io.translate_with_providers.
  set (names := get_default actress []).
  assert (Hfb : forall s1 evs1,
             events s1 = events st ++ evs1 ->
             Forall (gets_url (google_trans_url texts target_lang)) evs1 ->
             match
               (Io.print (str "     [fallback] 尝试 Google 翻译...") [] ;;
                Io.google_fallback fuel texts target_lang) s1
             with
             | Ret _ st' =>
                 exists evs,
                   events st' = events st ++ evs
                   /\ Forall (gets_url (google_trans_url texts target_lang))
                        evs
                   /\ Exists is_request evs
             | Raise _ st' =>
                 exists evs,
                   events st' = events st ++ evs
                   /\ Forall (gets_url (google_trans_url texts target_lang))
                        evs
             | Diverge => True
             end).
  { intros s1 evs1 He1 Ha1. unfold bind.
    match goal with
    | |- context [Io.print ?t ?e s1] =>
        pose proof (print_run t e s1) as Hp;
        destruct (Io.print t e s1) as [[] s2 | e2 s2 |]
    end; [| |contradiction]; destruct Hp as [He2 Hw2].
    2:{ exists evs1. rewrite He2. auto. }
    assert (Hend : forall s3,
               final (Io.google_fallback fuel texts target_lang s2)
               = Some s3 ->
               exists evs,
                 events s3 = events st ++ evs
                 /\ Forall (gets_url (google_trans_url texts target_lang))
                      evs
                 /\ Exists is_request evs).
    { intros s3 Hfin.
      destruct (io_google_fallback_final _ _ _ _ _ Hfin)
        as (sg & Hg & He3 & _).
      destruct (only_google_trans fuel texts target_lang s2 Hg)
        as (evs2 & Hev2 & Hall2).
      destruct (google_trans_first_get fuel texts target_lang s2 Hg)
        as (evs2' & Hev2').
      exists (evs1 ++ evs2).
      split; [rewrite He3, Hev2, He2, He1, app_assoc; reflexivity|].
      split.
      - apply Forall_app. split; [exact Ha1|].
        revert Hall2. apply Forall_impl. apply is_fallback_gets_url.
      - apply Exists_app. right.
        rewrite Hev2 in Hev2'. apply app_inv_head in Hev2'. rewrite Hev2'.
        left. exact I. }
    destruct (Io.google_fallback fuel texts target_lang s2)
      as [r s3 | e s3 |]; [| |exact I].
    - exact (Hend s3 eq_refl).
    - destruct (Hend s3 eq_refl) as (evs & H1 & H2 & _). eauto. }
  destruct (providers cfg) as [|p ps] eqn:Hps.
  - unfold bind at 1. unfold ret.
    apply (Hfb st []); [rewrite app_nil_r; reflexivity | constructor].
  - unfold bind at 1. unfold bind at 1.
    pose proof (io_providers_loop_run texts names target_lang
                  (length (p :: ps)) (p :: ps) 0 [] st) as Hloop.
    destruct (Io.providers_loop texts names target_lang (length (p :: ps)) 0
                (p :: ps) [] st) as [[r | errors] s1 | e s1 |];
      [| | |contradiction].
    + destruct Hloop as (_ & evs & He & Ha & _ & Hne).
      unfold ret. exists evs. split; [exact He|].
      split; [revert Ha; apply Forall_impl; apply is_chat_gets_url|].
      destruct evs as [|ev evs]; [congruence|].
      left. inversion Ha as [|? ? Hev _]; subst.
      destruct ev; simpl in *; tauto.
    + destruct Hloop as (_ & evs & He & Ha & _).
      unfold bind at 1. unfold warning, ret.
      apply (Hfb _ (evs ++ [EvWarning
                              (str "所有 OpenAI 兼容服务均失败: "
                               ++ join (str "; ") errors)])).
      * simpl. rewrite He, <- app_assoc. reflexivity.
      * apply Forall_app. split.
        -- revert Ha. apply Forall_impl. apply is_chat_gets_url.
        -- repeat constructor.
    + destruct Hloop as (_ & evs & He & Ha).
      exists evs. split; [exact He|].
      revert Ha. apply Forall_impl. apply is_chat_gets_url.
Qed.

(** With a console that takes every text and an import that raises nothing
    but [ImportError], no exception leaves the chain. *)
Lemma io_translate_with_providers_no_raise fuel cfg texts actress
    target_lang st e st' :
  console_ok P -> import_clean P ->
  Io.translate_with_providers fuel cfg texts actress target_lang st
  <> Raise e st'.
Proof.
  intros Hc Hi. unfold Io.translate_with_providers.
  set (names := get_default actress []).
  assert (Hfb : forall s1,
             (Io.print (str "     [fallback] 尝试 Google 翻译...") [] ;;
              Io.google_fallback fuel texts target_lang) s1
             <> Raise e st').
  { intros s1. unfold bind.
    match goal with
    | |- context [Io.print ?t ?e s1] =>
        destruct (print_ok t e s1 Hc) as (s2 & -> & _)
    end.
    pose proof (io_google_fallback_ok fuel texts target_lang s2 Hc) as H.
    destruct (google_trans fuel texts target_lang s2) as [v s3 | e3 s3 |].
    - destruct H as (s4 & -> & _). discriminate.
    - destruct H as (s4 & -> & _). discriminate.
    - rewrite H. discriminate. }
  assert (Hloop : forall ps idx errors s e1 s1,
             Io.providers_loop texts names target_lang
               (length (providers cfg)) idx ps errors s <> Raise e1 s1).
  { induction ps as [|p ps IH]; intros idx errors s e1 s1; [discriminate|].
    cbn [Io.providers_loop]. unfold bind at 1.
    match goal with
    | |- context [Io.print ?t ?e s] =>
        destruct (print_ok t e s Hc) as (s2 & -> & _)
    end.
    unfold bind at 1.
    destruct (io_client_cases texts p (Some names) target_lang s2)
      as [(e2 & Himp & _) | (r & s3 & _ & -> & _)];
      [rewrite Hi in Himp; discriminate|].
    destruct (is_some (k_trans r)).
    - unfold bind.
      match goal with
      | |- context [Io.print ?t ?e s3] =>
          destruct (print_ok t e s3 Hc) as (s4 & -> & _)
      end. discriminate.
    - unfold bind at 1.
      match goal with
      | |- context [Io.print ?t ?e s3] =>
          destruct (print_ok t e s3 Hc) as (s4 & -> & _)
      end. apply IH. }
  destruct (providers cfg) as [|p ps] eqn:Hps.
  - unfold bind at 1. unfold ret. apply Hfb.
  - unfold bind at 1. unfold bind at 1.
    pose proof (Hloop (p :: ps) 0%nat [] st) as Hl. simpl length in Hl.
    simpl length.
    destruct (Io.providers_loop texts names target_lang (S (length ps)) 0
                (p :: ps) [] st) as [[r | errors] s1 | e1 s1 |].
    + discriminate.
    + unfold bind at 1. unfold warning. apply Hfb.
    + exfalso. exact (Hl e1 s1 eq_refl).
    + discriminate.
Qed.

End ConsoleChain.

Section ConsoleWait.
Context {E : Env} {P : Platform E}.
Hypothesis Hcalm : never_throttled E.

(** With an endpoint that never answers 429 no run of the chain that ends
    changes the wait. *)
Lemma io_translate_with_providers_wait fuel cfg texts actress target_lang
    st st' :
  final (Io.translate_with_providers fuel cfg texts actress target_lang st)
  = Some st' ->
  _google_trans_wait st' = _google_trans_wait st.
Proof using Hcalm.
  unfold Io.translate_with_providers.
  set (names := get_default actress []).
  assert (Hfb : forall s1,
             final ((Io.print (str "     [fallback] 尝试 Google 翻译...") [] ;;
                     Io.google_fallback fuel texts target_lang) s1)
             = Some st' ->
             _google_trans_wait st' = _google_trans_wait s1).
  { intros s1. unfold bind.
    match goal with
    | |- context [Io.print ?t ?e s1] =>
        pose proof (print_run t e s1) as Hp;
        destruct (Io.print t e s1) as [[] s2 | e2 s2 |]
    end; [| |contradiction]; destruct Hp as [_ Hw2].
    - intros Hfin.
      destruct (io_google_fallback_final _ _ _ _ _ Hfin)
        as (sg & Hg & _ & Hw3).
      pose proof (google_trans_calm Hcalm fuel texts target_lang s2) as Hw.
      destruct (google_trans fuel texts target_lang s2);
        [| |contradiction]; injection Hg as <-; congruence.
    - intros H. injection H as <-. exact Hw2. }
  destruct (providers cfg) as [|p ps] eqn:Hps.
  - unfold bind at 1. unfold ret. apply Hfb.
  - unfold bind at 1. unfold bind at 1.
    pose proof (io_providers_loop_run texts names target_lang
                  (length (p :: ps)) (p :: ps) 0 [] st) as Hloop.
    destruct (Io.providers_loop texts names target_lang (length (p :: ps)) 0
                (p :: ps) [] st) as [[r | errors] s1 | e s1 |];
      [| | |contradiction].
    + destruct Hloop as (Hw & _). unfold ret. intros H.
      injection H as <-. exact Hw.
    + destruct Hloop as (Hw & _). unfold bind at 1. unfold warning.
      intros H. rewrite (Hfb _ H). exact Hw.
    + destruct Hloop as (Hw & _). intros H. injection H as <-. exact Hw.
Qed.

End ConsoleWait.

Section ConsoleOrchestrator.
Context {E : Env} {P : Platform E} {L : LangDetect}.

Lemma title_attempted_title cfg info :
  title_attempted cfg info = true ->
  truthy (title info) = true
  /\ field_title (fields cfg) = true
  /\ ori_title info = None
  /\ auto_detect_language cfg
     && should_skip_translation (get_default (title info) [])
          (target_language cfg) = false
  /\ title info = Some (get_default (title info) []).
Proof.
  unfold title_attempted. intros H.
  apply andb_true_iff in H. destruct H as [H Hskip].
  apply andb_true_iff in H. destruct H as [H Hori].
  apply andb_true_iff in H. destruct H as [Ht Hf].
  apply negb_true_iff in Hskip. apply negb_true_iff in Hori.
  repeat split; try assumption.
  - destruct (ori_title info); [discriminate | reflexivity].
  - destruct (title info) as [[|c t]|]; try discriminate. reflexivity.
Qed.

Lemma plot_attempted_plot cfg info :
  plot_attempted cfg info = true ->
  truthy (plot info) = true
  /\ field_plot (fields cfg) = true
  /\ auto_detect_language cfg
     && should_skip_translation (get_default (plot info) [])
          (target_language cfg) = false
  /\ plot info = Some (get_default (plot info) []).
Proof.
  unfold plot_attempted. intros H.
  apply andb_true_iff in H. destruct H as [H Hskip].
  apply andb_true_iff in H. destruct H as [Ht Hf].
  apply negb_true_iff in Hskip.
  repeat split; try assumption.
  destruct (plot info) as [[|c t]|]; try discriminate. reflexivity.
Qed.

(** The title block when it does not run the chain: the attributes, the
    events and the wait stay as they are. *)
Lemma io_translate_title_idle fuel cfg info st :
  title_attempted cfg info = false ->
  match Io.translate_title fuel cfg info st with
  | Io.Returned _ info' st' | Io.Raised _ info' st' =>
      info' = info
      /\ events st' = events st
      /\ _google_trans_wait st' = _google_trans_wait st
  | Io.Diverged => False
  end.
Proof.
  unfold title_attempted, Io.translate_title, Io.obj_bind, Io.attrs.
  destruct (truthy (title info) && field_title (fields cfg)
            && negb (is_some (ori_title info))); simpl;
    [|intros _; auto].
  destruct (auto_detect_language cfg && _); [intros _ | discriminate].
  unfold Io.call.
  match goal with
  | |- context [Io.print ?t ?e st] =>
      pose proof (print_run t e st) as Hp;
      destruct (Io.print t e st) as [[] s1 | e1 s1 |]
  end; [| |contradiction]; destruct Hp as [He1 Hw1]; [|auto].
  match goal with
  | |- context [Io.print ?t ?e s1] =>
      pose proof (print_run t e s1) as Hp;
      destruct (Io.print t e s1) as [[] s2 | e2 s2 |]
  end; [| |contradiction]; destruct Hp as [He2 Hw2];
    repeat split; congruence.
Qed.

(** The title block when it runs the chain. *)
Lemma io_translate_title_run fuel cfg info st :
  title_attempted cfg info = true ->
  let t := get_default (title info) [] in
  Io.translate_title fuel cfg info st
  = match Io.print (str "  → 原标题: " ++ t) Io.newline st with
    | Ret _ s0 =>
        match
          Io.translate_with_providers fuel cfg t (actress info)
            (target_language cfg) s0
        with
        | Ret result s1 =>
            match k_trans result with
            | Some trans =>
                match
                  Io.print (str "  ✓ 译标题: " ++ trans ++ str " ("
                            ++ get_default (k_provider result)
                                 (str "unknown") ++ str ")") Io.newline s1
                with
                | Ret _ s2 => Io.Returned tt (retitled info result trans) s2
                | Raise e s2 => Io.Raised e (retitled info result trans) s2
                | Diverge => Io.Diverged
                end
            | None =>
                let error_msg :=
                  get_default (k_error result) (str "Unknown error") in
                match
                  Io.print (str "  ✗ 标题翻译失败: " ++ error_msg)
                    Io.newline s1
                with
                | Ret _ s2 =>
                    Io.Returned tt info
                      (if title_mandatory cfg
                       then emit (world s2)
                              (EvWarning (str "标题翻译失败但继续处理: "
                                          ++ error_msg)) s2
                       else s2)
                | Raise e s2 => Io.Raised e info s2
                | Diverge => Io.Diverged
                end
            end
        | Raise e s1 => Io.Raised e info s1
        | Diverge => Io.Diverged
        end
    | Raise e s0 => Io.Raised e info s0
    | Diverge => Io.Diverged
    end.
Proof.
  intros Hatt t.
  destruct (title_attempted_title cfg info Hatt)
    as (Htr & Hf & Hori & Hskip & _).
  unfold Io.translate_title, Io.obj_bind, Io.attrs.
  subst t. cbv zeta.
  rewrite Htr, Hf, Hori. cbn [is_some negb andb]. rewrite Hskip.
  unfold Io.call.
  destruct (Io.print _ Io.newline st) as [[] s0 | e0 s0 |];
    try reflexivity.
  destruct (Io.translate_with_providers fuel cfg _ (actress info)
              (target_language cfg) s0) as [result s1 | e1 s1 |];
    try reflexivity.
  destruct (k_trans result) as [trans|].
  - unfold Io.assign, Io.obj_ret, retitled.
    destruct (k_orig_break result), (k_trans_break result);
      match goal with
      | |- context [Io.print ?t ?e s1] =>
          destruct (Io.print t e s1) as [[] s2 | e2 s2 |]
      end; reflexivity.
  - cbv zeta.
    match goal with
    | |- context [Io.print ?t ?e s1] =>
        destruct (Io.print t e s1) as [[] s2 | e2 s2 |]
    end; try reflexivity.
    destruct (title_mandatory cfg); reflexivity.
Qed.

Lemma io_translate_plot_idle fuel cfg info st :
  plot_attempted cfg info = false ->
  match Io.translate_plot fuel cfg info st with
  | Io.Returned _ info' st' | Io.Raised _ info' st' =>
      info' = info
      /\ events st' = events st
      /\ _google_trans_wait st' = _google_trans_wait st
  | Io.Diverged => False
  end.
Proof.
  unfold plot_attempted, Io.translate_plot, Io.obj_bind, Io.attrs.
  destruct (truthy (plot info) && field_plot (fields cfg)); simpl;
    [|intros _; auto].
  destruct (auto_detect_language cfg && _); [intros _ | discriminate].
  unfold Io.call.
  match goal with
  | |- context [Io.print ?t ?e st] =>
      pose proof (print_run t e st) as Hp;
      destruct (Io.print t e st) as [[] s1 | e1 s1 |]
  end; [| |contradiction]; destruct Hp as [He1 Hw1]; [|auto].
  match goal with
  | |- context [Io.print ?t ?e s1] =>
      pose proof (print_run t e s1) as Hp;
      destruct (Io.print t e s1) as [[] s2 | e2 s2 |]
  end; [| |contradiction]; destruct Hp as [He2 Hw2];
    repeat split; congruence.
Qed.

(** The plot block when it runs the chain. *)
Lemma io_translate_plot_run fuel cfg info st :
  plot_attempted cfg info = true ->
  let p := get_default (plot info) [] in
  Io.translate_plot fuel cfg info st
  = match Io.print (str "  → 原简介: " ++ Io.plot_preview p) Io.newline st
    with
    | Ret _ s0 =>
        match
          Io.translate_with_providers fuel cfg p (actress info)
            (target_language cfg) s0
        with
        | Ret result s1 =>
            match k_trans result with
            | Some trans =>
                match
                  Io.print (str "  ✓ 译简介: " ++ Io.plot_preview trans
                            ++ str " ("
                            ++ get_default (k_provider result)
                                 (str "unknown") ++ str ")") Io.newline s1
                with
                | Ret _ s2 => Io.Returned tt (replotted info trans) s2
                | Raise e s2 => Io.Raised e (replotted info trans) s2
                | Diverge => Io.Diverged
                end
            | None =>
                match
                  Io.print (str "  ⊙ 简介翻译失败，继续处理: "
                            ++ get_default (k_error result)
                                 (str "Unknown error")) Io.newline s1
                with
                | Ret _ s2 => Io.Returned tt info s2
                | Raise e s2 => Io.Raised e info s2
                | Diverge => Io.Diverged
                end
            end
        | Raise e s1 => Io.Raised e info s1
        | Diverge => Io.Diverged
        end
    | Raise e s0 => Io.Raised e info s0
    | Diverge => Io.Diverged
    end.
Proof.
  intros Hatt p.
  destruct (plot_attempted_plot cfg info Hatt) as (Htr & Hf & Hskip & _).
  unfold Io.translate_plot, Io.obj_bind, Io.attrs.
  subst p. cbv zeta.
  rewrite Htr, Hf. cbn [andb]. rewrite Hskip.
  unfold Io.call.
  destruct (Io.print _ Io.newline st) as [[] s0 | e0 s0 |];
    try reflexivity.
  destruct (Io.translate_with_providers fuel cfg _ (actress info)
              (target_language cfg) s0) as [result s1 | e1 s1 |];
    try reflexivity.
  destruct (k_trans result) as [trans|].
  - unfold Io.assign, replotted.
    match goal with
    | |- context [Io.print ?t ?e s1] =>
        destruct (Io.print t e s1) as [[] s2 | e2 s2 |]
    end; reflexivity.
  - match goal with
    | |- context [Io.print ?t ?e s1] =>
        destruct (Io.print t e s1) as [[] s2 | e2 s2 |]
    end; reflexivity.
Qed.

(** [translate_movie_info] is the empty line, the title block, and the plot
    block run on what the title block left. *)
Lemma io_translate_movie_info_run fuel cfg info st :
  Io.translate_movie_info fuel cfg info st
  = match Io.print [] Io.newline st with
    | Ret _ s =>
        match Io.translate_title fuel cfg info s with
        | Io.Returned _ info1 st1 =>
            match Io.translate_plot fuel cfg info1 st1 with
            | Io.Returned _ info2 st2 => Io.Returned true info2 st2
            | Io.Raised e info2 st2 => Io.Raised e info2 st2
            | Io.Diverged => Io.Diverged
            end
        | Io.Raised e info1 st1 => Io.Raised e info1 st1
        | Io.Diverged => Io.Diverged
        end
    | Raise e s => Io.Raised e info s
    | Diverge => Io.Diverged
    end.
Proof.
  unfold Io.translate_movie_info, Io.obj_bind, Io.call, Io.obj_ret.
  destruct (Io.print [] Io.newline st) as [[] s | e s |]; reflexivity.
Qed.

(** The attributes the title block leaves: those it found, or those with
    the translation the chain returned. *)
Lemma io_translate_title_info fuel cfg info st info' :
  Io.info_of (Io.translate_title fuel cfg info st) = Some info' ->
  info' = info
  \/ (title_attempted cfg info = true
      /\ exists s0 result s1 trans,
           Io.translate_with_providers fuel cfg (get_default (title info) [])
             (actress info) (target_language cfg) s0 = Ret result s1
           /\ k_trans result = Some trans
           /\ info' = retitled info result trans).
Proof.
  destruct (title_attempted cfg info) eqn:Hatt.
  - rewrite (io_translate_title_run fuel cfg info st Hatt). cbv zeta.
    destruct (Io.print _ Io.newline st) as [[] s0 | e0 s0 |];
      [|intros H; injection H as <-; auto | discriminate].
    destruct (Io.translate_with_providers fuel cfg _ (actress info) _ s0)
      as [result s1 | e1 s1 |] eqn:Hchain;
      [|intros H; injection H as <-; auto | discriminate].
    destruct (k_trans result) as [trans|] eqn:Ht.
    + destruct (Io.print _ Io.newline s1) as [[] s2 | e2 s2 |];
        [| |discriminate]; intros H; injection H as <-; right;
        (split; [reflexivity|]); exists s0, result, s1, trans; auto.
    + destruct (Io.print _ Io.newline s1) as [[] s2 | e2 s2 |];
        [| |discriminate]; intros H; injection H as <-; auto.
  - pose proof (io_translate_title_idle fuel cfg info st Hatt) as H.
    destruct (Io.translate_title fuel cfg info st);
      [| |contradiction]; intros Hi; injection Hi as <-; left; apply H.
Qed.

Lemma io_translate_plot_info fuel cfg info st info' :
  Io.info_of (Io.translate_plot fuel cfg info st) = Some info' ->
  info' = info
  \/ (plot_attempted cfg info = true
      /\ exists s0 result s1 trans,
           Io.translate_with_providers fuel cfg (get_default (plot info) [])
             (actress info) (target_language cfg) s0 = Ret result s1
           /\ k_trans result = Some trans
           /\ info' = replotted info trans).
Proof.
  destruct (plot_attempted cfg info) eqn:Hatt.
  - rewrite (io_translate_plot_run fuel cfg info st Hatt). cbv zeta.
    destruct (Io.print _ Io.newline st) as [[] s0 | e0 s0 |];
      [|intros H; injection H as <-; auto | discriminate].
    destruct (Io.translate_with_providers fuel cfg _ (actress info) _ s0)
      as [result s1 | e1 s1 |] eqn:Hchain;
      [|intros H; injection H as <-; auto | discriminate].
    destruct (k_trans result) as [trans|] eqn:Ht.
    + destruct (Io.print _ Io.newline s1) as [[] s2 | e2 s2 |];
        [| |discriminate]; intros H; injection H as <-; right;
        (split; [reflexivity|]); exists s0, result, s1, trans; auto.
    + destruct (Io.print _ Io.newline s1) as [[] s2 | e2 s2 |];
        [| |discriminate]; intros H; injection H as <-; auto.
  - pose proof (io_translate_plot_idle fuel cfg info st Hatt) as H.
    destruct (Io.translate_plot fuel cfg info st);
      [| |contradiction]; intros Hi; injection Hi as <-; left; apply H.
Qed.

(** The events of the title block: none when it does not run the chain, a
    request among them when it runs the chain and returns. *)
Lemma io_translate_title_events fuel cfg info st :
  match Io.translate_title fuel cfg info st with
  | Io.Returned _ _ st' =>
      exists evs,
        events st' = events st ++ evs
        /\ if title_attempted cfg info then Exists is_request evs
           else evs = []
  | Io.Raised _ _ st' =>
      exists evs,
        events st' = events st ++ evs
        /\ (title_attempted cfg info = false -> evs = [])
  | Io.Diverged => title_attempted cfg info = true
  end.
Proof.
  destruct (title_attempted cfg info) eqn:Hatt.
  - rewrite (io_translate_title_run fuel cfg info st Hatt). cbv zeta.
    set (t := get_default (title info) []).
    destruct (Io.print _ Io.newline st) as [[] s0 | e0 s0 |] eqn:Hp0.
    2:{ exists []. rewrite app_nil_r.
        pose proof (print_final _ _ _ _ (f_equal final Hp0)) as H.
        split; [exact (proj1 H) | discriminate]. }
    2:{ reflexivity. }
    pose proof (print_final _ _ _ _ (f_equal final Hp0)) as [He0 _].
    simpl in He0.
    pose proof (io_translate_with_providers_run fuel cfg t (actress info)
                  (target_language cfg) s0) as Hc.
    destruct (Io.translate_with_providers fuel cfg t (actress info)
                (target_language cfg) s0) as [result s1 | e1 s1 |];
      [| |reflexivity].
    2:{ destruct Hc as (evs1 & He1 & _). exists evs1. rewrite He1, He0.
        split; [reflexivity | discriminate]. }
    destruct Hc as (evs1 & He1 & _ & Hx).
    destruct (k_trans result) as [trans|].
    + match goal with
      | |- context [Io.print ?t ?e s1] =>
          pose proof (print_run t e s1) as Hp;
          destruct (Io.print t e s1) as [[] s2 | e2 s2 |]
      end; [| |contradiction]; destruct Hp as [He2 _];
        exists evs1; rewrite He2, He1, He0;
        (split; [reflexivity|]); [exact Hx | discriminate].
    + match goal with
      | |- context [Io.print ?t ?e s1] =>
          pose proof (print_run t e s1) as Hp;
          destruct (Io.print t e s1) as [[] s2 | e2 s2 |]
      end; [| |contradiction]; destruct Hp as [He2 _].
      * destruct (title_mandatory cfg).
        -- eexists (evs1 ++ [_]). simpl. rewrite He2, He1, He0, app_assoc.
           split; [reflexivity|]. apply Exists_app. left. exact Hx.
        -- exists evs1. rewrite He2, He1, He0. auto.
      * exists evs1. rewrite He2, He1, He0.
        split; [reflexivity | discriminate].
  - pose proof (io_translate_title_idle fuel cfg info st Hatt) as H.
    destruct (Io.translate_title fuel cfg info st);
      [| |contradiction]; destruct H as (_ & He & _);
      exists []; rewrite app_nil_r; auto.
Qed.

Lemma io_translate_plot_events fuel cfg info st :
  match Io.translate_plot fuel cfg info st with
  | Io.Returned _ _ st' =>
      exists evs,
        events st' = events st ++ evs
        /\ if plot_attempted cfg info then Exists is_request evs
           else evs = []
  | Io.Raised _ _ st' =>
      exists evs,
        events st' = events st ++ evs
        /\ (plot_attempted cfg info = false -> evs = [])
  | Io.Diverged => plot_attempted cfg info = true
  end.
Proof.
  destruct (plot_attempted cfg info) eqn:Hatt.
  - rewrite (io_translate_plot_run fuel cfg info st Hatt). cbv zeta.
    set (p := get_default (plot info) []).
    destruct (Io.print _ Io.newline st) as [[] s0 | e0 s0 |] eqn:Hp0.
    2:{ exists []. rewrite app_nil_r.
        pose proof (print_final _ _ _ _ (f_equal final Hp0)) as H.
        split; [exact (proj1 H) | discriminate]. }
    2:{ reflexivity. }
    pose proof (print_final _ _ _ _ (f_equal final Hp0)) as [He0 _].
    simpl in He0.
    pose proof (io_translate_with_providers_run fuel cfg p (actress info)
                  (target_language cfg) s0) as Hc.
    destruct (Io.translate_with_providers fuel cfg p (actress info)
                (target_language cfg) s0) as [result s1 | e1 s1 |];
      [| |reflexivity].
    2:{ destruct Hc as (evs1 & He1 & _). exists evs1. rewrite He1, He0.
        split; [reflexivity | discriminate]. }
    destruct Hc as (evs1 & He1 & _ & Hx).
    destruct (k_trans result) as [trans|];
      match goal with
      | |- context [Io.print ?t ?e s1] =>
          pose proof (print_run t e s1) as Hp;
          destruct (Io.print t e s1) as [[] s2 | e2 s2 |]
      end; try contradiction; destruct Hp as [He2 _];
        exists evs1; rewrite He2, He1, He0;
        (split; [reflexivity|]); try exact Hx; discriminate.
  - pose proof (io_translate_plot_idle fuel cfg info st Hatt) as H.
    destruct (Io.translate_plot fuel cfg info st);
      [| |contradiction]; destruct H as (_ & He & _);
      exists []; rewrite app_nil_r; auto.
Qed.

(** With a console that takes every text and an import that raises nothing
    but [ImportError], no exception leaves the blocks. *)
Lemma io_translate_title_no_raise fuel cfg info st e info' st' :
  console_ok P -> import_clean P ->
  Io.translate_title fuel cfg info st <> Io.Raised e info' st'.
Proof.
  intros Hc Hi.
  destruct (title_attempted cfg info) eqn:Hatt.
  - rewrite (io_translate_title_run fuel cfg info st Hatt). cbv zeta.
    match goal with
    | |- context [Io.print ?t ?e st] =>
        destruct (print_ok t e st Hc) as (s0 & -> & _)
    end.
    destruct (Io.translate_with_providers fuel cfg _ (actress info) _ s0)
      as [result s1 | e1 s1 |] eqn:Hchain; [| |discriminate].
    + destruct (k_trans result);
        match goal with
        | |- context [Io.print ?t ?e s1] =>
            destruct (print_ok t e s1 Hc) as (s2 & -> & _)
        end; discriminate.
    + exfalso.
      exact (io_translate_with_providers_no_raise _ _ _ _ _ _ _ _ Hc Hi
               Hchain).
  - unfold title_attempted in Hatt.
    unfold Io.translate_title, Io.obj_bind, Io.attrs.
    destruct (truthy (title info) && field_title (fields cfg)
              && negb (is_some (ori_title info))); simpl in Hatt |- *;
      [|discriminate].
    destruct (auto_detect_language cfg && _); [|discriminate].
    unfold Io.call.
    match goal with
    | |- context [Io.print ?t ?e st] =>
        destruct (print_ok t e st Hc) as (s0 & -> & _)
    end.
    match goal with
    | |- context [Io.print ?t ?e s0] =>
        destruct (print_ok t e s0 Hc) as (s1 & -> & _)
    end. discriminate.
Qed.

Lemma io_translate_plot_no_raise fuel cfg info st e info' st' :
  console_ok P -> import_clean P ->
  Io.translate_plot fuel cfg info st <> Io.Raised e info' st'.
Proof.
  intros Hc Hi.
  destruct (plot_attempted cfg info) eqn:Hatt.
  - rewrite (io_translate_plot_run fuel cfg info st Hatt). cbv zeta.
    match goal with
    | |- context [Io.print ?t ?e st] =>
        destruct (print_ok t e st Hc) as (s0 & -> & _)
    end.
    destruct (Io.translate_with_providers fuel cfg _ (actress info) _ s0)
      as [result s1 | e1 s1 |] eqn:Hchain; [| |discriminate].
    + destruct (k_trans result);
        match goal with
        | |- context [Io.print ?t ?e s1] =>
            destruct (print_ok t e s1 Hc) as (s2 & -> & _)
        end; discriminate.
    + exfalso.
      exact (io_translate_with_providers_no_raise _ _ _ _ _ _ _ _ Hc Hi
               Hchain).
  - unfold plot_attempted in Hatt.
    unfold Io.translate_plot, Io.obj_bind, Io.attrs.
    destruct (truthy (plot info) && field_plot (fields cfg));
      simpl in Hatt |- *; [|discriminate].
    destruct (auto_detect_language cfg && _); [|discriminate].
    unfold Io.call.
    match goal with
    | |- context [Io.print ?t ?e st] =>
        destruct (print_ok t e st Hc) as (s0 & -> & _)
    end.
    match goal with
    | |- context [Io.print ?t ?e s0] =>
        destruct (print_ok t e s0 Hc) as (s1 & -> & _)
    end. discriminate.
Qed.

Lemma io_translate_movie_info_no_raise fuel cfg info st e info' st' :
  console_ok P -> import_clean P ->
  Io.translate_movie_info fuel cfg info st <> Io.Raised e info' st'.
Proof.
  intros Hc Hi. rewrite io_translate_movie_info_run.
  destruct (print_ok [] Io.newline st Hc) as (s & -> & _).
  destruct (Io.translate_title fuel cfg info s) as [[] info1 st1 | e1 i1 s1 |]
    eqn:Ht; [| |discriminate].
  - destruct (Io.translate_plot fuel cfg info1 st1)
      as [[] info2 st2 | e2 i2 s2 |] eqn:Hp; try discriminate.
    exfalso. exact (io_translate_plot_no_raise _ _ _ _ _ _ _ Hc Hi Hp).
  - exfalso. exact (io_translate_title_no_raise _ _ _ _ _ _ _ Hc Hi Ht).
Qed.

End ConsoleOrchestrator.

Section ConsoleOrchestratorTheorems.
Context {E : Env} {P : Platform E} {L : LangDetect}.

Lemma plot_attempted_plot_eq cfg info info' :
  plot info' = plot info ->
  plot_attempted cfg info' = plot_attempted cfg info.
Proof. unfold plot_attempted. intros ->. reflexivity. Qed.


(** X8. [translate_movie_info] on any metadata, configuration and world.
    It only ever returns [True], and no exception leaves it as long as
    [print] does not raise and the import raises nothing but [ImportError].
    However it is left, the performers are untouched; the title attributes
    are all as they were, or the chain returned a translation for the title:
    the title is that translation, the previous title is archived in
    [ori_title], which was unset before, and the fragment lists are those of
    the result where it has them; the plot attributes are as they were, or
    the plot is the translation the chain returned for it and the previous
    plot is in [ori_plot]. *)
Theorem translate_movie_info_invariants :
  forall fuel cfg info st,
    let run := Io.translate_movie_info fuel cfg info st in
    (console_ok P -> import_clean P ->
     forall e info' st', run <> Io.Raised e info' st')
    /\ (forall r info' st', run = Io.Returned r info' st' -> r = true)
    /\ (forall info',
          Io.info_of run = Some info' ->
          actress info' = actress info
          /\ ((title info' = title info
               /\ ori_title info' = ori_title info
               /\ ori_title_break info' = ori_title_break info
               /\ title_break info' = title_break info)
              \/ (ori_title info = None
                  /\ ori_title info' = title info
                  /\ exists s0 result s1 trans,
                       Io.translate_with_providers fuel cfg
                         (get_default (title info) []) (actress info)
                         (target_language cfg) s0 = Ret result s1
                       /\ k_trans result = Some trans
                       /\ title info' = Some trans
                       /\ ori_title_break info'
                          = match k_orig_break result with
                            | Some b => Some b
                            | None => ori_title_break info
                            end
                       /\ title_break info'
                          = match k_trans_break result with
                            | Some b => Some b
                            | None => title_break info
                            end))
          /\ ((plot info' = plot info /\ ori_plot info' = ori_plot info)
              \/ (ori_plot info' = plot info
                  /\ exists s0 result s1 trans,
                       Io.translate_with_providers fuel cfg
                         (get_default (plot info) []) (actress info)
                         (target_language cfg) s0 = Ret result s1
                       /\ k_trans result = Some trans
                       /\ plot info' = Some trans))).
Proof.
  intros fuel cfg info st run. subst run.
  split; [intros Hc Hi e info' st';
          apply io_translate_movie_info_no_raise; assumption|].
  split.
  { intros r info' st'. rewrite io_translate_movie_info_run.
    destruct (Io.print [] Io.newline st) as [[] s | e s |]; try discriminate.
    destruct (Io.translate_title fuel cfg info s) as [[] i1 st1 | |];
      try discriminate.
    destruct (Io.translate_plot fuel cfg i1 st1) as [[] i2 st2 | |];
      try discriminate.
    intros H. injection H as <- _ _. reflexivity. }
  intros info'. rewrite io_translate_movie_info_run.
  assert (Hsame : actress info = actress info
                  /\ ((title info = title info
                       /\ ori_title info = ori_title info
                       /\ ori_title_break info = ori_title_break info
                       /\ title_break info = title_break info)
                      \/ False)
                  /\ ((plot info = plot info /\ ori_plot info = ori_plot info)
                      \/ False)) by tauto.
  destruct (Io.print [] Io.newline st) as [[] s | e s |];
    [|intros H; injection H as <-; tauto | discriminate].
  pose proof (io_translate_title_info fuel cfg info s) as Ht.
  assert (Hafter : forall i1,
             Io.info_of (Io.translate_title fuel cfg info s) = Some i1 ->
             actress i1 = actress info
             /\ plot i1 = plot info
             /\ ori_plot i1 = ori_plot info
             /\ ((title i1 = title info
                  /\ ori_title i1 = ori_title info
                  /\ ori_title_break i1 = ori_title_break info
                  /\ title_break i1 = title_break info)
                 \/ (ori_title info = None
                     /\ ori_title i1 = title info
                     /\ exists s0 result s1 trans,
                          Io.translate_with_providers fuel cfg
                            (get_default (title info) []) (actress info)
                            (target_language cfg) s0 = Ret result s1
                          /\ k_trans result = Some trans
                          /\ title i1 = Some trans
                          /\ ori_title_break i1
                             = match k_orig_break result with
                               | Some b => Some b
                               | None => ori_title_break info
                               end
                          /\ title_break i1
                             = match k_trans_break result with
                               | Some b => Some b
                               | None => title_break info
                               end))).
  { intros i1 Hi1.
    destruct (Ht i1 Hi1)
      as [-> | (Hatt & s0 & result & s1 & trans & Hchain & Hk & ->)].
    - tauto.
    - simpl. repeat split. right.
      split; [exact (proj1 (proj2 (proj2 (title_attempted_title cfg info
                                            Hatt))))|].
      split; [reflexivity|].
      exists s0, result, s1, trans. auto. }
  destruct (Io.translate_title fuel cfg info s) as [[] i1 st1 | e1 i1 st1 |];
    [| |discriminate].
  2:{ intros H. injection H as <-.
      destruct (Hafter i1 eq_refl) as (Ha & Hp & Hop & Hti).
      split; [exact Ha|]. split; [exact Hti|]. left. auto. }
  destruct (Hafter i1 eq_refl) as (Ha & Hp & Hop & Hti).
  pose proof (io_translate_plot_info fuel cfg i1 st1) as Hpl.
  assert (Hend : forall i2,
             Io.info_of (Io.translate_plot fuel cfg i1 st1) = Some i2 ->
             actress i2 = actress info
             /\ ((title i2 = title info
                  /\ ori_title i2 = ori_title info
                  /\ ori_title_break i2 = ori_title_break info
                  /\ title_break i2 = title_break info)
                 \/ (ori_title info = None
                     /\ ori_title i2 = title info
                     /\ exists s0 result s1 trans,
                          Io.translate_with_providers fuel cfg
                            (get_default (title info) []) (actress info)
                            (target_language cfg) s0 = Ret result s1
                          /\ k_trans result = Some trans
                          /\ title i2 = Some trans
                          /\ ori_title_break i2
                             = match k_orig_break result with
                               | Some b => Some b
                               | None => ori_title_break info
                               end
                          /\ title_break i2
                             = match k_trans_break result with
                               | Some b => Some b
                               | None => title_break info
                               end))
             /\ ((plot i2 = plot info /\ ori_plot i2 = ori_plot info)
                 \/ (ori_plot i2 = plot info
                     /\ exists s0 result s1 trans,
                          Io.translate_with_providers fuel cfg
                            (get_default (plot info) []) (actress info)
                            (target_language cfg) s0 = Ret result s1
                          /\ k_trans result = Some trans
                          /\ plot i2 = Some trans))).
  { intros i2 Hi2.
    destruct (Hpl i2 Hi2)
      as [-> | (Hatt & s0 & result & s1 & trans & Hchain & Hk & ->)].
    - split; [exact Ha|]. split; [exact Hti|]. left. auto.
    - simpl. split; [exact Ha|]. split; [exact Hti|]. right.
      split; [exact Hp|].
      exists s0, result, s1, trans. rewrite <- Hp, <- Ha. auto. }
  destruct (Io.translate_plot fuel cfg i1 st1) as [[] i2 st2 | e2 i2 st2 |];
    [| |discriminate]; intros H; injection H as <-; apply Hend; reflexivity.
Qed.

(** X10. [translate_movie_info] sends a request only when it attempts a
    field.  When neither the title nor the plot is attempted (an empty or
    missing text, a field switched off, a title whose original is archived,
    or a text detected as already in the target language) it is left with
    the metadata, the events and the wait as they were: no request, no
    sleep, no log entry, whether it returns or a [print] raises.  Events are
    only ever appended, and a run that attempts a field and returns has sent
    at least one request, to a provider or to the fallback endpoint. *)
Theorem translate_movie_info_requests :
  forall fuel cfg info st,
    let run := Io.translate_movie_info fuel cfg info st in
    (title_attempted cfg info = false ->
     plot_attempted cfg info = false ->
     match run with
     | Io.Returned r info' st' =>
         r = true /\ info' = info /\ events st' = events st
         /\ _google_trans_wait st' = _google_trans_wait st
     | Io.Raised _ info' st' =>
         info' = info /\ events st' = events st
         /\ _google_trans_wait st' = _google_trans_wait st
     | Io.Diverged => False
     end)
    /\ (forall st',
          Io.final run = Some st' ->
          exists evs, events st' = events st ++ evs)
    /\ (forall r info' st',
          run = Io.Returned r info' st' ->
          title_attempted cfg info || plot_attempted cfg info = true ->
          exists evs,
            events st' = events st ++ evs /\ Exists is_request evs).
Proof.
  intros fuel cfg info st run. subst run.
  rewrite io_translate_movie_info_run.
  pose proof (print_run [] Io.newline st) as Hp.
  destruct (Io.print [] Io.newline st) as [[] s | e s |];
    [| |contradiction]; destruct Hp as [Hes Hws].
  2:{ split; [auto|]. split; [|discriminate].
      intros st' H. injection H as <-. exists []. rewrite app_nil_r.
      exact Hes. }
  pose proof (io_translate_title_events fuel cfg info s) as Hte.
  pose proof (io_translate_title_info fuel cfg info s) as Hti.
  split; [|split].
  - intros Hat Hap.
    pose proof (io_translate_title_idle fuel cfg info s Hat) as Ht.
    destruct (Io.translate_title fuel cfg info s)
      as [[] i1 st1 | e1 i1 st1 |]; [| |contradiction];
      destruct Ht as (-> & He1 & Hw1).
    + pose proof (io_translate_plot_idle fuel cfg info st1 Hap) as Hpl.
      destruct (Io.translate_plot fuel cfg info st1)
        as [[] i2 st2 | e2 i2 st2 |]; [| |contradiction];
        destruct Hpl as (-> & He2 & Hw2); repeat split; congruence.
    + repeat split; congruence.
  - intros st'.
    destruct (Io.translate_title fuel cfg info s)
      as [[] i1 st1 | e1 i1 st1 |]; [| |discriminate].
    + destruct Hte as (evs1 & He1 & _).
      pose proof (io_translate_plot_events fuel cfg i1 st1) as Hpe.
      destruct (Io.translate_plot fuel cfg i1 st1)
        as [[] i2 st2 | e2 i2 st2 |]; [| |discriminate];
        destruct Hpe as (evs2 & He2 & _); intros H; injection H as <-;
        exists (evs1 ++ evs2); rewrite He2, He1, Hes, app_assoc;
        reflexivity.
    + destruct Hte as (evs1 & He1 & _). intros H. injection H as <-.
      exists evs1. rewrite He1, Hes. reflexivity.
  - intros r info' st'.
    destruct (Io.translate_title fuel cfg info s)
      as [[] i1 st1 | e1 i1 st1 |]; try discriminate.
    destruct Hte as (evs1 & He1 & Hx1).
    assert (Hplot : plot i1 = plot info).
    { destruct (Hti i1 eq_refl) as [-> | (_ & ? & ? & ? & ? & _ & _ & ->)];
        reflexivity. }
    pose proof (io_translate_plot_events fuel cfg i1 st1) as Hpe.
    rewrite (plot_attempted_plot_eq cfg info i1 Hplot) in Hpe.
    destruct (Io.translate_plot fuel cfg i1 st1)
      as [[] i2 st2 | e2 i2 st2 |]; try discriminate.
    destruct Hpe as (evs2 & He2 & Hx2).
    intros H Hatt. injection H as _ _ <-.
    exists (evs1 ++ evs2). rewrite He2, He1, Hes, app_assoc.
    split; [reflexivity|]. apply Exists_app.
    destruct (title_attempted cfg info); [left; exact Hx1|].
    simpl in Hatt. rewrite Hatt in Hx2. right. exact Hx2.
Qed.

End ConsoleOrchestratorTheorems.

Lemma plain_console_ok : console_ok plain_console.
Proof. intros text end_ w. reflexivity. Qed.

Lemma plain_import_clean : import_clean plain_console.
Proof. intros w. reflexivity. Qed.



(** X8 on a title the fallback translates: [True] is returned, and the
    previous title is archived. *)
Lemma translate_movie_info_invariants_witness :
  exists info' st',
    Io.translate_movie_info (P := plain_console) (L := script_detect) 0
      (config [] true) (movie (str "こんにちは") [])
      (script false [] [inr (response_ok greeting)])
    = Io.Returned true info' st'
    /\ title info' = Some (str "你好")
    /\ ori_title info' = Some (str "こんにちは").
Proof.
  destruct (@translate_movie_info_invariants script_env plain_console
              script_detect 0 (config [] true) (movie (str "こんにちは") [])
              (script false [] [inr (response_ok greeting)]))
    as (_ & Htrue & _).
  destruct (Io.translate_movie_info (P := plain_console)
              (L := script_detect) 0 (config [] true)
              (movie (str "こんにちは") [])
              (script false [] [inr (response_ok greeting)]))
    as [r info' st' | |] eqn:Hrun; try (vm_compute in Hrun; discriminate).
  rewrite (Htrue r info' st' eq_refl).
  exists info', st'. split; [reflexivity|].
  vm_compute in Hrun. injection Hrun as _ <- _. split; reflexivity.
Defined.

(** X10 on a title that is already archived: nothing is sent. *)
Lemma translate_movie_info_requests_witness :
  exists st',
    Io.translate_movie_info (P := plain_console) (L := script_detect) 0
      (config [] true) translated_movie
      (script false [] [inr (response_ok greeting)])
    = Io.Returned true translated_movie st'
    /\ events st' = [].
Proof.
  destruct (@translate_movie_info_requests script_env plain_console
              script_detect 0 (config [] true) translated_movie
              (script false [] [inr (response_ok greeting)])) as (H & _).
  specialize (H eq_refl eq_refl).
  destruct (Io.translate_movie_info (P := plain_console)
              (L := script_detect) 0 (config [] true) translated_movie
              (script false [] [inr (response_ok greeting)]))
    as [r info' st' | |] eqn:Hrun; try (vm_compute in Hrun; discriminate).
  destruct H as (-> & -> & He & _). exists st'. split; [reflexivity|].
  exact He.
Defined.

Lemma subseq_refl {A : Type} (l : list A) : subseq l l.
Proof. induction l; constructor; assumption. Qed.

Lemma subseq_app {A : Type} (a b c d : list A) :
  subseq a b -> subseq c d -> subseq (a ++ c) (b ++ d).
Proof.
  intros Hab Hcd. induction Hab as [l | x l1 l2 _ IH | x l1 l2 _ IH]; simpl.
  - induction l as [|x l IH]; simpl;
      [exact Hcd | apply subseq_skip; exact IH].
  - apply subseq_skip. exact IH.
  - apply subseq_take. exact IH.
Qed.

Section ConsoleSelfTest.
Context {E : Env} {P : Platform E}.

Lemma tested_length target_lang ps st es st' :
  tested target_lang ps st es st' -> length es = length ps.
Proof. induction 1; simpl; congruence. Qed.

(** An entry of the self-test is a success, or a failure under one of the
    three codes of the client. *)
Lemma tested_entries target_lang ps st es st' :
  tested target_lang ps st es st' -> Forall2 test_entry ps es.
Proof.
  induction 1 as [|p ps st r st1 es st2 Hrun _ IH]; constructor;
    [|exact IH].
  rewrite client_import in Hrun.
  destruct (import_raises (world st)); [discriminate|].
  destruct (client_shape test_text p (Some []) target_lang st)
    as (r0 & s0 & Hrun0 & Hshape).
  rewrite Hrun in Hrun0. injection Hrun0 as <- <-.
  destruct Hshape as [(t & ->) | (c & m & Hc & ->)].
  - left. exists t. reflexivity.
  - right. exists c, m. split; [exact Hc | reflexivity].
Qed.

(** The events of the provider loop of the self-test: at most one call of
    the client's [create] for each provider, in the configured order, each
    with the system prompt and the test text as it is; no request to the
    fallback endpoint. *)
Lemma tested_events target_lang ps st es st' :
  tested target_lang ps st es st' ->
  _google_trans_wait st' = _google_trans_wait st
  /\ exists evs,
       events st' = events st ++ evs
       /\ subseq (chats evs) ps
       /\ Forall (fun ev =>
                    match ev with
                    | EvChat p system user =>
                        In p ps /\ system = system_content target_lang
                        /\ user = test_text
                    | EvGet _ => False
                    | _ => True
                    end) evs.
Proof.
  induction 1 as [st | p ps st r st1 es st2 Hrun _ IH].
  - split; [reflexivity|]. exists []. rewrite app_nil_r.
    repeat split; constructor.
  - destruct IH as (Hw2 & evs2 & He2 & Hs2 & Ha2).
    destruct (io_client_cases test_text p (Some []) target_lang st)
      as [(e & _ & Hraise) | (r0 & s0 & _ & Hrun0 & Hw1 & Hev1 & _)];
      [congruence|].
    rewrite Hrun in Hrun0. injection Hrun0 as <- <-.
    assert (Hrec : _google_trans_wait (recorded p r st1)
                   = _google_trans_wait st1
                   /\ exists evs,
                        events (recorded p r st1) = events st1 ++ evs
                        /\ chats evs = []
                        /\ Forall (fun ev =>
                                     match ev with
                                     | EvChat _ _ _ | EvGet _ => False
                                     | _ => True
                                     end) evs).
    { unfold recorded. destruct (k_trans r).
      - split; [reflexivity|]. exists []. rewrite app_nil_r.
        repeat split; constructor.
      - split; [reflexivity|]. eexists. split; [reflexivity|].
        split; [reflexivity|]. repeat constructor. }
    destruct Hrec as (Hwr & evsr & Her & Hcr & Har).
    assert (Hweak : forall evs,
               Forall (fun ev =>
                         match ev with
                         | EvChat q system user =>
                             In q ps /\ system = system_content target_lang
                             /\ user = test_text
                         | EvGet _ => False
                         | _ => True
                         end) evs ->
               Forall (fun ev =>
                         match ev with
                         | EvChat q system user =>
                             In q (p :: ps)
                             /\ system = system_content target_lang
                             /\ user = test_text
                         | EvGet _ => False
                         | _ => True
                         end) evs).
    { intros evs. apply Forall_impl. intros [q s u | | |]; simpl; tauto. }
    assert (Hsilent : forall evs,
               Forall (fun ev =>
                         match ev with
                         | EvChat _ _ _ | EvGet _ => False
                         | _ => True
                         end) evs ->
               Forall (fun ev =>
                         match ev with
                         | EvChat q system user =>
                             In q (p :: ps)
                             /\ system = system_content target_lang
                             /\ user = test_text
                         | EvGet _ => False
                         | _ => True
                         end) evs).
    { intros evs. apply Forall_impl. intros [q s u | | |]; simpl; tauto. }
    split; [congruence|].
    destruct Hev1 as [Hev1 | Hev1].
    + exists (evsr ++ evs2). rewrite He2, Her, Hev1, app_assoc.
      split; [reflexivity|]. rewrite chats_app, Hcr. simpl.
      split; [apply subseq_skip; exact Hs2|].
      apply Forall_app. auto.
    + exists ((EvChat p (system_content target_lang)
                 (protect (get_default (Some []) []) test_text) :: evsr)
              ++ evs2).
      rewrite He2, Her, Hev1, <- !app_assoc.
      split; [reflexivity|].
      rewrite chats_app. simpl. rewrite Hcr. simpl.
      split; [apply subseq_take; exact Hs2|].
      constructor; [simpl; auto|]. apply Forall_app. auto.
Qed.

(** Every outcome of the provider loop of the self-test. *)
Lemma io_test_providers_loop_run target_lang ps :
  forall results st,
    match Io.test_providers_loop target_lang ps results st with
    | Ret entries st' =>
        exists es,
          tested target_lang ps st es st' /\ entries = results ++ es
    | Raise e st' =>
        exists tried provider rest es,
          ps = tried ++ provider :: rest
          /\ tested target_lang tried st es st'
          /\ import_raises (world st') = Some e
    | Diverge => False
    end.
Proof.
  induction ps as [|p ps IH]; intros results st.
  - simpl. exists []. rewrite app_nil_r. split; [constructor | reflexivity].
  - cbn [Io.test_providers_loop]. unfold bind at 1.
    destruct (io_client_cases test_text p (Some []) target_lang st)
      as [(e & Himp & Hrun) | (r & s1 & _ & Hrun & _)]; rewrite Hrun.
    { exists [], p, ps, []. split; [reflexivity|].
      split; [constructor | exact Himp]. }
    assert (Hstep : forall results',
               results' = results ++ [provider_entry p r] ->
               match
                 Io.test_providers_loop target_lang ps results'
                   (recorded p r s1)
               with
               | Ret entries st' =>
                   exists es,
                     tested target_lang (p :: ps) st es st'
                     /\ entries = results ++ es
               | Raise e st' =>
                   exists tried provider rest es,
                     p :: ps = tried ++ provider :: rest
                     /\ tested target_lang tried st es st'
                     /\ import_raises (world st') = Some e
               | Diverge => False
               end).
    { intros results' ->.
      pose proof (IH (results ++ [provider_entry p r]) (recorded p r s1))
        as Hrec.
      destruct (Io.test_providers_loop target_lang ps _ (recorded p r s1))
        as [entries st' | e st' |]; [| |contradiction].
      - destruct Hrec as (es & Ht & ->).
        exists (provider_entry p r :: es).
        split; [econstructor; eassumption|].
        rewrite <- app_assoc. reflexivity.
      - destruct Hrec as (tried & q & rest & es & -> & Ht & Himp).
        exists (p :: tried), q, rest, (provider_entry p r :: es).
        split; [reflexivity|].
        split; [econstructor; eassumption | exact Himp]. }
    unfold recorded, provider_entry in Hstep.
    destruct (k_trans r) as [trans|].
    + apply Hstep. reflexivity.
    + unfold bind, warning. apply Hstep. reflexivity.
Qed.

(** Every outcome of the self-test. *)
Lemma io_test_translation_providers_run fuel cfg st :
  let target_lang := target_language cfg in
  match Io.test_translation_providers fuel cfg st with
  | Ret entries st' =>
      exists es st1,
        tested target_lang (providers cfg) st es st1
        /\ Forall2 test_entry (providers cfg) es
        /\ match google_trans fuel test_text target_lang st1 with
           | Ret v st2 =>
               entries = es ++ [google_entry (inr v)]
               /\ world st' = world st2
               /\ _google_trans_wait st' = _google_trans_wait st2
           | Raise e st2 =>
               entries = es ++ [google_entry (inl e)]
               /\ world st' = world st2
               /\ _google_trans_wait st' = _google_trans_wait st2
           | Diverge => False
           end
  | Raise e st' =>
      exists tried provider rest es,
        providers cfg = tried ++ provider :: rest
        /\ tested target_lang tried st es st'
        /\ import_raises (world st') = Some e
  | Diverge =>
      exists es st1,
        tested target_lang (providers cfg) st es st1
        /\ google_trans fuel test_text target_lang st1 = Diverge
  end.
Proof.
  cbv zeta.
  unfold Io.test_translation_providers. unfold bind.
  assert (Hgoogle : forall es st1,
             tested (target_language cfg) (providers cfg) st es st1 ->
             match test_google fuel (target_language cfg) es st1 with
             | Ret entries st' =>
                 exists es st1,
                   tested (target_language cfg) (providers cfg) st es st1
                   /\ Forall2 test_entry (providers cfg) es
                   /\ match
                        google_trans fuel test_text (target_language cfg)
                          st1
                      with
                      | Ret v st2 =>
                          entries = es ++ [google_entry (inr v)]
                          /\ world st' = world st2
                          /\ _google_trans_wait st'
                             = _google_trans_wait st2
                      | Raise e st2 =>
                          entries = es ++ [google_entry (inl e)]
                          /\ world st' = world st2
                          /\ _google_trans_wait st'
                             = _google_trans_wait st2
                      | Diverge => False
                      end
             | Raise e st' =>
                 exists tried provider rest es,
                   providers cfg = tried ++ provider :: rest
                   /\ tested (target_language cfg) tried st es st'
                   /\ import_raises (world st') = Some e
             | Diverge =>
                 exists es st1,
                   tested (target_language cfg) (providers cfg) st es st1
                   /\ google_trans fuel test_text (target_language cfg) st1
                      = Diverge
             end).
  { intros es st1 Ht. rewrite test_google_run.
    destruct (google_trans fuel test_text (target_language cfg) st1)
      as [v st2 | e st2 |] eqn:Hg.
    - exists es, st1. split; [exact Ht|].
      split; [exact (tested_entries _ _ _ _ _ Ht)|].
      rewrite Hg. split; [reflexivity|].
      destruct (t_error (google_entry (inr v))); split; reflexivity.
    - exists es, st1. split; [exact Ht|].
      split; [exact (tested_entries _ _ _ _ _ Ht)|].
      rewrite Hg. repeat split.
    - exists es, st1. auto. }
  destruct (providers cfg) as [|p ps] eqn:Hps.
  + unfold ret. apply (Hgoogle [] st). constructor.
  + pose proof (io_test_providers_loop_run (target_language cfg) (p :: ps)
                  [] st) as Hloop.
    destruct (Io.test_providers_loop (target_language cfg) (p :: ps) [] st)
      as [entries st1 | e st1 |]; [| |contradiction].
    * destruct Hloop as (es & Ht & ->). apply (Hgoogle es st1 Ht).
    * exact Hloop.
Qed.

(** X5. Every outcome of the self-test.  When it returns, it has run the
    client on each configured provider, in the configured order, and
    appended for each the entry made of what the client returned: labelled
    with the provider's name (with "model@base_url" when the name is empty),
    a success with the translation of the result, or a failure
    "code: message" with the code, -10, -11 or -12, and the message of the
    result; a success does not end the loop.  The last entry, labelled
    'Google', is made of what [google_trans] returned or raised, whatever
    happened before.  The self-test raises only when the import of the
    client library raises something else than [ImportError], at a provider
    that those before it did not stop; it fails to return only when
    [google_trans] does. *)
Theorem test_translation_providers_report :
  forall fuel cfg st,
    let target_lang := target_language cfg in
    match Io.test_translation_providers fuel cfg st with
    | Ret entries st' =>
        exists es st1,
          tested target_lang (providers cfg) st es st1
          /\ Forall2 test_entry (providers cfg) es
          /\ match google_trans fuel test_text target_lang st1 with
             | Ret v st2 =>
                 entries = es ++ [google_entry (inr v)]
                 /\ world st' = world st2
                 /\ _google_trans_wait st' = _google_trans_wait st2
             | Raise e st2 =>
                 entries = es ++ [google_entry (inl e)]
                 /\ world st' = world st2
                 /\ _google_trans_wait st' = _google_trans_wait st2
             | Diverge => False
             end
    | Raise e st' =>
        exists tried provider rest es,
          providers cfg = tried ++ provider :: rest
          /\ tested target_lang tried st es st'
          /\ import_raises (world st') = Some e
    | Diverge =>
        exists es st1,
          tested target_lang (providers cfg) st es st1
          /\ google_trans fuel test_text target_lang st1 = Diverge
    end
    /\ (forall provider result,
          t_provider (provider_entry provider result)
          = test_provider_name provider)
    /\ (forall x, t_provider (google_entry x) = str "Google").
Proof.
  intros fuel cfg st target_lang. subst target_lang.
  split; [apply io_test_translation_providers_run|split].
  - intros provider result. unfold provider_entry.
    destruct (k_trans result); reflexivity.
  - intros [e | v]; [reflexivity|]. simpl.
    destruct (py_contains v (str "sentences")) as [e | [|]];
      try reflexivity.
    destruct (join_trans v); reflexivity.
Qed.

(** X6. The events of the self-test, however it ends.  The calls of the
    client's [create] go to configured providers, in the configured order
    and at most one for each provider, and carry the system prompt for the
    configured target language and the test text as it is; every request to
    the fallback endpoint asks for the test text in the target language; and
    when the self-test returns, at least one such request was sent. *)
Theorem test_translation_providers_requests :
  forall fuel cfg st st',
    final (Io.test_translation_providers fuel cfg st) = Some st' ->
    exists evs,
      events st' = events st ++ evs
      /\ Forall (is_test_event cfg) evs
      /\ subseq (chats evs) (providers cfg)
      /\ ((exists entries,
              Io.test_translation_providers fuel cfg st = Ret entries st') ->
          In (EvGet (google_trans_url test_text (target_language cfg))) evs).
Proof.
  intros fuel cfg st st' Hfin.
  assert (Hweak : forall ps evs,
             (forall p, In p ps -> In p (providers cfg)) ->
             Forall (fun ev =>
                       match ev with
                       | EvChat p system user =>
                           In p ps
                           /\ system = system_content (target_language cfg)
                           /\ user = test_text
                       | EvGet _ => False
                       | _ => True
                       end) evs ->
             Forall (is_test_event cfg) evs).
  { intros ps evs Hin. apply Forall_impl.
    intros [p s u | | |]; simpl; try tauto.
    intros (H1 & H2 & H3). auto. }
  assert (Hgoogle : forall es st1,
             tested (target_language cfg) (providers cfg) st es st1 ->
             final (test_google fuel (target_language cfg) es st1)
             = Some st' ->
             exists evs,
               events st' = events st ++ evs
               /\ Forall (is_test_event cfg) evs
               /\ subseq (chats evs) (providers cfg)
               /\ In (EvGet (google_trans_url test_text
                               (target_language cfg))) evs).
  { intros es st1 Ht Hf.
    destruct (tested_events _ _ _ _ _ Ht) as (_ & evs1 & He1 & Hs1 & Ha1).
    rewrite test_google_run in Hf.
    assert (Hg : exists st2 evs3,
               final (google_trans fuel test_text (target_language cfg) st1)
               = Some st2
               /\ events st' = events st2 ++ evs3
               /\ Forall (is_fallback
                            (google_trans_url test_text
                               (target_language cfg))) evs3).
    { destruct (google_trans fuel test_text (target_language cfg) st1)
        as [v st2 | e st2 |]; [| |discriminate].
      - exists st2. cbv zeta in Hf. cbn [final] in Hf.
        destruct (t_error (google_entry (inr v))); injection Hf as <-.
        + eexists. split; [reflexivity|]. split; [reflexivity|].
          repeat constructor.
        + exists []. rewrite app_nil_r. auto.
      - exists st2. injection Hf as <-.
        eexists. split; [reflexivity|]. split; [reflexivity|].
        repeat constructor. }
    destruct Hg as (st2 & evs3 & Hg & He3 & Ha3).
    destruct (only_google_trans fuel test_text (target_language cfg) st1 Hg)
      as (evs2 & He2 & Ha2).
    destruct (google_trans_first_get fuel test_text (target_language cfg)
                st1 Hg) as (evs2' & He2').
    exists (evs1 ++ evs2 ++ evs3).
    split; [rewrite He3, He2, He1, <- !app_assoc; reflexivity|].
    split.
    { apply Forall_app. split; [apply (Hweak (providers cfg)); auto|].
      apply Forall_app. split.
      - revert Ha2. apply Forall_impl. intros [p s u | | |]; simpl; tauto.
      - revert Ha3. apply Forall_impl. intros [p s u | | |]; simpl; tauto. }
    split.
    { rewrite !chats_app.
      rewrite (chats_fallback _ _ Ha2), (chats_fallback _ _ Ha3).
      rewrite !app_nil_r. exact Hs1. }
    apply in_or_app. right. apply in_or_app. left.
    rewrite He2 in He2'. apply app_inv_head in He2'. rewrite He2'.
    left. reflexivity. }
  unfold Io.test_translation_providers in *. unfold bind in *.
  destruct (providers cfg) as [|p ps] eqn:Hps.
  - unfold ret in *.
    destruct (Hgoogle [] st (tested_nil _ _) Hfin) as (evs & H1 & H2 & H3 & H4).
    exists evs. auto.
  - pose proof (io_test_providers_loop_run (target_language cfg) (p :: ps)
                  [] st) as Hloop.
    destruct (Io.test_providers_loop (target_language cfg) (p :: ps) [] st)
      as [entries st1 | e st1 |]; [| |contradiction].
    + destruct Hloop as (es & Ht & ->). simpl in Hfin.
      destruct (Hgoogle es st1 Ht Hfin) as (evs & H1 & H2 & H3 & H4).
      exists evs. auto.
    + destruct Hloop as (tried & q & rest & es & Hsplit & Ht & _).
      injection Hfin as <-.
      destruct (tested_events _ _ _ _ _ Ht) as (_ & evs1 & He1 & Hs1 & Ha1).
      exists evs1. split; [exact He1|].
      split.
      { apply (Hweak tried); [|exact Ha1].
        intros x Hx. rewrite Hsplit. apply in_or_app. left. exact Hx. }
      split.
      { rewrite Hsplit, <- (app_nil_r (chats evs1)).
        apply subseq_app; [exact Hs1 | constructor]. }
      intros (entries & Hret). discriminate.
Qed.

End ConsoleSelfTest.

Section ConsoleCalm.
Context {E : Env} {P : Platform E} {L : LangDetect}.
Hypothesis Hcalm : never_throttled E.

Lemma google_trans_any_fuel fuel texts to st :
  google_trans fuel texts to st = google_trans 0 texts to st.
Proof using Hcalm.
  unfold google_trans, bind, get.
  destruct (requests_get _ (world st)) as [[e | r] w] eqn:Hget;
    unfold lift, raise, ret; [reflexivity|].
  assert (Hr : (status_code r =? 429)%Z = false).
  { apply Z.eqb_neq. exact (Hcalm _ _ _ _ Hget). }
  rewrite (throttled_done fuel _ r Hr), (throttled_done 0 _ r Hr).
  reflexivity.
Qed.

Lemma io_translate_title_wait fuel cfg info st st' :
  Io.final (Io.translate_title fuel cfg info st) = Some st' ->
  _google_trans_wait st' = _google_trans_wait st.
Proof using Hcalm.
  destruct (title_attempted cfg info) eqn:Hatt.
  - rewrite (io_translate_title_run fuel cfg info st Hatt). cbv zeta.
    match goal with
    | |- context [Io.print ?t ?e st] =>
        pose proof (print_run t e st) as Hp;
        destruct (Io.print t e st) as [[] s0 | e0 s0 |]
    end; [| |contradiction]; destruct Hp as [_ Hw0];
      [|intros H; injection H as <-; exact Hw0].
    pose proof (io_translate_with_providers_wait Hcalm fuel cfg
                  (get_default (title info) []) (actress info)
                  (target_language cfg) s0) as Hc.
    destruct (Io.translate_with_providers fuel cfg _ (actress info) _ s0)
      as [result s1 | e1 s1 |]; [| |discriminate];
      [|intros H; injection H as <-; rewrite (Hc _ eq_refl); exact Hw0].
    pose proof (Hc s1 eq_refl) as Hw1.
    destruct (k_trans result);
      match goal with
      | |- context [Io.print ?t ?e s1] =>
          pose proof (print_run t e s1) as Hp;
          destruct (Io.print t e s1) as [[] s2 | e2 s2 |]
      end; try contradiction; destruct Hp as [_ Hw2];
        intros H; injection H as <-; try congruence.
    destruct (title_mandatory cfg); simpl; congruence.
  - pose proof (io_translate_title_idle fuel cfg info st Hatt) as H.
    destruct (Io.translate_title fuel cfg info st);
      [| |contradiction]; intros Hf; injection Hf as <-; apply H.
Qed.

Lemma io_translate_plot_wait fuel cfg info st st' :
  Io.final (Io.translate_plot fuel cfg info st) = Some st' ->
  _google_trans_wait st' = _google_trans_wait st.
Proof using Hcalm.
  destruct (plot_attempted cfg info) eqn:Hatt.
  - rewrite (io_translate_plot_run fuel cfg info st Hatt). cbv zeta.
    match goal with
    | |- context [Io.print ?t ?e st] =>
        pose proof (print_run t e st) as Hp;
        destruct (Io.print t e st) as [[] s0 | e0 s0 |]
    end; [| |contradiction]; destruct Hp as [_ Hw0];
      [|intros H; injection H as <-; exact Hw0].
    pose proof (io_translate_with_providers_wait Hcalm fuel cfg
                  (get_default (plot info) []) (actress info)
                  (target_language cfg) s0) as Hc.
    destruct (Io.translate_with_providers fuel cfg _ (actress info) _ s0)
      as [result s1 | e1 s1 |]; [| |discriminate];
      [|intros H; injection H as <-; rewrite (Hc _ eq_refl); exact Hw0].
    pose proof (Hc s1 eq_refl) as Hw1.
    destruct (k_trans result);
      match goal with
      | |- context [Io.print ?t ?e s1] =>
          pose proof (print_run t e s1) as Hp;
          destruct (Io.print t e s1) as [[] s2 | e2 s2 |]
      end; try contradiction; destruct Hp as [_ Hw2];
        intros H; injection H as <-; congruence.
  - pose proof (io_translate_plot_idle fuel cfg info st Hatt) as H.
    destruct (Io.translate_plot fuel cfg info st);
      [| |contradiction]; intros Hf; injection Hf as <-; apply H.
Qed.

(** X13. A fallback endpoint that never answers 429 keeps the module out
    of the retry loop: the outcome of [google_trans] does not depend on the
    number of retries allowed, none included, and no run of the chain, of
    [translate_movie_info] or of the self-test that ends, by returning or
    by an exception, has changed the wait between retries. *)
Theorem never_throttled_keeps_wait :
  forall fuel cfg,
    (forall texts to st,
        google_trans fuel texts to st = google_trans 0 texts to st)
    /\ (forall texts actress target_lang st st',
          final (Io.translate_with_providers fuel cfg texts actress
                   target_lang st) = Some st' ->
          _google_trans_wait st' = _google_trans_wait st)
    /\ (forall info st st',
          Io.final (Io.translate_movie_info fuel cfg info st) = Some st' ->
          _google_trans_wait st' = _google_trans_wait st)
    /\ (forall st st',
          final (Io.test_translation_providers fuel cfg st) = Some st' ->
          _google_trans_wait st' = _google_trans_wait st).
Proof using Hcalm.
  intros fuel cfg.
  split; [intros; apply google_trans_any_fuel|].
  split; [intros texts actress target_lang st st';
          apply (io_translate_with_providers_wait Hcalm)|].
  split.
  - intros info st st'. rewrite io_translate_movie_info_run.
    pose proof (print_run [] Io.newline st) as Hp.
    destruct (Io.print [] Io.newline st) as [[] s | e s |];
      [| |contradiction]; destruct Hp as [_ Hws];
      [|intros H; injection H as <-; exact Hws].
    pose proof (io_translate_title_wait fuel cfg info s) as Ht.
    destruct (Io.translate_title fuel cfg info s)
      as [[] i1 st1 | e1 i1 st1 |]; [| |discriminate];
      [|intros H; injection H as <-; rewrite (Ht _ eq_refl); exact Hws].
    pose proof (io_translate_plot_wait fuel cfg i1 st1) as Hpl.
    destruct (Io.translate_plot fuel cfg i1 st1)
      as [[] i2 st2 | e2 i2 st2 |]; [| |discriminate];
      intros H; injection H as <-;
      rewrite (Hpl _ eq_refl), (Ht _ eq_refl); exact Hws.
  - intros st st' Hfin.
    pose proof (io_test_translation_providers_run fuel cfg st) as Hrep.
    cbv zeta in Hrep.
    destruct (Io.test_translation_providers fuel cfg st)
      as [entries s | e s |]; [| |discriminate]; injection Hfin as <-.
    + destruct Hrep as (es & st1 & Ht & _ & Hg).
      destruct (tested_events _ _ _ _ _ Ht) as (Hw1 & _).
      pose proof (google_trans_calm Hcalm fuel test_text
                    (target_language cfg) st1) as Hw.
      destruct (google_trans fuel test_text (target_language cfg) st1);
        [| |contradiction]; destruct Hg as (_ & _ & Hw2); congruence.
    + destruct Hrep as (tried & q & rest & es & _ & Ht & _).
      exact (proj1 (tested_events _ _ _ _ _ Ht)).
Qed.

End ConsoleCalm.

Section ConsoleClient.
Context {E : Env} {P : Platform E}.

(** C8 (amended). The import comes first and is guarded by
    [except ImportError] only: any other exception it raises leaves the
    function.  Otherwise a failed attempt is reported under one of three
    codes: -10 with a fixed message when the client library cannot be
    imported, -12 with a fixed message when the answer has no choice or its
    first choice has no content, and -11 with [repr] of the exception for
    every exception of the client, a transport failure like any other.  An
    invocation calls the client's [create] at most once: not at all when the
    import or the construction of the client fails, exactly once
    otherwise. *)
Theorem translate_with_openai_compatible_outcomes :
  forall texts provider actress target_lang st,
    let run :=
      Io.translate_with_openai_compatible texts provider actress target_lang
        st in
    let names := get_default actress [] in
    let system := system_content target_lang in
    let user := protect names texts in
    (forall e, import_raises (world st) = Some e -> run = Raise e st)
    /\ (import_raises (world st) = None ->
        import_openai (world st) = false ->
        run = Ret (dict_error_code (-10)
                     (str "openai package not installed")) st)
    /\ (import_raises (world st) = None ->
        import_openai (world st) = true ->
        forall e, OpenAI provider (world st) = Some e ->
                  run = Ret (dict_error_code (-11) (repr e)) st)
    /\ (import_raises (world st) = None ->
        import_openai (world st) = true ->
        OpenAI provider (world st) = None ->
        forall answer w,
          chat_completions_create provider system user (world st)
          = (answer, w) ->
          let st' := emit w (EvChat provider system user) st in
          match answer with
          | inl e => run = Ret (dict_error_code (-11) (repr e)) st'
          | inr [] | inr (None :: _) | inr (Some [] :: _) =>
              run = Ret (dict_error_code (-12)
                           (str "Empty response from API")) st'
          | inr (Some content :: _) =>
              run = Ret (dict_trans (restore names (strip content))) st'
          end)
    /\ (forall st',
          final run = Some st' ->
          events st' = events st
          \/ events st' = events st ++ [EvChat provider system user]).
Proof.
  intros texts provider actress target_lang st run names system user.
  subst run names system user.
  rewrite client_import. unfold translate_with_openai_compatible.
  split; [intros e ->; reflexivity|].
  split; [intros -> ->; reflexivity|].
  split.
  { intros -> -> e He. simpl.
    unfold try_except, bind, new_client. rewrite He. reflexivity. }
  split.
  { intros -> -> Hc answer w Ha. simpl.
    unfold try_except, bind, new_client, create. rewrite Hc, Ha.
    destruct answer as [e | [|[[|c content]|] rest]]; reflexivity. }
  intros st'.
  destruct (import_raises (world st)) as [e|];
    [intros H; injection H as <-; auto|].
  destruct (import_openai (world st)); simpl;
    [|intros H; injection H as <-; auto].
  unfold try_except, bind, new_client, create.
  destruct (OpenAI provider (world st)) as [e|];
    [simpl; intros H; injection H as <-; auto|].
  destruct (chat_completions_create _ _ _ _) as [answer w].
  destruct answer as [e | [|[[|c content]|] rest]]; simpl;
    intros H; injection H as <-; auto.
Qed.

(** Every value is a sentence list, a dict without ['sentences'], or makes
    the fallback block raise. *)
Lemma sentences_block_split (v : Val) :
  (exists origs transs, sentence_list v origs transs)
  \/ (exists kvs, v = VDict kvs /\ dict_get (str "sentences") kvs = None)
  \/ (exists e, sentences_block v = inl e).
Proof.
  destruct (sentences_block v) as [e | r] eqn:Hb; [eauto|].
  destruct (sentences_block_shape v Hb)
    as [(origs & transs & Hs & _) | (msg & ->)]; [eauto|].
  right. left. unfold sentences_block in Hb.
  destruct v; simpl in Hb; try discriminate.
  - destruct (occurs (str "sentences") s); simpl in Hb; discriminate.
  - destruct (existsb _ l); simpl in Hb; discriminate.
  - exists kvs. split; [reflexivity|].
    destruct (dict_get (str "sentences") kvs) as [sentences|];
      [|reflexivity].
    simpl in Hb.
    destruct (py_iter sentences) as [e | items]; simpl in Hb;
      [discriminate|].
    destruct (getitem_each items (str "orig")) as [e | origs];
      simpl in Hb; [discriminate|].
    destruct (getitem_each items (str "trans")) as [e | tb];
      simpl in Hb; [discriminate|].
    destruct (py_join_empty tb) as [e | t]; simpl in Hb; discriminate.
Qed.

(** C7 (amended). The fallback block returns a success exactly when the
    value returned by [google_trans] is a dict whose ['sentences'] entry
    iterates over dicts that each have an ['orig'] entry and a [str]
    ['trans'] entry; the translation is then the concatenation of the
    ['trans'] fragments, with both fragment lists attached.  A dict without
    ['sentences'] gives the error "code: message" built from its
    ['error_code'] and ['error_msg'] entries, with "unknown" for a missing
    code and "unknown error" for a missing message; a response whose status
    is not 200 is such a dict, made of its status and reason.  Every other
    value makes the block raise, a malformed sentence list like a value
    that is no dict, and gives the error "Google: " followed by the
    exception met.  This is what the block returns whenever its [print]
    does not raise. *)
Theorem fallback_response_outcome :
  forall v : Val,
    (forall origs transs,
        sentence_list v origs transs ->
        fallback_outcome (inr v)
        = dict_google (concat transs) origs (map VStr transs) (str "Google"))
    /\ (forall t,
          k_trans (fallback_outcome (inr v)) = Some t ->
          exists origs transs,
            sentence_list v origs transs /\ t = concat transs)
    /\ (forall kvs,
          v = VDict kvs ->
          dict_get (str "sentences") kvs = None ->
          fallback_outcome (inr v)
          = dict_error
              (format_val (get_default (dict_get (str "error_code") kvs)
                                       (VStr (str "unknown")))
               ++ str ": "
               ++ format_val (get_default (dict_get (str "error_msg") kvs)
                                          (VStr (str "unknown error")))))
    /\ ((exists origs transs, sentence_list v origs transs)
        \/ (exists kvs,
               v = VDict kvs /\ dict_get (str "sentences") kvs = None)
        \/ (exists e,
               sentences_block v = inl e
               /\ fallback_outcome (inr v)
                  = dict_error (str "Google: " ++ repr e)))
    /\ ((forall kvs, v <> VDict kvs) ->
        exists e,
          (e = TypeError \/ e = AttributeError)
          /\ fallback_outcome (inr v) = dict_error (str "Google: " ++ repr e))
    /\ (forall fuel texts target_lang st st',
          google_trans fuel texts target_lang st = Ret v st' ->
          google_fallback fuel texts target_lang st
          = Ret (fallback_outcome (inr v)) st'
          /\ (console_ok P ->
              exists st'',
                Io.google_fallback fuel texts target_lang st
                = Ret (fallback_outcome (inr v)) st''
                /\ events st'' = events st'
                /\ _google_trans_wait st'' = _google_trans_wait st'))
    /\ (forall c m,
          v = VDict [(str "error_code", VInt c); (str "error_msg", VStr m)] ->
          fallback_outcome (inr v)
          = dict_error (str_of_int c ++ str ": " ++ m)).
Proof.
  intros v.
  split.
  { intros origs transs H. unfold fallback_outcome.
    rewrite (sentences_block_success H). reflexivity. }
  split.
  { intros t H. unfold fallback_outcome in H.
    destruct (sentences_block v) as [e | r] eqn:Hb; [discriminate|].
    destruct (sentences_block_shape v Hb)
      as [(origs & transs & Hs & ->) | (msg & ->)]; [|discriminate].
    injection H as <-. eauto. }
  split.
  { intros kvs -> Hs. unfold fallback_outcome, sentences_block. simpl.
    rewrite Hs. reflexivity. }
  split.
  { destruct (sentences_block_split v) as [H | [H | (e & He)]]; auto.
    right. right. exists e. split; [exact He|].
    unfold fallback_outcome. rewrite He. reflexivity. }
  split.
  { intros Hnd. unfold fallback_outcome, sentences_block.
    destruct v; simpl;
      try (exists TypeError; split; [auto | reflexivity]).
    - destruct (occurs (str "sentences") s); simpl;
        [exists TypeError | exists AttributeError]; split; auto.
    - destruct (existsb _ l); simpl;
        [exists TypeError | exists AttributeError]; split; auto.
    - exfalso. exact (Hnd kvs eq_refl). }
  split.
  { intros fuel texts target_lang st st' Hrun. split.
    - rewrite google_fallback_run, Hrun. reflexivity.
    - intros Hc.
      pose proof (io_google_fallback_ok fuel texts target_lang st Hc) as H.
      rewrite Hrun in H. exact H. }
  intros c m ->. vm_compute. reflexivity.
Qed.

End ConsoleClient.

(** C7 on the answer for "こんにちは". *)
Lemma fallback_response_outcome_witness :
  fallback_outcome (E := script_env) (inr greeting)
  = dict_google (str "你好") [VStr (str "こんにちは")] [VStr (str "你好")]
      (str "Google").
Proof.
  destruct (@fallback_response_outcome script_env plain_console greeting)
    as (Hok & _).
  apply (Hok [VStr (str "こんにちは")] [str "你好"]).
  exists [(str "sentences", VList [sentence (str "こんにちは") (str "你好")]);
          (str "src", VStr (str "ja"))],
    (VList [sentence (str "こんにちは") (str "你好")]),
    [sentence (str "こんにちは") (str "你好")].
  repeat split.
  - repeat constructor.
    exists [(str "trans", VStr (str "你好"));
            (str "orig", VStr (str "こんにちは"))].
    split; reflexivity.
  - repeat constructor.
    exists [(str "trans", VStr (str "你好"));
            (str "orig", VStr (str "こんにちは"))].
    split; reflexivity.
Defined.

(** C8 on the scripted world: an empty answer, an exception, no package,
    and a client library that fails while it is loaded. *)
Lemma translate_with_openai_compatible_outcomes_witness :
  (exists st',
      Io.translate_with_openai_compatible (P := plain_console)
        (str "こんにちは") provider_a None (str "zh_CN")
        provider_then_fallback
      = Ret (dict_error_code (-12) (str "Empty response from API")) st')
  /\ (exists st',
         Io.translate_with_openai_compatible (P := plain_console)
           (str "こんにちは") provider_a None (str "zh_CN")
           (script true [inl (OtherError (str "ValueError()"))] [])
         = Ret (dict_error_code (-11) (str "ValueError()")) st')
  /\ Io.translate_with_openai_compatible (P := plain_console)
       (str "こんにちは") provider_a None (str "zh_CN") all_fail
     = Ret (dict_error_code (-10) (str "openai package not installed"))
           all_fail
  /\ Io.translate_with_openai_compatible (P := broken_import)
       (str "こんにちは") provider_a None (str "zh_CN")
       provider_then_fallback
     = Raise (OtherError (str "RuntimeError('incompatible pydantic')"))
         provider_then_fallback.
Proof.
  split; [|split; [|split]].
  - destruct (@translate_with_openai_compatible_outcomes script_env
                plain_console (str "こんにちは") provider_a None
                (str "zh_CN") provider_then_fallback)
      as (_ & _ & _ & H & _).
    eexists. exact (H eq_refl eq_refl eq_refl _ _ eq_refl).
  - destruct (@translate_with_openai_compatible_outcomes script_env
                plain_console (str "こんにちは") provider_a None
                (str "zh_CN")
                (script true [inl (OtherError (str "ValueError()"))] []))
      as (_ & _ & _ & H & _).
    eexists. exact (H eq_refl eq_refl eq_refl _ _ eq_refl).
  - destruct (@translate_with_openai_compatible_outcomes script_env
                plain_console (str "こんにちは") provider_a None
                (str "zh_CN") all_fail) as (_ & H & _).
    exact (H eq_refl eq_refl).
  - destruct (@translate_with_openai_compatible_outcomes script_env
                broken_import (str "こんにちは") provider_a None
                (str "zh_CN") provider_then_fallback) as (H & _).
    exact (H _ eq_refl).
Defined.

(** X5 on two providers, an empty answer and a translation, and a fallback
    that answers: three entries, made of what was answered. *)
Lemma test_translation_providers_report_witness :
  exists st',
    Io.test_translation_providers (P := plain_console) 0
      (config [provider_a; provider_b] true)
      (script true [inr []; inr [Some (str "你好")]]
         [inr (response_ok greeting)])
    = Ret [test_failed (str "A") (str "-12: Empty response from API");
           test_success (str "model-b@https://b.example/v1") (str "你好");
           test_success (str "Google") (str "你好")] st'.
Proof.
  destruct (@test_translation_providers_report script_env plain_console 0
              (config [provider_a; provider_b] true)
              (script true [inr []; inr [Some (str "你好")]]
                 [inr (response_ok greeting)])) as (Hrep & _).
  cbv zeta in Hrep.
  destruct (Io.test_translation_providers (P := plain_console) 0
              (config [provider_a; provider_b] true)
              (script true [inr []; inr [Some (str "你好")]]
                 [inr (response_ok greeting)]))
    as [entries st' | |] eqn:Hrun; try (vm_compute in Hrun; discriminate).
  destruct Hrep as (es & st1 & _ & Hent & _).
  exists st'. vm_compute in Hrun. injection Hrun as <- _.
  vm_compute. reflexivity.
Defined.

(** X6 on the same run: the calls go to the two providers in order, and the
    fallback is asked for the test text. *)
Lemma test_translation_providers_requests_witness :
  exists st' evs,
    final (Io.test_translation_providers (P := plain_console) 0
             (config [provider_a; provider_b] true)
             (script true [inr []; inr [Some (str "你好")]]
                [inr (response_ok greeting)]))
    = Some st'
    /\ events st' = evs
    /\ Forall (is_test_event (config [provider_a; provider_b] true)) evs
    /\ subseq (chats evs) [provider_a; provider_b]
    /\ In (EvGet (google_trans_url test_text (str "zh_CN"))) evs.
Proof.
  destruct (final (Io.test_translation_providers (P := plain_console) 0
                     (config [provider_a; provider_b] true)
                     (script true [inr []; inr [Some (str "你好")]]
                        [inr (response_ok greeting)])))
    as [st'|] eqn:Hfin; [|vm_compute in Hfin; discriminate].
  destruct (@test_translation_providers_requests script_env plain_console
              _ _ _ _ Hfin) as (evs & Hev & Hall & Hsub & Hin).
  exists st', evs. split; [reflexivity|]. split; [exact Hev|].
  split; [exact Hall|]. split; [exact Hsub|].
  apply Hin.
  destruct (Io.test_translation_providers (P := plain_console) 0
              (config [provider_a; provider_b] true)
              (script true [inr []; inr [Some (str "你好")]]
                 [inr (response_ok greeting)]))
    as [entries s | |] eqn:Hrun; try (vm_compute in Hrun; discriminate).
  injection Hfin as <-. exists entries. reflexivity.
Defined.

(** X13 on a world whose endpoint always answers: the title is translated
    without any retry allowed, and the wait is the one the module starts
    with. *)
Lemma never_throttled_keeps_wait_witness :
  exists info' st',
    Io.translate_movie_info (E := calm_env) (P := calm_console)
      (L := script_detect) 0 (config [provider_a] true)
      (movie (str "こんにちは") []) (initial_state (E := calm_env) tt)
    = Io.Returned true info' st'
    /\ _google_trans_wait st' = 60%Z.
Proof.
  destruct (@never_throttled_keeps_wait calm_env calm_console script_detect
              calm_never_throttled 0 (config [provider_a] true))
    as (_ & _ & H & _).
  destruct (Io.translate_movie_info (E := calm_env) (P := calm_console)
              (L := script_detect) 0 (config [provider_a] true)
              (movie (str "こんにちは") []) (initial_state (E := calm_env) tt))
    as [r info' st' | |] eqn:Hrun; try (vm_compute in Hrun; discriminate).
  exists info', st'.
  assert (Hr : r = true) by (vm_compute in Hrun; congruence).
  subst r. split; [reflexivity|].
  specialize (H (movie (str "こんにちは") [])
                (initial_state (E := calm_env) tt) st').
  rewrite Hrun in H. exact (H eq_refl).
Defined.

(* ================================================================== *)
(** ** The two embeddings agree on a silent console

    With a console that takes every text and leaves the world alone, and an
    import that raises nothing but [ImportError], the functions with their
    console output compute what the functions without it compute. *)

Section SilentConsole.
Context {E : Env} {P : Platform E}.
Hypothesis Hsilent : silent_console P.
Hypothesis Hclean : import_clean P.

Lemma print_silent text end_ st : Io.print text end_ st = Ret tt st.
Proof using Hsilent.
  unfold Io.print. rewrite Hsilent. destruct st; reflexivity.
Qed.

Lemma client_agrees texts provider actress target_lang st :
  Io.translate_with_openai_compatible texts provider actress target_lang st
  = translate_with_openai_compatible texts provider actress target_lang st.
Proof using Hclean.
  rewrite client_import, Hclean. reflexivity.
Qed.

Lemma providers_loop_agrees texts actress target_lang total ps :
  forall idx errors st,
    Io.providers_loop texts actress target_lang total idx ps errors st
    = providers_loop texts actress target_lang ps errors st.
Proof using Hsilent Hclean.
  induction ps as [|p ps IH]; intros idx errors st; [reflexivity|].
  cbn [Io.providers_loop providers_loop]. unfold bind.
  rewrite print_silent, client_agrees.
  destruct (translate_with_openai_compatible texts p (Some actress)
              target_lang st) as [r s1 | e s1 |]; try reflexivity.
  destruct (is_some (k_trans r)); rewrite print_silent; [reflexivity|].
  apply IH.
Qed.

Lemma google_fallback_agrees fuel texts target_lang st :
  Io.google_fallback fuel texts target_lang st
  = google_fallback fuel texts target_lang st.
Proof using Hsilent.
  unfold Io.google_fallback, google_fallback, try_except, bind.
  destruct (google_trans fuel texts target_lang st) as [v s1 | e s1 |];
    try reflexivity.
  - unfold lift. destruct (sentences_block v); unfold raise, ret;
      rewrite print_silent; reflexivity.
  - rewrite print_silent. reflexivity.
Qed.

Lemma translate_with_providers_agrees fuel cfg texts actress target_lang
    st :
  Io.translate_with_providers fuel cfg texts actress target_lang st
  = translate_with_providers fuel cfg texts actress target_lang st.
Proof using Hsilent Hclean.
  unfold Io.translate_with_providers, translate_with_providers, bind.
  destruct (providers cfg) as [|p ps].
  - unfold ret. rewrite print_silent. apply google_fallback_agrees.
  - rewrite providers_loop_agrees.
    destruct (providers_loop texts (get_default actress []) target_lang
                (p :: ps) [] st) as [[r | errors] s1 | e s1 |];
      try reflexivity.
    unfold warning, ret. rewrite print_silent.
    apply google_fallback_agrees.
Qed.

Lemma test_providers_loop_agrees target_lang ps :
  forall results st,
    Io.test_providers_loop target_lang ps results st
    = test_providers_loop target_lang ps results st.
Proof using Hclean.
  induction ps as [|p ps IH]; intros results st; [reflexivity|].
  cbn [Io.test_providers_loop test_providers_loop]. unfold bind.
  rewrite client_agrees.
  destruct (translate_with_openai_compatible test_text p (Some [])
              target_lang st) as [r s1 | e s1 |]; try reflexivity.
  destruct (k_trans r); [apply IH|].
  unfold warning. apply IH.
Qed.

Lemma test_translation_providers_agrees fuel cfg st :
  Io.test_translation_providers fuel cfg st
  = test_translation_providers fuel cfg st.
Proof using Hclean.
  unfold Io.test_translation_providers, test_translation_providers, bind.
  destruct (providers cfg) as [|p ps]; [reflexivity|].
  rewrite test_providers_loop_agrees. reflexivity.
Qed.

Context {L : LangDetect}.

Lemma translate_title_agrees fuel cfg info st :
  Io.translate_title fuel cfg info st
  = match translate_title fuel cfg info st with
    | Ret info' st' => Io.Returned tt info' st'
    | Raise e st' => Io.Raised e info st'
    | Diverge => Io.Diverged
    end.
Proof using Hsilent Hclean.
  destruct (title_attempted cfg info) eqn:Hatt.
  - rewrite (io_translate_title_run fuel cfg info st Hatt). cbv zeta.
    destruct (title_attempted_title cfg info Hatt)
      as (Htr & Hf & Hori & Hskip & _).
    unfold translate_title. rewrite Htr, Hf, Hori. cbn [is_some negb andb].
    cbv zeta. rewrite Hskip. unfold bind.
    rewrite print_silent, translate_with_providers_agrees.
    destruct (translate_with_providers fuel cfg _ (actress info) _ st)
      as [r s1 | e s1 |]; try reflexivity.
    destruct (k_trans r); rewrite print_silent; [reflexivity|].
    unfold warning, ret. destruct (title_mandatory cfg); reflexivity.
  - unfold title_attempted in Hatt.
    unfold Io.translate_title, translate_title, Io.obj_bind, Io.attrs.
    destruct (truthy (title info) && field_title (fields cfg)
              && negb (is_some (ori_title info))); simpl in Hatt |- *;
      [|reflexivity].
    destruct (auto_detect_language cfg && _); [|discriminate].
    unfold Io.call. rewrite !print_silent. reflexivity.
Qed.

Lemma translate_plot_agrees fuel cfg info st :
  Io.translate_plot fuel cfg info st
  = match translate_plot fuel cfg info st with
    | Ret info' st' => Io.Returned tt info' st'
    | Raise e st' => Io.Raised e info st'
    | Diverge => Io.Diverged
    end.
Proof using Hsilent Hclean.
  destruct (plot_attempted cfg info) eqn:Hatt.
  - rewrite (io_translate_plot_run fuel cfg info st Hatt). cbv zeta.
    destruct (plot_attempted_plot cfg info Hatt) as (Htr & Hf & Hskip & _).
    unfold translate_plot. rewrite Htr, Hf. cbn [andb].
    cbv zeta. rewrite Hskip. unfold bind.
    rewrite print_silent, translate_with_providers_agrees.
    destruct (translate_with_providers fuel cfg _ (actress info) _ st)
      as [r s1 | e s1 |]; try reflexivity.
    destruct (k_trans r); rewrite print_silent; reflexivity.
  - unfold plot_attempted in Hatt.
    unfold Io.translate_plot, translate_plot, Io.obj_bind, Io.attrs.
    destruct (truthy (plot info) && field_plot (fields cfg));
      simpl in Hatt |- *; [|reflexivity].
    destruct (auto_detect_language cfg && _); [|discriminate].
    unfold Io.call. rewrite !print_silent. reflexivity.
Qed.

(** What [translate_movie_info] returns and leaves in [info] is what the
    function without console output computes. *)
Lemma translate_movie_info_agrees fuel cfg info st :
  Io.translate_movie_info fuel cfg info st
  = match translate_movie_info fuel cfg info st with
    | Ret (r, info') st' => Io.Returned r info' st'
    | Raise e st' => Io.Raised e info st'
    | Diverge => Io.Diverged
    end.
Proof using Hsilent Hclean.
  rewrite io_translate_movie_info_run, print_silent, translate_title_agrees.
  rewrite translate_movie_info_run.
  destruct (translate_title fuel cfg info st) as [i1 s1 | e1 s1 |] eqn:Ht;
    [|exfalso; exact (translate_title_no_raise _ _ _ _ Ht) | reflexivity].
  rewrite translate_plot_agrees.
  destruct (translate_plot fuel cfg i1 s1) as [i2 s2 | e2 s2 |] eqn:Hp;
    [reflexivity | | reflexivity].
  exfalso. exact (translate_plot_no_raise _ _ _ _ _ _ Hp).
Qed.

End SilentConsole.
